(** * phase-plane: the numerical and geometric engine of [src/lib.ts]

    A shallow embedding of the engine of the phase-plane viewer: the view
    transform, the fixed-step RK4 integrator, the marching-squares contour
    extractor, the segment stitcher and the equilibrium solver.

    The TypeScript source computes with the JavaScript [number] type, that
    is IEEE-754 binary64.  Every function below is written once, over an
    interface [Number] of the operations the source uses, and read in two
    ways:

    - at [float] (Rocq's primitive binary64 floats): the program as it runs;
    - at [R]: the same program text in exact real arithmetic, the
      idealisation in which the algebraic laws of the design are stated. *)

From Stdlib Require Import Floats ZArith String List Bool Lia.
From Stdlib Require Import Reals Lra Permutation.
Import ListNotations.

Set Warnings "-inexact-float".

(** ** The [number] interface *)

(** What the template literal [`${Math.round(v)}`] renders: an integer, or
    one of the three non-finite values.  The decimal rendering of a number
    is injective up to the sign of zero (both zeros print as ["0"]), so the
    rendered strings are equal exactly when these values are. *)
Inductive Rounded : Type :=
| RInt (z : Z)
| RNaN
| RPosInf
| RNegInf.

Class Number (N : Type) : Type := {
  lit : float -> N;          (* a numeric literal of the source text *)
  of_nat : nat -> N;         (* an integer counter used as a number *)
  nadd : N -> N -> N;
  nsub : N -> N -> N;
  nmul : N -> N -> N;
  ndiv : N -> N -> N;
  nopp : N -> N;
  nabs : N -> N;             (* Math.abs *)
  nltb : N -> N -> bool;     (* x < y *)
  nleb : N -> N -> bool;     (* x <= y *)
  isFinite : N -> bool;      (* isFinite(x) *)
  hypot : N -> N -> N;       (* Math.hypot(x, y) *)
  nmin : N -> N -> N;        (* Math.min(x, y) *)
  round : N -> Rounded       (* Math.round(x), as rendered in a string *)
}.

Declare Scope num_scope.
Delimit Scope num_scope with num.
Notation "x + y" := (nadd x y) : num_scope.
Notation "x - y" := (nsub x y) : num_scope.
Notation "x * y" := (nmul x y) : num_scope.
Notation "x / y" := (ndiv x y) : num_scope.
Notation "- x" := (nopp x) : num_scope.
Notation "x <? y" := (nltb x y) (at level 70, no associativity) : num_scope.
Notation "x <=? y" := (nleb x y) (at level 70, no associativity) : num_scope.
Notation "x >? y" := (nltb y x) (at level 70, no associativity) : num_scope.
Notation "x >=? y" := (nleb y x) (at level 70, no associativity) : num_scope.

(** *** Binary64: the numbers of the running program *)

Module F64.

(** A loop counter or a count as a number; exact below 2^53. *)
Definition of_nat (n : nat) : float :=
  PrimFloat.of_uint63 (Uint63.of_Z (Z.of_nat n)).

(** [Math.hypot]: ECMAScript leaves its precision to the implementation;
    this is the correctly scaled square root of the sum of squares, with
    the special cases the standard fixes (an infinite argument gives
    [+Infinity], otherwise a NaN argument gives NaN). *)
Definition hypot (a b : float) : float :=
  if (PrimFloat.is_infinity a || PrimFloat.is_infinity b)%bool then PrimFloat.infinity
  else if (PrimFloat.is_nan a || PrimFloat.is_nan b)%bool then PrimFloat.nan
  else
    let m := (if (PrimFloat.abs a <? PrimFloat.abs b)%float
              then PrimFloat.abs b else PrimFloat.abs a) in
    if (m =? 0)%float then 0%float
    else (m * PrimFloat.sqrt ((a / m) * (a / m) + (b / m) * (b / m)))%float.

(** [Math.min]: NaN if either argument is, and [-0] below [+0]. *)
Definition min (a b : float) : float :=
  if (PrimFloat.is_nan a || PrimFloat.is_nan b)%bool then PrimFloat.nan
  else if (a <? b)%float then a
  else if (b <? a)%float then b
  else if PrimFloat.get_sign a then a else b.

(** [Math.round]: the nearest integer, ties towards +Infinity, computed
    on the exact value [(-1)^s * m * 2^e] of the argument. *)
Definition round (v : float) : Rounded :=
  match Prim2SF v with
  | S754_zero _ => RInt 0
  | S754_infinity s => if s then RNegInf else RPosInf
  | S754_nan => RNaN
  | S754_finite s m e =>
      let n := if s then Z.opp (Zpos m) else Zpos m in
      if (0 <=? e)%Z then RInt (n * 2 ^ e)
      else RInt ((2 * n + 2 ^ (- e)) / 2 ^ (- e + 1))
  end.

End F64.

#[export] Instance float_Number : Number float := {
  lit := fun c => c;
  of_nat := F64.of_nat;
  nadd := PrimFloat.add;
  nsub := PrimFloat.sub;
  nmul := PrimFloat.mul;
  ndiv := PrimFloat.div;
  nopp := PrimFloat.opp;
  nabs := PrimFloat.abs;
  nltb := PrimFloat.ltb;
  nleb := PrimFloat.leb;
  isFinite := PrimFloat.is_finite;
  hypot := F64.hypot;
  nmin := F64.min;
  round := F64.round
}.

(** *** Exact reals: the same operations without rounding *)

Module Exact.

(** The real number a binary64 literal stands for. *)
Definition of_float (c : float) : R :=
  match Prim2SF c with
  | S754_finite s m e =>
      ((if s then -1 else 1) * IZR (Zpos m) * powerRZ 2 e)%R
  | _ => 0%R
  end.

Definition ltb (a b : R) : bool := if Rlt_dec a b then true else false.
Definition leb (a b : R) : bool := if Rle_dec a b then true else false.

Definition hypot (a b : R) : R := sqrt (a * a + b * b).

Definition round (v : R) : Rounded := RInt (up (v + / 2) - 1).

End Exact.

#[export] Instance real_Number : Number R := {
  lit := Exact.of_float;
  of_nat := INR;
  nadd := Rplus;
  nsub := Rminus;
  nmul := Rmult;
  ndiv := Rdiv;
  nopp := Ropp;
  nabs := Rabs;
  nltb := Exact.ltb;
  nleb := Exact.leb;
  isFinite := fun _ => true;
  hypot := Exact.hypot;
  nmin := Rmin;
  round := Exact.round
}.

(** ** Data model *)

(** [type Vec2 = { x: number; y: number }] *)
Module Vec2.
Record t (N : Type) : Type := mk { x : N; y : N }.
Arguments mk {N} _ _.
Arguments x {N} _.
Arguments y {N} _.
End Vec2.

(** [Record<string, number>]: the parameter object handed to [f] and [g];
    the engine only passes it along. *)
Definition Params (N : Type) : Type := list (string * N).

(** [interface System] *)
Module System.
Record t (N : Type) : Type := mk {
  f : N -> N -> Params N -> N;
  g : N -> N -> Params N -> N;
  params : Params N
}.
Arguments mk {N} _ _ _.
Arguments f {N} _ _ _ _.
Arguments g {N} _ _ _ _.
Arguments params {N} _.
End System.

(** The rectangle objects [{ xmin, xmax, ymin, ymax }], and [class
    Transform], whose fields are the same four bounds.  The methods that
    assign to [this] are state transformers. *)
Module Transform.
Record t (N : Type) : Type := mk { xmin : N; xmax : N; ymin : N; ymax : N }.
Arguments mk {N} _ _ _ _.
Arguments xmin {N} _.
Arguments xmax {N} _.
Arguments ymin {N} _.
Arguments ymax {N} _.

Section Methods.
Context {N : Type} `{Number N}.
Local Open Scope num_scope.

Definition toScreen (this : t N) (w h : N) (p : Vec2.t N) : Vec2.t N :=
  let sx := ((Vec2.x p - xmin this) / (xmax this - xmin this)) * w in
  let sy := h - ((Vec2.y p - ymin this) / (ymax this - ymin this)) * h in
  Vec2.mk sx sy.

Definition toWorld (this : t N) (w h : N) (p : Vec2.t N) : Vec2.t N :=
  let x := (Vec2.x p / w) * (xmax this - xmin this) + xmin this in
  let y := ((h - Vec2.y p) / h) * (ymax this - ymin this) + ymin this in
  Vec2.mk x y.

Definition zoom (this : t N) (cx cy factor : N) : t N :=
  let xr := xmax this - xmin this in
  let yr := ymax this - ymin this in
  let nxr := xr / factor in
  let nyr := yr / factor in
  let xmin' := cx - (cx - xmin this) * (nxr / xr) in
  let xmax' := xmin' + nxr in
  let ymin' := cy - (cy - ymin this) * (nyr / yr) in
  let ymax' := ymin' + nyr in
  mk xmin' xmax' ymin' ymax'.

Definition pan (this : t N) (dx dy : N) : t N :=
  mk (xmin this + dx) (xmax this + dx) (ymin this + dy) (ymax this + dy).

End Methods.
End Transform.

(** The anonymous object type [{ a: Vec2; b: Vec2 }] of a contour segment. *)
Module Seg.
Record t (N : Type) : Type := mk { a : Vec2.t N; b : Vec2.t N }.
Arguments mk {N} _ _.
Arguments a {N} _.
Arguments b {N} _.
End Seg.

(** ** Integrator *)

Section Integrator.
Context {N : Type} `{Number N}.
Local Open Scope num_scope.

(** The body of the loop of [rk4] up to its test: the four evaluations of
    the field and the new [(x, y)]. *)
Definition rk4Step (sys : System.t N) (dt x y : N) : N * N :=
  let f := System.f sys in
  let g := System.g sys in
  let params := System.params sys in
  let k1x := f x y params in
  let k1y := g x y params in
  let x2 := x + lit 0.5 * dt * k1x in
  let y2 := y + lit 0.5 * dt * k1y in
  let k2x := f x2 y2 params in
  let k2y := g x2 y2 params in
  let x3 := x + lit 0.5 * dt * k2x in
  let y3 := y + lit 0.5 * dt * k2y in
  let k3x := f x3 y3 params in
  let k3y := g x3 y3 params in
  let x4 := x + dt * k3x in
  let y4 := y + dt * k3y in
  let k4x := f x4 y4 params in
  let k4y := g x4 y4 params in
  (x + (dt / lit 6) * (k1x + lit 2 * k2x + lit 2 * k3x + k4x),
   y + (dt / lit 6) * (k1y + lit 2 * k2y + lit 2 * k3y + k4y)).

(** The condition of the [break]. *)
Definition leavesBounds (worldBounds : Transform.t N) (x y : N) : bool :=
  negb (isFinite x)
  || negb (isFinite y)
  || (x <? Transform.xmin worldBounds)
  || (x >? Transform.xmax worldBounds)
  || (y <? Transform.ymin worldBounds)
  || (y >? Transform.ymax worldBounds).

(** The [for] loop, with [n] iterations left and the mutable locals [x],
    [y] and [pts] as arguments. *)
Fixpoint rk4Loop (n : nat) (sys : System.t N) (dt : N)
    (worldBounds : Transform.t N) (x y : N) (pts : list (Vec2.t N))
  : list (Vec2.t N) :=
  match n with
  | O => pts
  | S n' =>
      let '(x', y') := rk4Step sys dt x y in
      if leavesBounds worldBounds x' y' then pts
      else rk4Loop n' sys dt worldBounds x' y' (pts ++ [Vec2.mk x' y'])
  end.

(** [steps] is the number of times the test [i < steps] succeeds. *)
Definition rk4 (sys : System.t N) (p0 : Vec2.t N) (dt : N) (steps : nat)
    (worldBounds : Transform.t N) : list (Vec2.t N) :=
  rk4Loop steps sys dt worldBounds (Vec2.x p0) (Vec2.y p0) [p0].

(** Returns [{ forward, backward }], here as a pair. *)
Definition integrateBidirectional (sys : System.t N) (seed : Vec2.t N)
    (dt : N) (steps : nat) (bounds : Transform.t N)
  : list (Vec2.t N) * list (Vec2.t N) :=
  let forward := rk4 sys seed dt steps bounds in
  let backward := rk4 sys seed (- dt) steps bounds in
  (forward, backward).

End Integrator.

(** ** Contour extraction (marching squares) *)

Section CurveExtractor.
Context {N : Type} `{Number N}.
Local Open Scope num_scope.

Definition ScalarField : Type := N -> N -> N.

Definition lerpZero (x1 y1 v1 x2 y2 v2 : N) : Vec2.t N :=
  let t := v1 / (v1 - v2) in
  Vec2.mk (x1 + t * (x2 - x1)) (y1 + t * (y2 - y1)).

(** The conditional applied to every sample:
    [Math.abs(v) < 1e-15 ? (v >= 0 ? 1e-15 : -1e-15) : v]. *)
Definition signedEps (v : N) : N :=
  if nabs v <? lit 1e-15
  then (if v >=? lit 0 then lit 1e-15 else - lit 1e-15)
  else v.

(** The table [val], [rows + 1] rows of [cols + 1] samples. *)
Definition gridValues (T : Transform.t N) (field : ScalarField)
    (cols rows : nat) : list (list N) :=
  let dx := (Transform.xmax T - Transform.xmin T) / of_nat cols in
  let dy := (Transform.ymax T - Transform.ymin T) / of_nat rows in
  map (fun j =>
         map (fun i =>
                let x := Transform.xmin T + of_nat i * dx in
                let y := Transform.ymin T + of_nat j * dy in
                let v := field x y in
                signedEps v)
             (seq 0 (cols + 1)))
      (seq 0 (rows + 1)).

(** [val[j][i]]; an index outside the table reads [undefined], which
    behaves as NaN in the comparisons and the arithmetic that follow. *)
Definition valAt (val : list (list N)) (j i : nat) : N :=
  nth i (nth j val []) (lit PrimFloat.nan).

Definition signBit (v : N) : Z := if v >? lit 0 then 1%Z else 0%Z.

(** The body of the inner loop for the cell [(i, j)]: the segments it
    pushes, in order. *)
Definition cellSegments (T : Transform.t N) (val : list (list N))
    (dx dy : N) (j i : nat) : list (Seg.t N) :=
  let x0 := Transform.xmin T + of_nat i * dx in
  let x1 := x0 + dx in
  let y0 := Transform.ymin T + of_nat j * dy in
  let y1 := y0 + dy in
  let v00 := valAt val j i in
  let v10 := valAt val j (i + 1) in
  let v11 := valAt val (j + 1) (i + 1) in
  let v01 := valAt val (j + 1) i in
  let c :=
    Z.lor (Z.lor (Z.lor (signBit v00) (Z.shiftl (signBit v10) 1))
                 (Z.shiftl (signBit v11) 2))
          (Z.shiftl (signBit v01) 3) in
  if ((c =? 0) || (c =? 15))%Z then []
  else
    let edgePoint (edge : nat) : Vec2.t N :=
      match edge with
      | 0%nat => lerpZero x0 y0 v00 x0 y1 v01
      | 1%nat => lerpZero x0 y0 v00 x1 y0 v10
      | 2%nat => lerpZero x1 y0 v10 x1 y1 v11
      | 3%nat => lerpZero x0 y1 v01 x1 y1 v11
      | _ => Vec2.mk x0 y0
      end in
    let emit (a b : Vec2.t N) := Seg.mk a b in
    match c with
    | 1%Z | 14%Z => [emit (edgePoint 0%nat) (edgePoint 1%nat)]
    | 2%Z | 13%Z => [emit (edgePoint 1%nat) (edgePoint 2%nat)]
    | 3%Z | 12%Z => [emit (edgePoint 0%nat) (edgePoint 2%nat)]
    | 4%Z | 11%Z => [emit (edgePoint 2%nat) (edgePoint 3%nat)]
    | 5%Z => [emit (edgePoint 0%nat) (edgePoint 1%nat);
              emit (edgePoint 2%nat) (edgePoint 3%nat)]
    | 6%Z | 9%Z => [emit (edgePoint 1%nat) (edgePoint 3%nat)]
    | 7%Z | 8%Z => [emit (edgePoint 0%nat) (edgePoint 3%nat)]
    | 10%Z => [emit (edgePoint 0%nat) (edgePoint 2%nat);
               emit (edgePoint 1%nat) (edgePoint 3%nat)]
    | _ => []
    end.

Definition zeroContourSegments (T : Transform.t N) (field : ScalarField)
    (cols rows : nat) : list (Seg.t N) :=
  let dx := (Transform.xmax T - Transform.xmin T) / of_nat cols in
  let dy := (Transform.ymax T - Transform.ymin T) / of_nat rows in
  let val := gridValues T field cols rows in
  flat_map (fun j => flat_map (fun i => cellSegments T val dx dy j i)
                              (seq 0 cols))
           (seq 0 rows).

End CurveExtractor.

(** ** Stitcher *)

(** An adjacency key [`${Math.round(p.x / keyTol)}_${Math.round(p.y / keyTol)}`]:
    two rendered integers around a separator no number contains. *)
Definition Key : Type := (Rounded * Rounded)%type.

Definition Rounded_eqb (r s : Rounded) : bool :=
  match r, s with
  | RInt a, RInt b => (a =? b)%Z
  | RNaN, RNaN => true
  | RPosInf, RPosInf => true
  | RNegInf, RNegInf => true
  | _, _ => false
  end.

(** [===] on two keys. *)
Definition Key_eqb (k l : Key) : bool :=
  Rounded_eqb (fst k) (fst l) && Rounded_eqb (snd k) (snd l).

(** The [Map<string, number[]>], in insertion order. *)
Definition Adj : Type := list (Key * list nat).

Fixpoint adjGet (adj : Adj) (k : Key) : option (list nat) :=
  match adj with
  | [] => None
  | (k', l) :: rest => if Key_eqb k' k then Some l else adjGet rest k
  end.

Definition adjHas (adj : Adj) (k : Key) : bool :=
  match adjGet adj k with Some _ => true | None => false end.

(** [adj.set(k, [])] for a key the map does not hold. *)
Definition adjSetEmpty (adj : Adj) (k : Key) : Adj := adj ++ [(k, [])].

(** [adj.get(k)!.push(i)]: the array stored under [k] grows in place. *)
Fixpoint adjPush (adj : Adj) (k : Key) (i : nat) : Adj :=
  match adj with
  | [] => []
  | (k', l) :: rest =>
      if Key_eqb k' k then (k', l ++ [i]) :: rest
      else (k', l) :: adjPush rest k i
  end.

(** [used[idx] = true], for an index inside the array. *)
Fixpoint markUsed (used : list bool) (idx : nat) : list bool :=
  match used, idx with
  | [], _ => []
  | _ :: rest, O => true :: rest
  | u :: rest, S idx' => u :: markUsed rest idx'
  end.

Section Stitcher.
Context {N : Type} `{Number N}.
Local Open Scope num_scope.

Definition keyTol : N := lit 0.5.

Definition key (p : Vec2.t N) : Key :=
  (round (Vec2.x p / keyTol), round (Vec2.y p / keyTol)).

(** The callback of [segsScreen.forEach], on the map alone. *)
Definition addSegment (adj : Adj) (i : nat) (s : Seg.t N) : Adj :=
  let ka := key (Seg.a s) in
  let kb := key (Seg.b s) in
  let adj := if adjHas adj ka then adj else adjSetEmpty adj ka in
  let adj := if adjHas adj kb then adj else adjSetEmpty adj kb in
  let adj := adjPush adj ka i in
  adjPush adj kb i.

Fixpoint buildAdj (adj : Adj) (i : nat) (segs : list (Seg.t N)) : Adj :=
  match segs with
  | [] => adj
  | s :: rest => buildAdj (addSegment adj i s) (S i) rest
  end.

(** The [for (const idx of incident)] scan.  [Some None] is a scan that
    ends with [advanced] still false, [Some (Some (idx, next))] one that
    breaks after choosing [idx], and [None] a read of [A[idx]] outside the
    array (a [TypeError] in [key]). *)
Fixpoint scanIncident (A B : list (Vec2.t N)) (used : list bool) (k : Key)
    (incident : list nat) : option (option (nat * Vec2.t N)) :=
  match incident with
  | [] => Some None
  | idx :: rest =>
      if nth idx used false then scanIncident A B used k rest
      else
        match nth_error A idx, nth_error B idx with
        | Some a, Some b =>
            if Key_eqb (key a) k then Some (Some (idx, b))
            else if Key_eqb (key b) k then Some (Some (idx, a))
            else scanIncident A B used k rest
        | _, _ => None
        end
  end.

(** One [while (true)] loop.  The two loops of the source differ only in
    how the chain grows ([push] at the right end, [unshift] at the left),
    which is the argument [grow]; [endp] is [right], respectively [left].
    [None] also stands for a loop that has not ended when [fuel] has. *)
Fixpoint extend (grow : list (Vec2.t N) -> Vec2.t N -> list (Vec2.t N))
    (fuel : nat) (A B : list (Vec2.t N)) (adj : Adj) (used : list bool)
    (chain : list (Vec2.t N)) (endp : Vec2.t N)
  : option (list bool * list (Vec2.t N)) :=
  match fuel with
  | O => None
  | S fuel' =>
      let k := key endp in
      let incident := match adjGet adj k with Some l => l | None => [] end in
      match scanIncident A B used k incident with
      | None => None
      | Some None => Some (used, chain)
      | Some (Some (idx, next)) =>
          extend grow fuel' A B adj (markUsed used idx) (grow chain next) next
      end
  end.

Definition pushRight (chain : list (Vec2.t N)) (next : Vec2.t N) := chain ++ [next].
Definition unshiftLeft (chain : list (Vec2.t N)) (next : Vec2.t N) := next :: chain.

(** The outer [for] loop from index [i] on, over the indices [todo]. *)
Fixpoint stitchLoop (fuel : nat) (A B : list (Vec2.t N)) (adj : Adj)
    (todo : list nat) (used : list bool) (polylines : list (list (Vec2.t N)))
  : option (list (list (Vec2.t N))) :=
  match todo with
  | [] => Some polylines
  | i :: rest =>
      if nth i used false then stitchLoop fuel A B adj rest used polylines
      else
        let used := markUsed used i in
        match nth_error A i, nth_error B i with
        | Some leftP, Some rightP =>
            let chain := [leftP; rightP] in
            match extend pushRight fuel A B adj used chain rightP with
            | None => None
            | Some (used, chain) =>
                match extend unshiftLeft fuel A B adj used chain leftP with
                | None => None
                | Some (used, chain) =>
                    stitchLoop fuel A B adj rest used (polylines ++ [chain])
                end
            end
        | _, _ => None
        end
  end.

(** Each [while] loop marks a segment at every turn but its last, so
    [length segsScreen + 1] turns are enough; [stitch_total] below shows
    the result is never [None]. *)
Definition stitchSegmentsToPolylines (segsScreen : list (Seg.t N))
  : option (list (list (Vec2.t N))) :=
  let adj := buildAdj [] 0 segsScreen in
  let A := map Seg.a segsScreen in
  let B := map Seg.b segsScreen in
  let used := repeat false (length segsScreen) in
  stitchLoop (S (length segsScreen)) A B adj
             (seq 0 (length segsScreen)) used [].

(** *** The stitcher with a record of the segments each chain consumed

    The same loops, each chain paired with the indices of the segments
    marked while it was built (a ghost component: erasing it gives back
    the functions above, [stitchTraced_erase]). *)

Fixpoint extendTraced (grow : list (Vec2.t N) -> Vec2.t N -> list (Vec2.t N))
    (fuel : nat) (A B : list (Vec2.t N)) (adj : Adj) (used : list bool)
    (chain : list (Vec2.t N)) (endp : Vec2.t N) (trace : list nat)
  : option (list bool * list (Vec2.t N) * list nat) :=
  match fuel with
  | O => None
  | S fuel' =>
      let k := key endp in
      let incident := match adjGet adj k with Some l => l | None => [] end in
      match scanIncident A B used k incident with
      | None => None
      | Some None => Some (used, chain, trace)
      | Some (Some (idx, next)) =>
          extendTraced grow fuel' A B adj (markUsed used idx)
                       (grow chain next) next (trace ++ [idx])
      end
  end.

Fixpoint stitchLoopTraced (fuel : nat) (A B : list (Vec2.t N)) (adj : Adj)
    (todo : list nat) (used : list bool)
    (polylines : list (list (Vec2.t N) * list nat))
  : option (list (list (Vec2.t N) * list nat)) :=
  match todo with
  | [] => Some polylines
  | i :: rest =>
      if nth i used false then stitchLoopTraced fuel A B adj rest used polylines
      else
        let used := markUsed used i in
        match nth_error A i, nth_error B i with
        | Some leftP, Some rightP =>
            let chain := [leftP; rightP] in
            match extendTraced pushRight fuel A B adj used chain rightP [i] with
            | None => None
            | Some (used, chain, trace) =>
                match extendTraced unshiftLeft fuel A B adj used chain leftP trace with
                | None => None
                | Some (used, chain, trace) =>
                    stitchLoopTraced fuel A B adj rest used
                                     (polylines ++ [(chain, trace)])
                end
            end
        | _, _ => None
        end
  end.

Definition stitchTraced (segsScreen : list (Seg.t N))
  : option (list (list (Vec2.t N) * list nat)) :=
  let adj := buildAdj [] 0 segsScreen in
  let A := map Seg.a segsScreen in
  let B := map Seg.b segsScreen in
  let used := repeat false (length segsScreen) in
  stitchLoopTraced (S (length segsScreen)) A B adj
                   (seq 0 (length segsScreen)) used [].

End Stitcher.

(** ** Equilibrium solver *)

Section EquilibriumSolver.
Context {N : Type} `{Number N}.
Local Open Scope num_scope.

Definition segIntersect (a b c d : Vec2.t N) : option (Vec2.t N) :=
  let x1 := Vec2.x a in
  let y1 := Vec2.y a in
  let x2 := Vec2.x b in
  let y2 := Vec2.y b in
  let x3 := Vec2.x c in
  let y3 := Vec2.y c in
  let x4 := Vec2.x d in
  let y4 := Vec2.y d in
  let den := (x1 - x2) * (y3 - y4) - (y1 - y2) * (x3 - x4) in
  if nabs den <? lit 1e-20 then None
  else
    let t := ((x1 - x3) * (y3 - y4) - (y1 - y3) * (x3 - x4)) / den in
    let u := ((x1 - x3) * (y1 - y2) - (y1 - y3) * (x1 - x2)) / den in
    if (t <? - lit 1e-9) || (t >? lit 1 + lit 1e-9)
       || (u <? - lit 1e-9) || (u >? lit 1 + lit 1e-9)
    then None
    else Some (Vec2.mk (x1 + t * (x2 - x1)) (y1 + t * (y2 - y1))).

(** The values one pass of the loop of [newtonPolish] computes at [(x, y)]
    before its first test: the finite-difference Jacobian entries and its
    determinant. *)
Definition jacobian (sys : System.t N) (hx hy x y : N) : N * N * N * N :=
  let f := fun u v => System.f sys u v (System.params sys) in
  let g := fun u v => System.g sys u v (System.params sys) in
  let f_xph := f (x + hx) y in
  let f_xmh := f (x - hx) y in
  let f_yph := f x (y + hy) in
  let f_ymh := f x (y - hy) in
  let g_xph := g (x + hx) y in
  let g_xmh := g (x - hx) y in
  let g_yph := g x (y + hy) in
  let g_ymh := g x (y - hy) in
  let a := (f_xph - f_xmh) / (lit 2 * hx) in
  let b := (f_yph - f_ymh) / (lit 2 * hy) in
  let c := (g_xph - g_xmh) / (lit 2 * hx) in
  let d := (g_yph - g_ymh) / (lit 2 * hy) in
  (a, b, c, d).

(** The [for (let it = 0; it < 3; it++)] loop with [n] passes left. *)
Fixpoint newtonLoop (n : nat) (sys : System.t N) (hx hy x y : N) : Vec2.t N :=
  match n with
  | O => Vec2.mk x y
  | S n' =>
      let fx := System.f sys x y (System.params sys) in
      let gy := System.g sys x y (System.params sys) in
      let '(a, b, c, d) := jacobian sys hx hy x y in
      let det := a * d - b * c in
      if nabs det <? lit 1e-20 then Vec2.mk x y
      else
        let sx := (- fx * d + b * gy) / det in
        let sy := (- a * gy + fx * c) / det in
        let x' := x - sx in
        let y' := y - sy in
        if hypot sx sy <? lit 1e-12 then Vec2.mk x' y'
        else newtonLoop n' sys hx hy x' y'
  end.

Definition newtonPolish (sys : System.t N) (p : Vec2.t N) (step : N) : Vec2.t N :=
  let hx := step in
  let hy := step in
  newtonLoop 3 sys hx hy (Vec2.x p) (Vec2.y p).

(** The [outer:] loop: [p] is kept unless an already kept [q] is within
    [tol] of it. *)
Fixpoint dedup (tol : N) (candidates uniq : list (Vec2.t N)) : list (Vec2.t N) :=
  match candidates with
  | [] => uniq
  | p :: rest =>
      if existsb (fun q => hypot (Vec2.x p - Vec2.x q) (Vec2.y p - Vec2.y q) <=? tol) uniq
      then dedup tol rest uniq
      else dedup tol rest (uniq ++ [p])
  end.

Definition candidatesOf (segsF segsG : list (Seg.t N)) : list (Vec2.t N) :=
  flat_map (fun sf =>
    flat_map (fun sg =>
      match segIntersect (Seg.a sf) (Seg.b sf) (Seg.a sg) (Seg.b sg) with
      | Some p => [p]
      | None => []
      end) segsG) segsF.

(** [density] is [opts?.density], taken as a whole number, on which
    [Math.floor] is the identity. *)
Definition findEquilibria (T : Transform.t N) (sys : System.t N)
    (density : option nat) : list (Vec2.t N) :=
  let cols := Nat.max 8 (match density with Some d => d | None => 120 end) in
  let rows := cols in
  let segsF := zeroContourSegments T (fun x y => System.f sys x y (System.params sys)) cols rows in
  let segsG := zeroContourSegments T (fun x y => System.g sys x y (System.params sys)) cols rows in
  let candidates := candidatesOf segsF segsG in
  let tol :=
    nmin ((Transform.xmax T - Transform.xmin T) / of_nat cols)
         ((Transform.ymax T - Transform.ymin T) / of_nat rows) * lit 0.75 in
  let uniq := dedup tol candidates [] in
  let step := tol * lit 0.5 in
  map (fun p => newtonPolish sys p step) uniq.

End EquilibriumSolver.

(** ** BoundsExpander *)

(** [Math.max], the one operation of the bounds expander that the
    interface above does not list. *)
Class NumberMax (N : Type) : Type := { nmax : N -> N -> N }.

(** [Math.max] in binary64: NaN if either argument is, and [+0] above
    [-0]. *)
Definition F64_max (a b : float) : float :=
  if (PrimFloat.is_nan a || PrimFloat.is_nan b)%bool then PrimFloat.nan
  else if PrimFloat.ltb a b then b
  else if PrimFloat.ltb b a then a
  else if PrimFloat.get_sign a then b else a.

#[export] Instance float_NumberMax : NumberMax float := { nmax := F64_max }.
#[export] Instance real_NumberMax : NumberMax R := { nmax := Rmax }.

Section BoundsExpander.
Context {N : Type} `{Number N} `{NumberMax N}.
Local Open Scope num_scope.

(** [factor] is the argument whose default is 3. *)
Definition expandedBoundsFromView (T : Transform.t N) (factor : N)
  : Transform.t N :=
  let cx := (Transform.xmin T + Transform.xmax T) / lit 2 in
  let cy := (Transform.ymin T + Transform.ymax T) / lit 2 in
  let hw := ((Transform.xmax T - Transform.xmin T) / lit 2) * factor in
  let hh := ((Transform.ymax T - Transform.ymin T) / lit 2) * factor in
  Transform.mk (cx - hw) (cx + hw) (cy - hh) (cy + hh).

Definition integrationBoundsFor (T : Transform.t N) (seed : Vec2.t N)
    (factor : N) : Transform.t N :=
  let b := expandedBoundsFromView T factor in
  Transform.mk (nmin (Transform.xmin b) (Vec2.x seed))
               (nmax (Transform.xmax b) (Vec2.x seed))
               (nmin (Transform.ymin b) (Vec2.y seed))
               (nmax (Transform.ymax b) (Vec2.y seed)).

End BoundsExpander.

(** ** The handlers of the application *)

Set Warnings "-abstract-large-number".

(** A stored trajectory of the application: [interface Trajectory]. *)
Module Trajectory.
Record t (N : Type) : Type := mk {
  seed : Vec2.t N;
  forward : list (Vec2.t N);
  backward : list (Vec2.t N)
}.
Arguments mk {N} _ _ _.
Arguments seed {N} _.
Arguments forward {N} _.
Arguments backward {N} _.
End Trajectory.

Section Handlers.
Context {N : Type} `{Number N} `{NumberMax N}.
Local Open Scope num_scope.

(** The state update of [onWheel]: [transform] is the view the handler
    closed over, [t] the current state handed to the updater, [rectLeft]
    .. [rectHeight] the canvas rectangle, and [clientX], [clientY],
    [deltaY] the fields of the event. *)
Definition onWheel (transform t : Transform.t N)
    (rectLeft rectTop rectWidth rectHeight clientX clientY deltaY : N)
  : Transform.t N :=
  let px := clientX - rectLeft in
  let py := clientY - rectTop in
  let world := Transform.toWorld transform rectWidth rectHeight (Vec2.mk px py) in
  let factor := if deltaY <? lit 0 then lit 1.1 else lit 1 / lit 1.1 in
  let nt := Transform.mk (Transform.xmin t) (Transform.xmax t)
                         (Transform.ymin t) (Transform.ymax t) in
  Transform.zoom nt (Vec2.x world) (Vec2.y world) factor.

(** [clientToWorld]. *)
Definition clientToWorld (transform : Transform.t N)
    (rectLeft rectTop rectWidth rectHeight clientX clientY : N) : Vec2.t N :=
  let px := clientX - rectLeft in
  let py := clientY - rectTop in
  Transform.toWorld transform rectWidth rectHeight (Vec2.mk px py).

(** The state update of [onMouseMove] while dragging; [lastX], [lastY]
    are [last.current]. *)
Definition onMouseMoveDrag (transform t : Transform.t N)
    (rectWidth rectHeight clientX clientY lastX lastY : N) : Transform.t N :=
  let dxPx := clientX - lastX in
  let dyPx := clientY - lastY in
  let dxWorld := (- dxPx / rectWidth)
                 * (Transform.xmax transform - Transform.xmin transform) in
  let dyWorld := (dyPx / rectHeight)
                 * (Transform.ymax transform - Transform.ymin transform) in
  let nt := Transform.mk (Transform.xmin t) (Transform.xmax t)
                         (Transform.ymin t) (Transform.ymax t) in
  Transform.pan nt dxWorld dyWorld.


End Handlers.

(** ** Dashed rendering of a polyline *)

(** [Math.round] with a number as its result. *)
Class NumberRound (N : Type) : Type := { nround : N -> N }.

(** [Math.round] in binary64.  A number with a non-negative exponent is
    an integer already; below, the rounded value is less than 2^53 in
    magnitude and so a binary64 number, and a zero result takes the sign
    of the argument. *)
Definition F64_roundNumber (v : float) : float :=
  match Prim2SF v with
  | S754_finite _ _ e =>
      if (0 <=? e)%Z then v
      else
        match F64.round v with
        | RInt z =>
            if (z =? 0)%Z then
              (if PrimFloat.get_sign v then (- 0)%float else 0%float)
            else if (z <? 0)%Z then
              PrimFloat.opp (PrimFloat.of_uint63 (Uint63.of_Z (- z)))
            else PrimFloat.of_uint63 (Uint63.of_Z z)
        | _ => v
        end
  | _ => v
  end.

#[export] Instance float_NumberRound : NumberRound float :=
  { nround := F64_roundNumber }.
#[export] Instance real_NumberRound : NumberRound R :=
  { nround := fun v => IZR (up (v + / 2) - 1) }.

(** One [beginPath(); moveTo(..); lineTo(..); stroke()] on the canvas. *)
Module Stroke.
Record t (N : Type) : Type := mk { moveTo : Vec2.t N; lineTo : Vec2.t N }.
Arguments mk {N} _ _.
Arguments moveTo {N} _.
Arguments lineTo {N} _.
End Stroke.

Inductive DashOrientation : Type := horizontal | vertical.

(** How a call ends: it returns, it throws a [TypeError] (a property of
    [undefined] is read), or the loop is still running when the fuel is
    spent. *)
Inductive Outcome (A : Type) : Type :=
| Returns (a : A)
| Throws
| OutOfFuel.
Arguments Returns {A} _.
Arguments Throws {A}.
Arguments OutOfFuel {A}.

Section Dashes.
Context {N : Type} `{Number N} `{NumberRound N}.
Local Open Scope num_scope.

(** The loop that fills [cum] from index 1 on: [prev] is [poly[i - 1]] and
    [acc] is [cum[i - 1]]. *)
Fixpoint cumLoop (prev : Vec2.t N) (acc : N) (rest : list (Vec2.t N)) : list N :=
  match rest with
  | [] => []
  | p :: rest' =>
      let dx := Vec2.x p - Vec2.x prev in
      let dy := Vec2.y p - Vec2.y prev in
      let c := acc + hypot dx dy in
      c :: cumLoop p c rest'
  end.

(** The array [cum] of cumulative lengths. *)
Definition cumOf (poly : list (Vec2.t N)) : list N :=
  match poly with
  | [] => [lit 0]
  | p0 :: rest => lit 0 :: cumLoop p0 (lit 0) rest
  end.

(** [while (i < cum.length && cum[i] < s) i++], on the entries of [cum]
    from index [i] on. *)
Fixpoint scanCum (rest : list N) (s : N) (i : nat) : nat :=
  match rest with
  | [] => i
  | c :: rest' => if c <? s then scanCum rest' s (S i) else i
  end.

(** The closure [pointAt] over [poly] and [cum].  The two arrays have the
    same length, so [cum[i0]] is read out of range exactly when [poly[i0]]
    is, and then [b.x] throws: [None]. *)
Definition pointAt (poly : list (Vec2.t N)) (cum : list N) (s : N)
  : option (Vec2.t N) :=
  let i := scanCum (skipn 1 cum) s 1 in
  let i0 := Nat.max 1 i in
  match nth_error cum i0, nth_error cum (i0 - 1),
        nth_error poly (i0 - 1), nth_error poly i0 with
  | Some ci, Some cp, Some a, Some b =>
      let segLen := ci - cp in
      let t := if segLen >? lit 0 then (s - cp) / segLen else lit 0.5 in
      Some (Vec2.mk (Vec2.x a + t * (Vec2.x b - Vec2.x a))
                    (Vec2.y a + t * (Vec2.y b - Vec2.y a)))
  | _, _, _, _ => None
  end.

(** The dash the source strokes around a centre, written out there once
    for the short polyline and once in the loop. *)
Definition dashStroke (dashOrientation : DashOrientation) (dashLen cx cy : N)
  : Stroke.t N :=
  match dashOrientation with
  | horizontal =>
      Stroke.mk (Vec2.mk (cx - dashLen / lit 2) cy)
                (Vec2.mk (cx + dashLen / lit 2) cy)
  | vertical =>
      Stroke.mk (Vec2.mk cx (cy - dashLen / lit 2))
                (Vec2.mk cx (cy + dashLen / lit 2))
  end.

(** [while (s < total) { .. s += step; }]; the strokes are listed in the
    order they are drawn. *)
Fixpoint dashLoop (fuel : nat) (poly : list (Vec2.t N)) (cum : list N)
    (dashOrientation : DashOrientation) (dashLen step total s : N)
  : Outcome (list (Stroke.t N)) :=
  match fuel with
  | O => OutOfFuel
  | S fuel' =>
      if s <? total then
        match pointAt poly cum s with
        | None => Throws
        | Some c =>
            let cx := nround (Vec2.x c) + lit 0.5 in
            let cy := nround (Vec2.y c) + lit 0.5 in
            match dashLoop fuel' poly cum dashOrientation dashLen step total
                           (s + step) with
            | Returns strokes =>
                Returns (dashStroke dashOrientation dashLen cx cy :: strokes)
            | Throws => Throws
            | OutOfFuel => OutOfFuel
            end
        end
      else Returns []
  end.

Definition dashPolylineByArclength (fuel : nat) (poly : list (Vec2.t N))
    (dashOrientation : DashOrientation) (dashLen gapLen : N)
  : Outcome (list (Stroke.t N)) :=
  match poly with
  | [] | [_] => Returns []
  | p :: _ =>
      let cum := cumOf poly in
      let total := last cum (lit 0) in
      if total <=? lit 1e-3 then
        Returns [dashStroke dashOrientation dashLen (Vec2.x p) (Vec2.y p)]
      else
        let step := dashLen + gapLen in
        dashLoop fuel poly cum dashOrientation dashLen step total
                 (dashLen / lit 2)
  end.

End Dashes.

(** ** The vocabulary of the specification *)

Section Vocabulary.
Context {N : Type} `{Number N}.
Local Open Scope num_scope.

(** The ViewRect invariant. *)
Definition validRect (T : Transform.t N) : Prop :=
  (Transform.xmin T <? Transform.xmax T) = true
  /\ (Transform.ymin T <? Transform.ymax T) = true.

(** [|a - b| <= tol]. *)
Definition closeTo (tol a b : N) : bool := nabs (a - b) <=? tol.

Definition boundsWithin (tol : N) (T U : Transform.t N) : Prop :=
  closeTo tol (Transform.xmin T) (Transform.xmin U) = true
  /\ closeTo tol (Transform.xmax T) (Transform.xmax U) = true
  /\ closeTo tol (Transform.ymin T) (Transform.ymin U) = true
  /\ closeTo tol (Transform.ymax T) (Transform.ymax U) = true.

(** [zoom(cx, cy, f)] followed by [zoom(cx, cy, 1 / f)]. *)
Definition zoomRoundTrip (T : Transform.t N) (cx cy f : N) : Transform.t N :=
  Transform.zoom (Transform.zoom T cx cy f) cx cy (lit 1 / f).

(** [pan(dx, dy)] followed by [pan(-dx, -dy)]. *)
Definition panRoundTrip (T : Transform.t N) (dx dy : N) : Transform.t N :=
  Transform.pan (Transform.pan T dx dy) (- dx) (- dy).

(** Zoom/pan invertibility as the specification words it. *)
Definition zoomPanInvertible (T : Transform.t N) (cx cy f dx dy : N) : Prop :=
  boundsWithin (lit 1e-9) (zoomRoundTrip T cx cy f) T
  /\ panRoundTrip T dx dy = T.

(** [toWorld(w, h, toScreen(w, h, p))]. *)
Definition screenRoundTrip (T : Transform.t N) (w h : N) (p : Vec2.t N) : Vec2.t N :=
  Transform.toWorld T w h (Transform.toScreen T w h p).

(** A point inside the closed rectangle. *)
Definition insideRect (T : Transform.t N) (p : Vec2.t N) : bool :=
  (Transform.xmin T <=? Vec2.x p) && (Vec2.x p <=? Transform.xmax T)
  && (Transform.ymin T <=? Vec2.y p) && (Vec2.y p <=? Transform.ymax T).

(** The sample the loop of [rk4] computes from the point [p]. *)
Definition stepPoint (sys : System.t N) (dt : N) (p : Vec2.t N) : Vec2.t N :=
  let '(x', y') := rk4Step sys dt (Vec2.x p) (Vec2.y p) in Vec2.mk x' y'.

(** A finite point inside the closed rectangle. *)
Definition acceptable (worldBounds : Transform.t N) (p : Vec2.t N) : bool :=
  isFinite (Vec2.x p) && isFinite (Vec2.y p) && insideRect worldBounds p.

(** *** The marching-squares table as the specification words it *)

(** The 4-bit code of a cell: one bit per corner, set when the corner
    value is positive, corners in the order bottom-left, bottom-right,
    top-right, top-left. *)
Definition specCode (bl br tr tl : N) : Z :=
  ((if (bl >? lit 0)%num then 1 else 0)
   + 2 * (if (br >? lit 0)%num then 1 else 0)
   + 4 * (if (tr >? lit 0)%num then 1 else 0)
   + 8 * (if (tl >? lit 0)%num then 1 else 0))%Z.

(** The pairs of edges joined for each code (0 = left, 1 = bottom,
    2 = right, 3 = top); codes 0 and 15 give none. *)
Definition specEdgePairs (c : Z) : list (nat * nat) :=
  if ((c =? 1) || (c =? 14))%Z then [(0, 1)]
  else if ((c =? 2) || (c =? 13))%Z then [(1, 2)]
  else if ((c =? 3) || (c =? 12))%Z then [(0, 2)]
  else if ((c =? 4) || (c =? 11))%Z then [(2, 3)]
  else if ((c =? 7) || (c =? 8))%Z then [(0, 3)]
  else if ((c =? 6) || (c =? 9))%Z then [(1, 3)]
  else if (c =? 5)%Z then [(0, 1); (2, 3)]
  else if (c =? 10)%Z then [(0, 2); (1, 3)]
  else [].

(** The two corners an edge joins, each with its value: the left edge
    runs from bottom-left to top-left, the bottom edge from bottom-left to
    bottom-right, the right edge from bottom-right to top-right, the top
    edge from top-left to top-right. *)
Definition specEdgeCorners (x0 x1 y0 y1 bl br tr tl : N) (edge : nat)
  : (N * N * N) * (N * N * N) :=
  match edge with
  | 0 => ((x0, y0, bl), (x0, y1, tl))
  | 1 => ((x0, y0, bl), (x1, y0, br))
  | 2 => ((x1, y0, br), (x1, y1, tr))
  | _ => ((x0, y1, tl), (x1, y1, tr))
  end.

(** The point of an edge: linear interpolation with [t = v1 / (v1 - v2)]
    between its two corners. *)
Definition specEdgePoint (x0 x1 y0 y1 bl br tr tl : N) (edge : nat) : Vec2.t N :=
  let '((xa, ya, va), (xb, yb, vb)) :=
    specEdgeCorners x0 x1 y0 y1 bl br tr tl edge in
  let t := va / (va - vb) in
  Vec2.mk (xa + t * (xb - xa)) (ya + t * (yb - ya)).

(** The adjusted sample at grid node [(i, j)]. *)
Definition sampleAt (T : Transform.t N) (field : ScalarField) (cols rows : nat)
    (j i : nat) : N :=
  let dx := (Transform.xmax T - Transform.xmin T) / of_nat cols in
  let dy := (Transform.ymax T - Transform.ymin T) / of_nat rows in
  signedEps (field (Transform.xmin T + of_nat i * dx)
                   (Transform.ymin T + of_nat j * dy)).

(** The segments of the cell [(i, j)] by the table. *)
Definition specCell (T : Transform.t N) (field : ScalarField) (cols rows : nat)
    (j i : nat) : list (Seg.t N) :=
  let dx := (Transform.xmax T - Transform.xmin T) / of_nat cols in
  let dy := (Transform.ymax T - Transform.ymin T) / of_nat rows in
  let x0 := Transform.xmin T + of_nat i * dx in
  let x1 := x0 + dx in
  let y0 := Transform.ymin T + of_nat j * dy in
  let y1 := y0 + dy in
  let bl := sampleAt T field cols rows j i in
  let br := sampleAt T field cols rows j (i + 1) in
  let tr := sampleAt T field cols rows (j + 1) (i + 1) in
  let tl := sampleAt T field cols rows (j + 1) i in
  map (fun e => Seg.mk (specEdgePoint x0 x1 y0 y1 bl br tr tl (fst e))
                       (specEdgePoint x0 x1 y0 y1 bl br tr tl (snd e)))
      (specEdgePairs (specCode bl br tr tl)).

End Vocabulary.

(** The replacement of small samples as the specification words it, in
    binary64: below [1e-15] in magnitude, a positive value becomes
    [+1e-15], a negative one [-1e-15], and zero counts as positive; any
    other value is kept. *)
Definition signedEpsSpec (v : float) : float :=
  if PrimFloat.ltb (PrimFloat.abs v) 1e-15 then
    if PrimFloat.ltb 0 v then 1e-15%float
    else if PrimFloat.ltb v 0 then (- 1e-15)%float
    else 1e-15%float
  else v.

(** Two corner values of strictly opposite sign, in exact arithmetic. *)
Definition crossing (va vb : R) : Prop :=
  (0 < va /\ vb < 0)%R \/ (va < 0 /\ 0 < vb)%R.

(** The interpolation parameter [t = v1 / (v1 - v2)] of an edge of a cell
    with the given corner values. *)
Definition specEdgeParam (bl br tr tl : R) (edge : nat) : R :=
  let '((_, _, va), (_, _, vb)) :=
    specEdgeCorners 0%R 0%R 0%R 0%R bl br tr tl edge in
  (va / (va - vb))%R.

(** The corner values of an edge are of strictly opposite sign. *)
Definition edgeCrosses (bl br tr tl : R) (edge : nat) : Prop :=
  let '((_, _, va), (_, _, vb)) :=
    specEdgeCorners 0%R 0%R 0%R 0%R bl br tr tl edge in
  crossing va vb.

(** Both endpoints of every segment lie in the closed rectangle. *)
Definition endpointsInside {N : Type} `{Number N} (T : Transform.t N)
    (segs : list (Seg.t N)) : Prop :=
  Forall (fun s => insideRect T (Seg.a s) = true
                   /\ insideRect T (Seg.b s) = true) segs.

(** *** Systems and views used as examples *)

(** The rectangle [[0.1, 1.1] x [0.1, 1.1]] and the default view
    [[-10, 10] x [-10, 10]] of the application, in binary64. *)
Definition unitView : Transform.t float :=
  (Transform.mk 0.1 1.1 0.1 1.1)%float.
Definition defaultView : Transform.t float :=
  (Transform.mk (-10) 10 (-10) 10)%float.

(** The system [dx/dt = x], [dy/dt = y], in binary64. *)
Definition radialSystem : System.t float :=
  System.mk (fun x y _ => x) (fun x y _ => y) [].

(** The system [f = x^2 + y^2 - 1], [g = x - y], whose equilibria are
    [(+-0.7071.., +-0.7071..)], and the view [[-2, 2]^2], in binary64. *)
Definition circleLineSystem : System.t float :=
  System.mk (fun x y _ => x * x + y * y - 1)%float (fun x y _ => x - y)%float [].
Definition smallView : Transform.t float := (Transform.mk (-2) 2 (-2) 2)%float.

(** *** Predicates on bounds, samples and grids *)

(** Bounds that are numbers. *)
Definition boundsNotNaN (wb : Transform.t float) : Prop :=
  PrimFloat.is_nan (Transform.xmin wb) = false
  /\ PrimFloat.is_nan (Transform.xmax wb) = false
  /\ PrimFloat.is_nan (Transform.ymin wb) = false
  /\ PrimFloat.is_nan (Transform.ymax wb) = false.

(** The degree-4 Taylor polynomial of the exponential. *)
Definition taylor4 (z : R) : R :=
  (1 + z + z * z / 2 + z * z * z / 6 + z * z * z * z / 24)%R.

(** The coordinates of the grid nodes at which the field is sampled. *)
Definition nodeX {N : Type} `{Number N} (T : Transform.t N) (cols i : nat) : N :=
  nadd (Transform.xmin T)
       (nmul (of_nat i) (ndiv (nsub (Transform.xmax T) (Transform.xmin T))
                              (of_nat cols))).
Definition nodeY {N : Type} `{Number N} (T : Transform.t N) (rows j : nat) : N :=
  nadd (Transform.ymin T)
       (nmul (of_nat j) (ndiv (nsub (Transform.ymax T) (Transform.ymin T))
                              (of_nat rows))).

(** A field that is nowhere negative, respectively everywhere negative,
    at the nodes of the grid (binary64). *)
Definition nonNegativeOnGrid (T : Transform.t float) (field : ScalarField)
    (cols rows : nat) : Prop :=
  forall j i, j <= rows -> i <= cols ->
    PrimFloat.leb 0 (field (nodeX T cols i) (nodeY T rows j)) = true.
Definition negativeOnGrid (T : Transform.t float) (field : ScalarField)
    (cols rows : nat) : Prop :=
  forall j i, j <= rows -> i <= cols ->
    PrimFloat.ltb (field (nodeX T cols i) (nodeY T rows j)) 0 = true.

(** *** Predicates on the stitcher and on the deduplication *)

(** Every index stored in the map is an index of a segment. *)
Definition adjBounded (n : nat) (adj : Adj) : Prop :=
  Forall (fun kl => Forall (fun idx => idx < n) (snd kl)) adj.

(** The bookkeeping of the loops: [used] marks exactly the indices
    recorded so far, each once. *)
Definition consistent (n : nat) (used : list bool) (consumed : list nat) : Prop :=
  length used = n
  /\ NoDup consumed
  /\ (forall j, nth j used false = true <-> In j consumed).

Section StructuralVocabulary.
Context {N : Type} `{Number N}.

(** The points of a chain are endpoints of the segments recorded for it. *)
Definition chainFrom (segs : list (Seg.t N)) (chain : list (Vec2.t N))
    (trace : list nat) : Prop :=
  Forall (fun p => exists idx s,
              In idx trace /\ nth_error segs idx = Some s
              /\ (p = Seg.a s \/ p = Seg.b s)) chain.

(** How a chain may grow: by one point, at either end. *)
Definition growsByOne (grow : list (Vec2.t N) -> Vec2.t N -> list (Vec2.t N)) : Prop :=
  forall chain next,
    length (grow chain next) = S (length chain)
    /\ (forall P : Vec2.t N -> Prop,
          Forall P chain -> P next -> Forall P (grow chain next)).

(** What is known of a finished chain. *)
Definition chainOk (segs : list (Seg.t N)) (ct : list (Vec2.t N) * list nat) : Prop :=
  length (fst ct) = S (length (snd ct)) /\ chainFrom segs (fst ct) (snd ct).

(** Two points with the same adjacency key. *)
Definition sameKey (p q : Vec2.t N) : Prop := Key_eqb (key p) (key q) = true.

(** [p] and [q] are joined by an input segment: one of them is an
    endpoint of the segment, and the other has the key of the segment's
    other endpoint. *)
Definition linked (segs : list (Seg.t N)) (p q : Vec2.t N) : Prop :=
  exists s, In s segs
            /\ ((sameKey (Seg.a s) p /\ q = Seg.b s)
                \/ (sameKey (Seg.b s) p /\ q = Seg.a s)
                \/ (p = Seg.b s /\ sameKey (Seg.a s) q)
                \/ (p = Seg.a s /\ sameKey (Seg.b s) q)).

(** Every two consecutive points of a chain are joined by a segment. *)
Fixpoint linkedChain (segs : list (Seg.t N)) (chain : list (Vec2.t N)) : Prop :=
  match chain with
  | [] => True
  | p :: rest =>
      match rest with
      | [] => True
      | q :: _ => linked segs p q /\ linkedChain segs rest
      end
  end.

(** The test of the inner loop of the deduplication: [p] is within [tol]
    of [q]. *)
Definition within (tol : N) (p q : Vec2.t N) : bool :=
  nleb (hypot (nsub (Vec2.x p) (Vec2.x q)) (nsub (Vec2.y p) (Vec2.y q))) tol.

End StructuralVocabulary.

(** *** Predicates on polylines *)

(** No two consecutive points of the polyline coincide. *)
Fixpoint noRepeatedPoint (poly : list (Vec2.t R)) : Prop :=
  match poly with
  | [] => True
  | p :: rest =>
      match rest with
      | [] => True
      | q :: _ => p <> q /\ noRepeatedPoint rest
      end
  end.

(** * Properties *)

(** ** Facts about the two readings of [number] *)

Lemma Exact_ltb_true (a b : R) : Exact.ltb a b = true <-> (a < b)%R.
Proof. unfold Exact.ltb. destruct (Rlt_dec a b); intuition discriminate. Qed.

Lemma Exact_ltb_false (a b : R) : Exact.ltb a b = false <-> (b <= a)%R.
Proof.
  unfold Exact.ltb. destruct (Rlt_dec a b) as [Hlt | Hnlt].
  - split; [discriminate | lra].
  - split; [lra | reflexivity].
Qed.

Lemma Exact_leb_true (a b : R) : Exact.leb a b = true <-> (a <= b)%R.
Proof. unfold Exact.leb. destruct (Rle_dec a b); intuition discriminate. Qed.

Lemma Exact_leb_false (a b : R) : Exact.leb a b = false <-> (b < a)%R.
Proof.
  unfold Exact.leb. destruct (Rle_dec a b) as [Hle | Hnle].
  - split; [discriminate | lra].
  - split; [lra | reflexivity].
Qed.

(** A literal that is a positive finite binary64 value is a positive real. *)
Lemma Exact_of_float_pos (c : float) (m : positive) (e : Z) :
  Prim2SF c = S754_finite false m e -> (0 < Exact.of_float c)%R.
Proof.
  intros E. unfold Exact.of_float. rewrite E.
  assert (0 < powerRZ 2 e)%R by (apply powerRZ_lt; lra).
  assert (0 < IZR (Z.pos m))%R by (apply IZR_lt; lia).
  nra.
Qed.

Lemma Exact_of_float_0 : Exact.of_float 0 = 0%R.
Proof. reflexivity. Qed.

Lemma Exact_of_float_1 : Exact.of_float 1 = 1%R.
Proof.
  unfold Exact.of_float.
  replace (Prim2SF 1) with (S754_finite false 4503599627370496 (-52))
    by (vm_compute; reflexivity).
  cbn [powerRZ]. rewrite pow_IZR, positive_nat_Z.
  change (2 ^ 52)%Z with 4503599627370496%Z. lra.
Qed.

Lemma Exact_lit_1em9_pos : (0 < Exact.of_float 1e-9)%R.
Proof. eapply Exact_of_float_pos. vm_compute. reflexivity. Qed.

Lemma Exact_lit_1em15_pos : (0 < Exact.of_float 1e-15)%R.
Proof. eapply Exact_of_float_pos. vm_compute. reflexivity. Qed.

Lemma Exact_lit_1em20_pos : (0 < Exact.of_float 1e-20)%R.
Proof. eapply Exact_of_float_pos. vm_compute. reflexivity. Qed.

Lemma Exact_closeTo_refl (tol a : R) : (0 <= tol)%R -> closeTo tol a a = true.
Proof.
  intros Htol. unfold closeTo. cbn. apply Exact_leb_true.
  replace (a - a)%R with 0%R by lra. rewrite Rabs_R0. exact Htol.
Qed.

(** ** ViewTransform *)

(** In binary64 a zoom round trip can miss the original bounds by more than
    [1e-9]: on [[-1e7, 1e7]^2], about [(1, 1)], by factor [3]. *)
Lemma zoom_round_trip_exceeds_tolerance_binary64 :
  let T : Transform.t float := (Transform.mk (-1e7) 1e7 (-1e7) 1e7)%float in
  validRect T
  /\ PrimFloat.ltb 0 3 = true
  /\ closeTo 1e-9%float (Transform.xmin (zoomRoundTrip T 1%float 1%float 3%float))
             (Transform.xmin T) = false.
Proof. vm_compute. repeat split. Qed.

(** C5, as worded, fails on the program: in binary64, panning
    [[0.1, 1.1]^2] by [(0.2, 0.2)] and back leaves [xmin] at
    [0.10000000000000003]. *)
Lemma C5_counterexample_pan_binary64 :
  validRect unitView
  /\ PrimFloat.ltb 0 2 = true
  /\ Transform.xmin (panRoundTrip unitView 0.2%float 0.2%float)
     = 0.10000000000000003%float
  /\ ~ zoomPanInvertible unitView 0%float 0%float 2%float 0.2%float 0.2%float.
Proof.
  split; [vm_compute; split; reflexivity |].
  split; [reflexivity |].
  split; [vm_compute; reflexivity |].
  intros [_ Hpan].
  apply (f_equal (fun T => PrimFloat.eqb (Transform.xmin T) 0.1%float)) in Hpan.
  vm_compute in Hpan. discriminate Hpan.
Qed.

(** C5, amended: in exact real arithmetic, for every rectangle with
    [xmin < xmax] and [ymin < ymax], every centre and every factor [f > 0],
    [zoom(cx, cy, f)] then [zoom(cx, cy, 1 / f)] restores the four bounds
    exactly (so within [1e-9]), and [pan(dx, dy)] then [pan(-dx, -dy)]
    restores them exactly. *)
Theorem C5_zoom_pan_invertible_exact
    (T : Transform.t R) (cx cy f dx dy : R) :
  (Transform.xmin T < Transform.xmax T)%R ->
  (Transform.ymin T < Transform.ymax T)%R ->
  (0 < f)%R ->
  zoomRoundTrip T cx cy f = T
  /\ panRoundTrip T dx dy = T
  /\ zoomPanInvertible T cx cy f dx dy.
Proof.
  intros Hx Hy Hf.
  assert (Hzoom : zoomRoundTrip T cx cy f = T).
  { destruct T as [x0 x1 y0 y1]. unfold zoomRoundTrip.
    change (lit 1) with (Exact.of_float 1). rewrite Exact_of_float_1.
    unfold Transform.zoom. cbn in *. f_equal; field; lra. }
  assert (Hpan : panRoundTrip T dx dy = T).
  { destruct T as [x0 x1 y0 y1]. unfold panRoundTrip, Transform.pan.
    cbn. f_equal; lra. }
  split; [exact Hzoom |]. split; [exact Hpan |].
  split; [| exact Hpan].
  rewrite Hzoom.
  repeat split; apply Exact_closeTo_refl; apply Rlt_le, Exact_lit_1em9_pos.
Qed.

Lemma C5_witness :
  zoomRoundTrip (Transform.mk 0 1 0 1)%R 0%R 0%R 2%R = Transform.mk 0%R 1%R 0%R 1%R
  /\ panRoundTrip (Transform.mk 0 1 0 1)%R 1%R 1%R = Transform.mk 0%R 1%R 0%R 1%R
  /\ zoomPanInvertible (Transform.mk 0 1 0 1)%R 0%R 0%R 2%R 1%R 1%R.
Proof.
  apply (C5_zoom_pan_invertible_exact (Transform.mk 0 1 0 1) 0 0 2 1 1)%R;
    cbn; lra.
Defined.

(** C7, as worded, fails on the program: in binary64, on the default view
    with an 800 by 600 surface, the point [(0.1, 0.1)] comes back as
    [(0.099999999999999645, 0.099999999999999645)]. *)
Lemma C7_counterexample_binary64 :
  validRect defaultView
  /\ PrimFloat.ltb 0 800 = true
  /\ PrimFloat.ltb 0 600 = true
  /\ screenRoundTrip defaultView 800%float 600%float (Vec2.mk 0.1 0.1)%float
     = (Vec2.mk 0.099999999999999645 0.099999999999999645)%float
  /\ screenRoundTrip defaultView 800%float 600%float (Vec2.mk 0.1 0.1)%float
     <> (Vec2.mk 0.1 0.1)%float.
Proof.
  split; [vm_compute; split; reflexivity |].
  do 2 (split; [reflexivity |]).
  split; [vm_compute; reflexivity |].
  intros Heq.
  apply (f_equal (fun p => PrimFloat.eqb (Vec2.x p) 0.1%float)) in Heq.
  vm_compute in Heq. discriminate Heq.
Qed.

(** C7, amended: [toScreen] computes
    [sx = (p.x - xmin) / (xmax - xmin) * w] and
    [sy = h - (p.y - ymin) / (ymax - ymin) * h], and in exact real
    arithmetic, for [w > 0], [h > 0], [xmin < xmax] and [ymin < ymax],
    [toWorld(w, h, toScreen(w, h, p))] is [p]. *)
Theorem C7_toWorld_inverts_toScreen_exact
    (T : Transform.t R) (w h : R) (p : Vec2.t R) :
  (0 < w)%R -> (0 < h)%R ->
  (Transform.xmin T < Transform.xmax T)%R ->
  (Transform.ymin T < Transform.ymax T)%R ->
  Transform.toScreen T w h p
  = Vec2.mk ((Vec2.x p - Transform.xmin T) / (Transform.xmax T - Transform.xmin T) * w)%R
            (h - (Vec2.y p - Transform.ymin T) / (Transform.ymax T - Transform.ymin T) * h)%R
  /\ screenRoundTrip T w h p = p.
Proof.
  intros Hw Hh Hx Hy. split; [reflexivity |].
  destruct T as [x0 x1 y0 y1], p as [px py].
  unfold screenRoundTrip, Transform.toWorld, Transform.toScreen. cbn in *.
  f_equal; field; lra.
Qed.

Lemma C7_witness :
  Transform.toScreen (Transform.mk 0 4 0 2)%R 8%R 6%R (Vec2.mk 1 1)%R
  = Vec2.mk ((1 - 0) / (4 - 0) * 8)%R (6 - (1 - 0) / (2 - 0) * 6)%R
  /\ screenRoundTrip (Transform.mk 0 4 0 2)%R 8%R 6%R (Vec2.mk 1 1)%R
     = Vec2.mk 1%R 1%R.
Proof.
  apply (C7_toWorld_inverts_toScreen_exact (Transform.mk 0 4 0 2) 8 6 (Vec2.mk 1 1))%R;
    cbn; lra.
Defined.

(** In binary64 a zoom by a positive factor can also collapse the
    rectangle: the default view about [(1, 1)] by factor [1e300]. *)
Lemma zoom_collapses_rectangle_binary64 :
  validRect defaultView
  /\ PrimFloat.ltb 0 1e300 = true
  /\ Transform.zoom defaultView 1%float 1%float 1e300%float
     = (Transform.mk 1 1 1 1)%float.
Proof. vm_compute. repeat split. Qed.

(** C8, as worded, fails on the program: in binary64, panning
    [[0, 1]^2] by the finite [dx = 1e17] gives [xmin = xmax = 1e17]. *)
Lemma C8_counterexample_pan_binary64 :
  let T : Transform.t float := (Transform.mk 0 1 0 1)%float in
  validRect T
  /\ PrimFloat.is_finite 1e17 = true
  /\ PrimFloat.is_finite 0 = true
  /\ Transform.pan T 1e17%float 0%float = (Transform.mk 1e17 1e17 0 1)%float
  /\ ~ validRect (Transform.pan T 1e17%float 0%float).
Proof.
  cbv zeta.
  split; [vm_compute; split; reflexivity |].
  do 2 (split; [reflexivity |]).
  split; [vm_compute; reflexivity |].
  intros [Hx _]. vm_compute in Hx. discriminate Hx.
Qed.

(** C8, amended: in exact real arithmetic, a rectangle with [xmin < xmax]
    and [ymin < ymax] keeps both after [pan(dx, dy)] for every [dx], [dy],
    and after [zoom(cx, cy, factor)] for every [factor > 0]. *)
Theorem C8_invariant_preserved_exact
    (T : Transform.t R) (dx dy cx cy factor : R) :
  validRect T ->
  (0 < factor)%R ->
  validRect (Transform.pan T dx dy)
  /\ validRect (Transform.zoom T cx cy factor).
Proof.
  intros [Hx Hy] Hf. destruct T as [x0 x1 y0 y1].
  unfold validRect, Transform.pan, Transform.zoom in *. cbn in *.
  apply Exact_ltb_true in Hx. apply Exact_ltb_true in Hy.
  assert (Hdx : (0 < (x1 - x0) / factor)%R) by (apply Rdiv_lt_0_compat; lra).
  assert (Hdy : (0 < (y1 - y0) / factor)%R) by (apply Rdiv_lt_0_compat; lra).
  repeat split; apply Exact_ltb_true; lra.
Qed.

Lemma C8_witness :
  validRect (Transform.pan (Transform.mk 0 1 0 1) 5 (-3))%R
  /\ validRect (Transform.zoom (Transform.mk 0 1 0 1) 0 0 2)%R.
Proof.
  apply (C8_invariant_preserved_exact (Transform.mk 0 1 0 1) 5 (-3) 0 0 2)%R.
  - split; apply Exact_ltb_true; cbn; lra.
  - lra.
Defined.

(** ** Order facts of binary64 *)

Lemma SFcompare_antisym (x y : spec_float) :
  SFcompare y x = option_map CompOpp (SFcompare x y).
Proof.
  destruct x as [sx | sx | | sx mx ex], y as [sy | sy | | sy my ey];
    cbn; try reflexivity;
    try (destruct sx; reflexivity); try (destruct sy; reflexivity);
    try (destruct sx, sy; reflexivity).
  pose proof (Pos.compare_cont_antisym mx my Eq) as Em. cbn in Em.
  destruct sx, sy; cbn; try reflexivity;
    rewrite (Z.compare_antisym ex ey);
    destruct (ex ?= ey)%Z; cbn; try reflexivity;
    rewrite <- Em; destruct (Pos.compare_cont Eq mx my); reflexivity.
Qed.

Lemma float_is_nan_false (a : float) :
  PrimFloat.is_nan a = false -> SFcompare (Prim2SF a) (Prim2SF a) = Some Eq.
Proof.
  unfold PrimFloat.is_nan. rewrite FloatAxioms.eqb_spec. unfold SFeqb.
  destruct (SFcompare (Prim2SF a) (Prim2SF a)) as [[| |] |]; cbn; congruence.
Qed.

Lemma SFcompare_defined (x y : spec_float) :
  SFcompare x x = Some Eq -> SFcompare y y = Some Eq ->
  exists c, SFcompare x y = Some c.
Proof.
  destruct x as [sx | sx | | sx mx ex], y as [sy | sy | | sy my ey];
    cbn; intros Hx Hy; try discriminate; eauto.
Qed.

Lemma float_ltb_leb (a b : float) :
  PrimFloat.ltb a b = true -> PrimFloat.leb a b = true.
Proof.
  rewrite FloatAxioms.ltb_spec, FloatAxioms.leb_spec. unfold SFltb, SFleb.
  destruct (SFcompare (Prim2SF a) (Prim2SF b)) as [[| |] |]; congruence.
Qed.

Lemma float_ltb_not_geb (a b : float) :
  PrimFloat.ltb a b = true -> PrimFloat.leb b a = false.
Proof.
  rewrite FloatAxioms.ltb_spec, FloatAxioms.leb_spec. unfold SFltb, SFleb.
  rewrite (SFcompare_antisym (Prim2SF a) (Prim2SF b)).
  destruct (SFcompare (Prim2SF a) (Prim2SF b)) as [[| |] |]; cbn; congruence.
Qed.

Lemma float_eqb_geb (a b : float) :
  PrimFloat.eqb a b = true -> PrimFloat.leb b a = true.
Proof.
  rewrite FloatAxioms.eqb_spec, FloatAxioms.leb_spec. unfold SFeqb, SFleb.
  rewrite (SFcompare_antisym (Prim2SF a) (Prim2SF b)).
  destruct (SFcompare (Prim2SF a) (Prim2SF b)) as [[| |] |]; cbn; congruence.
Qed.

Lemma float_leb_not_gtb (a b : float) :
  PrimFloat.leb a b = true -> PrimFloat.ltb b a = false.
Proof.
  rewrite FloatAxioms.ltb_spec, FloatAxioms.leb_spec. unfold SFltb, SFleb.
  rewrite (SFcompare_antisym (Prim2SF a) (Prim2SF b)).
  destruct (SFcompare (Prim2SF a) (Prim2SF b)) as [[| |] |]; cbn; congruence.
Qed.

Lemma float_not_ltb_geb (a b : float) :
  PrimFloat.is_nan a = false -> PrimFloat.is_nan b = false ->
  PrimFloat.ltb a b = false -> PrimFloat.leb b a = true.
Proof.
  intros Ha Hb. apply float_is_nan_false in Ha, Hb.
  destruct (SFcompare_defined _ _ Ha Hb) as [c Hc].
  rewrite FloatAxioms.ltb_spec, FloatAxioms.leb_spec. unfold SFltb, SFleb.
  rewrite (SFcompare_antisym (Prim2SF a) (Prim2SF b)), Hc.
  destruct c; cbn; congruence.
Qed.

Lemma float_is_finite_not_nan (a : float) :
  PrimFloat.is_finite a = true -> PrimFloat.is_nan a = false.
Proof.
  unfold PrimFloat.is_finite. destruct (PrimFloat.is_nan a); cbn; congruence.
Qed.

(** ** Integrator *)

Lemma last_cons_default {A : Type} (l : list A) (a d d' : A) :
  last (d :: a :: l) d = last (a :: l) d'.
Proof.
  change (last (d :: a :: l) d) with (last (a :: l) d).
  revert a. induction l as [| b l IH]; intros a; [reflexivity |].
  change (last (b :: l) d = last (b :: l) d'). apply IH.
Qed.

Section IntegratorFacts.
Context {N : Type} `{Number N}.

(** Points already pushed are never touched again. *)
Lemma rk4Loop_app (n : nat) (sys : System.t N) (dt : N) (wb : Transform.t N)
    (x y : N) (pre pts : list (Vec2.t N)) :
  rk4Loop n sys dt wb x y (pre ++ pts) = pre ++ rk4Loop n sys dt wb x y pts.
Proof.
  revert x y pts. induction n as [| n IH]; intros x y pts; cbn [rk4Loop].
  - reflexivity.
  - destruct (rk4Step sys dt x y) as [x' y'].
    destruct (leavesBounds wb x' y').
    + reflexivity.
    + rewrite <- app_assoc. apply IH.
Qed.

(** One turn of the loop: the start point is pushed before any test, and
    the test is on the sample computed from it. *)
Lemma rk4_unfold (sys : System.t N) (p0 : Vec2.t N) (dt : N) (n : nat)
    (wb : Transform.t N) :
  rk4 sys p0 dt (S n) wb
  = p0 :: (let q := stepPoint sys dt p0 in
           if leavesBounds wb (Vec2.x q) (Vec2.y q) then []
           else rk4 sys q dt n wb).
Proof.
  unfold rk4, stepPoint. cbn [rk4Loop].
  destruct (rk4Step sys dt (Vec2.x p0) (Vec2.y p0)) as [x' y']. cbn.
  destruct (leavesBounds wb x' y').
  - reflexivity.
  - apply (rk4Loop_app n sys dt wb x' y' [p0] [Vec2.mk x' y']).
Qed.

Lemma rk4_zero (sys : System.t N) (p0 : Vec2.t N) (dt : N) (wb : Transform.t N) :
  rk4 sys p0 dt 0 wb = [p0].
Proof. reflexivity. Qed.

Lemma rk4_head (sys : System.t N) (p0 : Vec2.t N) (dt : N) (n : nat)
    (wb : Transform.t N) :
  exists rest, rk4 sys p0 dt n wb = p0 :: rest.
Proof.
  destruct n as [| n].
  - exists []. reflexivity.
  - rewrite rk4_unfold. eexists. reflexivity.
Qed.

Lemma rk4_length (sys : System.t N) (p0 : Vec2.t N) (dt : N) (n : nat)
    (wb : Transform.t N) :
  length (rk4 sys p0 dt n wb) <= n + 1.
Proof.
  revert p0. induction n as [| n IH]; intros p0.
  - cbn. lia.
  - rewrite rk4_unfold. cbn zeta.
    destruct (leavesBounds wb _ _); cbn [length].
    + lia.
    + specialize (IH (stepPoint sys dt p0)). lia.
Qed.

(** What the returned sequence is: every point after the first is the
    sample computed from its predecessor and passed the test, and a
    sequence shorter than [steps + 1] ends where the next sample failed
    it. *)
Lemma rk4_chain (sys : System.t N) (dt : N) (wb : Transform.t N) (n : nat)
    (p0 : Vec2.t N) :
  let pts := rk4 sys p0 dt n wb in
  (forall i p q, nth_error pts i = Some p -> nth_error pts (S i) = Some q ->
     q = stepPoint sys dt p
     /\ leavesBounds wb (Vec2.x q) (Vec2.y q) = false)
  /\ (length pts < S n ->
      let q := stepPoint sys dt (last pts p0) in
      leavesBounds wb (Vec2.x q) (Vec2.y q) = true).
Proof.
  revert p0. induction n as [| n IH]; intros p0.
  - cbn. split.
    + intros i p q _ Hq. destruct i; discriminate Hq.
    + lia.
  - cbv zeta. rewrite rk4_unfold. cbv zeta.
    destruct (leavesBounds wb (Vec2.x (stepPoint sys dt p0))
                (Vec2.y (stepPoint sys dt p0))) eqn:Hleave.
    + split.
      * intros i p q _ Hq. destruct i; discriminate Hq.
      * intros _. cbn. exact Hleave.
    + destruct (IH (stepPoint sys dt p0)) as [IHchain IHend].
      destruct (rk4_head sys (stepPoint sys dt p0) dt n wb) as [rest Hrest].
      split.
      * intros i p q Hp Hq. destruct i as [| i].
        -- cbn [nth_error] in Hp, Hq. injection Hp as <-.
           rewrite Hrest in Hq. cbn [nth_error] in Hq. injection Hq as <-.
           split; [reflexivity | exact Hleave].
        -- cbn [nth_error] in Hp, Hq. exact (IHchain i p q Hp Hq).
      * intros Hlen. cbn [length] in Hlen.
        assert (Hlast : last (p0 :: rk4 sys (stepPoint sys dt p0) dt n wb) p0
                        = last (rk4 sys (stepPoint sys dt p0) dt n wb)
                               (stepPoint sys dt p0)).
        { rewrite Hrest. apply (last_cons_default rest). }
        rewrite Hlast. apply IHend. lia.
Qed.

End IntegratorFacts.

(** C9: [rk4] never validates its start point.  For every input (in
    either reading of [number]) the result is [p0] followed by some rest,
    so it is non-empty and starts with [p0], whatever [p0] is; it has at
    most [steps + 1] points; the only test of a turn is on the sample
    computed from the current point, so that from any [p0] the result of
    [steps + 1] turns is [p0] followed by the run from that sample when it
    passes the test; and both sequences of [integrateBidirectional] begin
    with the seed. *)
Theorem C9_rk4_start_point_unchecked {N : Type} `{Number N}
    (sys : System.t N) (p0 seed : Vec2.t N) (dt : N) (steps : nat)
    (wb : Transform.t N) :
  (exists rest, rk4 sys p0 dt steps wb = p0 :: rest)
  /\ length (rk4 sys p0 dt steps wb) <= steps + 1
  /\ rk4 sys p0 dt (S steps) wb
     = p0 :: (let q := stepPoint sys dt p0 in
              if leavesBounds wb (Vec2.x q) (Vec2.y q) then []
              else rk4 sys q dt steps wb)
  /\ hd_error (fst (integrateBidirectional sys seed dt steps wb)) = Some seed
  /\ hd_error (snd (integrateBidirectional sys seed dt steps wb)) = Some seed.
Proof.
  split; [apply rk4_head |].
  split; [apply rk4_length |].
  split; [apply rk4_unfold |].
  unfold integrateBidirectional. cbn [fst snd].
  destruct (rk4_head sys seed dt steps wb) as [r1 ->].
  destruct (rk4_head sys seed (nopp dt) steps wb) as [r2 ->].
  split; reflexivity.
Qed.

(** An illustration of C9 in binary64: from [(5, 5)], outside
    [[0, 4.6]^2], integrating backwards proceeds into the rectangle. *)
Lemma rk4_proceeds_from_outside_binary64 :
  let wb : Transform.t float := (Transform.mk 0 4.6 0 4.6)%float in
  let p0 : Vec2.t float := (Vec2.mk 5 5)%float in
  acceptable wb p0 = false
  /\ rk4 radialSystem p0 (-0.1)%float 2 wb
     = [ p0; (Vec2.mk 4.5241875 4.5241875)%float;
         (Vec2.mk 4.0936545070312498 4.0936545070312498)%float ].
Proof. vm_compute. split; reflexivity. Qed.

(** C1, as worded, fails on the program: from [p0 = (5, 5)] with bounds
    [[0, 1]^2] the result is [[p0]], and [p0] is outside the bounds. *)
Lemma C1_counterexample_start_outside_binary64 :
  let wb : Transform.t float := (Transform.mk 0 1 0 1)%float in
  let p0 : Vec2.t float := (Vec2.mk 5 5)%float in
  rk4 radialSystem p0 0.1%float 3 wb = [p0]
  /\ ~ Forall (fun p => acceptable wb p = true)
              (rk4 radialSystem p0 0.1%float 3 wb).
Proof.
  cbv zeta. split; [vm_compute; reflexivity |].
  intros Hall. apply Forall_inv in Hall. vm_compute in Hall. discriminate Hall.
Qed.

(** With bounds that are numbers, the condition of the [break] is the
    negation of "finite and inside the closed rectangle". *)
Lemma leavesBounds_not_acceptable (wb : Transform.t float) (x y : float) :
  boundsNotNaN wb ->
  leavesBounds wb x y = negb (acceptable wb (Vec2.mk x y)).
Proof.
  intros (Hx0 & Hx1 & Hy0 & Hy1).
  unfold leavesBounds, acceptable, insideRect. cbn.
  destruct (PrimFloat.is_finite x) eqn:Fx; cbn; [| reflexivity].
  destruct (PrimFloat.is_finite y) eqn:Fy; cbn; [| reflexivity].
  apply float_is_finite_not_nan in Fx, Fy.
  destruct (PrimFloat.ltb x (Transform.xmin wb)) eqn:E1; cbn.
  { rewrite (float_ltb_not_geb _ _ E1). reflexivity. }
  rewrite (float_not_ltb_geb _ _ Fx Hx0 E1). cbn.
  destruct (PrimFloat.ltb (Transform.xmax wb) x) eqn:E2; cbn.
  { rewrite (float_ltb_not_geb _ _ E2). reflexivity. }
  rewrite (float_not_ltb_geb _ _ Hx1 Fx E2). cbn.
  destruct (PrimFloat.ltb y (Transform.ymin wb)) eqn:E3; cbn.
  { rewrite (float_ltb_not_geb _ _ E3). reflexivity. }
  rewrite (float_not_ltb_geb _ _ Fy Hy0 E3). cbn.
  destruct (PrimFloat.ltb (Transform.ymax wb) y) eqn:E4; cbn.
  { rewrite (float_ltb_not_geb _ _ E4). reflexivity. }
  rewrite (float_not_ltb_geb _ _ Hy1 Fy E4). reflexivity.
Qed.

(** C1, amended: for every system, start point, signed step, step count
    and bounds that are numbers, every point of the result of [rk4] after
    the first is finite and lies within the bounds (inclusive); every
    point after the first is the sample computed from its predecessor; and
    a result shorter than [steps + 1] ends at the last accepted point, the
    sample computed from it being non-finite or outside the bounds and
    left out.  The first point, [p0], is returned unchecked. *)
Theorem C1_rk4_bounds_containment_after_start
    (sys : System.t float) (p0 : Vec2.t float) (dt : float) (steps : nat)
    (wb : Transform.t float) :
  boundsNotNaN wb ->
  Forall (fun p => acceptable wb p = true) (tl (rk4 sys p0 dt steps wb))
  /\ (forall i p q,
        nth_error (rk4 sys p0 dt steps wb) i = Some p ->
        nth_error (rk4 sys p0 dt steps wb) (S i) = Some q ->
        q = stepPoint sys dt p)
  /\ (length (rk4 sys p0 dt steps wb) < S steps ->
      acceptable wb (stepPoint sys dt (last (rk4 sys p0 dt steps wb) p0)) = false).
Proof.
  intros Hwb.
  destruct (rk4_chain sys dt wb steps p0) as [Hchain Hend].
  split; [| split].
  - destruct (rk4_head sys p0 dt steps wb) as [rest Hrest].
    rewrite Hrest in *. cbn [tl].
    apply Forall_forall. intros q Hq.
    destruct (In_nth_error _ _ Hq) as [i Hi].
    assert (Hp : exists p, nth_error (p0 :: rest) i = Some p).
    { destruct (nth_error (p0 :: rest) i) eqn:E; [eauto |].
      apply nth_error_None in E. cbn [length] in E.
      assert (i < length rest) by (apply nth_error_Some; congruence). lia. }
    destruct Hp as [p Hp].
    destruct (Hchain i p q Hp Hi) as [_ Hok].
    rewrite (leavesBounds_not_acceptable wb _ _ Hwb) in Hok.
    destruct q as [qx qy]. cbn [Vec2.x Vec2.y] in Hok.
    apply negb_false_iff in Hok. exact Hok.
  - intros i p q Hp Hq. exact (proj1 (Hchain i p q Hp Hq)).
  - intros Hlen. specialize (Hend Hlen). cbv zeta in Hend.
    rewrite (leavesBounds_not_acceptable wb _ _ Hwb) in Hend.
    destruct (stepPoint sys dt (last (rk4 sys p0 dt steps wb) p0)) as [qx qy].
    cbn [Vec2.x Vec2.y] in Hend. apply negb_true_iff in Hend. exact Hend.
Qed.

Lemma C1_witness :
  let wb : Transform.t float := (Transform.mk 0 4.6 0 4.6)%float in
  let p0 : Vec2.t float := (Vec2.mk 4 4)%float in
  Forall (fun p => acceptable wb p = true)
         (tl (rk4 radialSystem p0 0.1%float 5 wb))
  /\ (forall i p q,
        nth_error (rk4 radialSystem p0 0.1%float 5 wb) i = Some p ->
        nth_error (rk4 radialSystem p0 0.1%float 5 wb) (S i) = Some q ->
        q = stepPoint radialSystem 0.1%float p)
  /\ (length (rk4 radialSystem p0 0.1%float 5 wb) < 6 ->
      acceptable wb (stepPoint radialSystem 0.1%float
                       (last (rk4 radialSystem p0 0.1%float 5 wb) p0)) = false).
Proof.
  apply (C1_rk4_bounds_containment_after_start radialSystem
           (Vec2.mk 4 4)%float 0.1%float 5 (Transform.mk 0 4.6 0 4.6)%float).
  vm_compute. repeat split.
Defined.

(** ** Contour extraction *)

Lemma nth_map_seq {A : Type} (h : nat -> A) (n k : nat) (d : A) :
  k < n -> nth k (map h (seq 0 n)) d = h k.
Proof.
  intros Hk.
  rewrite (nth_indep (map h (seq 0 n)) d (h 0))
    by (rewrite length_map, length_seq; exact Hk).
  rewrite map_nth, seq_nth by exact Hk. reflexivity.
Qed.

Section CurveExtractorFacts.
Context {N : Type} `{Number N}.
Local Open Scope num_scope.

Lemma valAt_gridValues (T : Transform.t N) (field : ScalarField)
    (cols rows j i : nat) :
  j <= rows -> i <= cols ->
  valAt (gridValues T field cols rows) j i = sampleAt T field cols rows j i.
Proof.
  intros Hj Hi. unfold valAt, gridValues, sampleAt. cbv zeta.
  rewrite (nth_map_seq _ (rows + 1) j []) by lia.
  rewrite (nth_map_seq _ (cols + 1) i _) by lia.
  reflexivity.
Qed.

Lemma flat_map_ext_in {A B : Type} (h k : A -> list B) (l : list A) :
  (forall a, In a l -> h a = k a) -> flat_map h l = flat_map k l.
Proof.
  induction l as [| a l IH]; intros Hhk; cbn; [reflexivity |].
  rewrite (Hhk a (or_introl eq_refl)), IH; [reflexivity |].
  intros b Hb. apply Hhk. right. exact Hb.
Qed.

(** The body of the inner loop, on the stored samples, is the table. *)
Lemma cellSegments_table (T : Transform.t N) (field : ScalarField)
    (cols rows j i : nat) :
  j < rows -> i < cols ->
  cellSegments T (gridValues T field cols rows)
    ((Transform.xmax T - Transform.xmin T) / of_nat cols)
    ((Transform.ymax T - Transform.ymin T) / of_nat rows) j i
  = specCell T field cols rows j i.
Proof.
  intros Hj Hi. unfold cellSegments, specCell. cbv zeta.
  rewrite !valAt_gridValues by lia.
  generalize (sampleAt T field cols rows j i) as bl.
  generalize (sampleAt T field cols rows j (i + 1)) as br.
  generalize (sampleAt T field cols rows (j + 1) (i + 1)) as tr.
  generalize (sampleAt T field cols rows (j + 1) i) as tl.
  intros tl tr br bl. unfold signBit, specCode.
  destruct (bl >? lit 0), (br >? lit 0), (tr >? lit 0), (tl >? lit 0);
    reflexivity.
Qed.

End CurveExtractorFacts.

Lemma zeroContourSegments_by_table {N : Type} `{Number N}
    (T : Transform.t N) (field : ScalarField) (cols rows : nat) :
  zeroContourSegments T field cols rows
  = flat_map (fun j => flat_map (fun i => specCell T field cols rows j i)
                                (seq 0 cols))
             (seq 0 rows).
Proof.
  unfold zeroContourSegments. cbv zeta.
  apply flat_map_ext_in. intros j Hj. apply in_seq in Hj.
  apply flat_map_ext_in. intros i Hi. apply in_seq in Hi.
  apply cellSegments_table; lia.
Qed.

(** C4: for every rectangle, scalar field, [cols] and [rows] (in either
    reading of [number]), the result of [zeroContourSegments] is, cell by
    cell in row-major order, what the fixed table gives: the 4-bit code
    of the cell over its epsilon-adjusted corner values (a bit set iff the
    value is [> 0]; corners bottom-left, bottom-right, top-right,
    top-left), the edge pairs of that code, and for each edge the point
    interpolated with [t = v1 / (v1 - v2)] between its two corners. *)
Theorem C4_marching_squares_table {N : Type} `{Number N}
    (T : Transform.t N) (field : ScalarField) (cols rows : nat) :
  zeroContourSegments T field cols rows
  = flat_map (fun j => flat_map (fun i => specCell T field cols rows j i)
                                (seq 0 cols))
             (seq 0 rows).
Proof.
  unfold zeroContourSegments. cbv zeta.
  apply flat_map_ext_in. intros j Hj. apply in_seq in Hj.
  apply flat_map_ext_in. intros i Hi. apply in_seq in Hi.
  apply cellSegments_table; lia.
Qed.

Lemma SFcompare_refl (x : spec_float) :
  x <> S754_nan -> SFcompare x x = Some Eq.
Proof.
  destruct x as [s | s | | s m e]; cbn; intros Hx;
    try (destruct s; reflexivity); try congruence.
  rewrite Z.compare_refl, Pos.compare_cont_refl. destruct s; reflexivity.
Qed.

(** A value whose magnitude is below some bound is a number. *)
Lemma float_abs_ltb_not_nan (v c : float) :
  PrimFloat.ltb (PrimFloat.abs v) c = true -> PrimFloat.is_nan v = false.
Proof.
  rewrite FloatAxioms.ltb_spec, abs_spec. intros Hlt.
  unfold PrimFloat.is_nan. rewrite FloatAxioms.eqb_spec. unfold SFeqb.
  rewrite SFcompare_refl; [reflexivity |].
  intros Hnan. rewrite Hnan in Hlt. cbn in Hlt. discriminate Hlt.
Qed.

Lemma float_zero_not_nan : PrimFloat.is_nan 0 = false.
Proof. reflexivity. Qed.

(** C6: in [zeroContourSegments] (binary64), the conditional applied to
    each sample is the replacement the specification words: a value with
    [|v| < 1e-15] becomes [+1e-15] when positive, [-1e-15] when negative
    and [+1e-15] when zero, and any other value, in particular every value
    with [|v| >= 1e-15], is used unchanged; and the table [val], from which the corner values of every cell are read
    before their signs are classified, holds the samples so replaced. *)
Theorem C6_signed_epsilon_replacement :
  (forall v : float, signedEps v = signedEpsSpec v)
  /\ (forall v : float,
        PrimFloat.leb 1e-15 (PrimFloat.abs v) = true -> signedEps v = v)
  /\ (forall (T : Transform.t float) (field : ScalarField) (cols rows : nat),
        gridValues T field cols rows
        = map (fun j =>
                 map (fun i =>
                        signedEpsSpec
                          (field
                             (Transform.xmin T
                              + F64.of_nat i
                                * ((Transform.xmax T - Transform.xmin T)
                                   / F64.of_nat cols))%float
                             (Transform.ymin T
                              + F64.of_nat j
                                * ((Transform.ymax T - Transform.ymin T)
                                   / F64.of_nat rows))%float))
                     (seq 0 (cols + 1)))
              (seq 0 (rows + 1))).
Proof.
  assert (Heps : forall v : float, signedEps v = signedEpsSpec v).
  { intros v. unfold signedEps, signedEpsSpec. cbn.
    destruct (PrimFloat.ltb (PrimFloat.abs v) 1e-15) eqn:Hsmall; [| reflexivity].
    destruct (PrimFloat.ltb 0 v) eqn:Hpos.
    - rewrite (float_ltb_leb _ _ Hpos). reflexivity.
    - destruct (PrimFloat.ltb v 0) eqn:Hneg.
      + rewrite (float_ltb_not_geb _ _ Hneg). reflexivity.
      + rewrite (float_not_ltb_geb v 0
                   (float_abs_ltb_not_nan _ _ Hsmall) float_zero_not_nan Hneg).
        reflexivity. }
  split; [exact Heps |].
  split.
  { intros v Hbig. unfold signedEps. cbn.
    rewrite (float_leb_not_gtb _ _ Hbig). reflexivity. }
  intros T field cols rows. unfold gridValues. cbv zeta.
  apply map_ext. intros j. apply map_ext. intros i.
  rewrite Heps. reflexivity.
Qed.

(** *** Contours in exact arithmetic *)

Lemma crossing_param (va vb : R) :
  crossing va vb -> (0 < va / (va - vb) < 1)%R.
Proof.
  intros [[Ha Hb] | [Ha Hb]].
  - split.
    + apply Rdiv_lt_0_compat; lra.
    + apply (Rmult_lt_reg_r (va - vb)); [lra |].
      unfold Rdiv. rewrite Rmult_assoc, Rinv_l by lra. lra.
  - replace (va / (va - vb))%R with ((- va) / (vb - va))%R by (field; lra).
    split.
    + apply Rdiv_lt_0_compat; lra.
    + apply (Rmult_lt_reg_r (vb - va)); [lra |].
      unfold Rdiv. rewrite Rmult_assoc, Rinv_l by lra. lra.
Qed.

Lemma lerp_between (lo hi a b t : R) :
  (lo <= a <= hi)%R -> (lo <= b <= hi)%R -> (0 < t < 1)%R ->
  (lo <= a + t * (b - a) <= hi)%R.
Proof. intros Ha Hb Ht. split; nra. Qed.

(** An adjusted sample is never zero. *)
Lemma signedEps_exact_nonzero (v : R) : signedEps v <> 0%R.
Proof.
  unfold signedEps. change (@lit R _ 0%float) with 0%R.
  change (@lit R _ 1e-15%float) with (Exact.of_float 1e-15).
  pose proof Exact_lit_1em15_pos as Hpos. cbn [nltb nleb nabs nopp real_Number].
  destruct (Exact.ltb (Rabs v) (Exact.of_float 1e-15)) eqn:E.
  - destruct (Exact.leb 0 v); lra.
  - apply Exact_ltb_false in E. intros ->. rewrite Rabs_R0 in E. lra.
Qed.

(** Whatever the code of a cell, the table joins only edges whose corner
    values are of strictly opposite sign. *)
Lemma table_joins_crossing_edges (bl br tr tl : R) :
  bl <> 0%R -> br <> 0%R -> tr <> 0%R -> tl <> 0%R ->
  Forall (fun e => edgeCrosses bl br tr tl (fst e)
                   /\ edgeCrosses bl br tr tl (snd e))
         (specEdgePairs (specCode bl br tr tl)).
Proof.
  intros Hbl Hbr Htr Htl. unfold specCode.
  change (@lit R _ 0%float) with 0%R. cbn [nltb real_Number].
  destruct (Exact.ltb 0 bl) eqn:Ebl, (Exact.ltb 0 br) eqn:Ebr,
           (Exact.ltb 0 tr) eqn:Etr, (Exact.ltb 0 tl) eqn:Etl;
    repeat match goal with
      | E : Exact.ltb _ _ = true |- _ => apply Exact_ltb_true in E
      | E : Exact.ltb _ _ = false |- _ => apply Exact_ltb_false in E
      end;
    match goal with
    | |- Forall _ (specEdgePairs ?c) =>
        let l := eval vm_compute in (specEdgePairs c) in
        change (specEdgePairs c) with l
    end;
    repeat (apply Forall_cons; [split |]); try apply Forall_nil;
    unfold edgeCrosses, crossing; cbn [specEdgeCorners fst snd]; lra.
Qed.

Lemma insideRect_exact (T : Transform.t R) (p : Vec2.t R) :
  (Transform.xmin T <= Vec2.x p <= Transform.xmax T)%R ->
  (Transform.ymin T <= Vec2.y p <= Transform.ymax T)%R ->
  insideRect T p = true.
Proof.
  intros [H1 H2] [H3 H4]. unfold insideRect. cbn [nleb real_Number].
  rewrite !andb_true_iff. repeat split; apply Exact_leb_true; assumption.
Qed.

Lemma edge_point_inside (T : Transform.t R) (x0 x1 y0 y1 bl br tr tl : R)
    (e : nat) :
  (Transform.xmin T <= x0)%R -> (x0 <= x1)%R -> (x1 <= Transform.xmax T)%R ->
  (Transform.ymin T <= y0)%R -> (y0 <= y1)%R -> (y1 <= Transform.ymax T)%R ->
  edgeCrosses bl br tr tl e ->
  insideRect T (specEdgePoint x0 x1 y0 y1 bl br tr tl e) = true.
Proof.
  intros Hx0 Hx01 Hx1 Hy0 Hy01 Hy1 Hc.
  unfold edgeCrosses in Hc. unfold specEdgePoint.
  destruct e as [| [| [| e]]]; cbn in Hc |- *;
    apply crossing_param in Hc; apply insideRect_exact; cbn [Vec2.x Vec2.y];
    apply lerp_between; lra.
Qed.

(** The nodes of column [i] and [i + 1] of a grid of [cols] columns lie in
    the rectangle. *)
Lemma grid_node_bounds (lo hi : R) (cols i : nat) :
  (lo <= hi)%R -> i < cols ->
  let d := ((hi - lo) / INR cols)%R in
  (lo <= lo + INR i * d)%R
  /\ (lo + INR i * d <= lo + INR i * d + d)%R
  /\ (lo + INR i * d + d <= hi)%R.
Proof.
  intros Hle Hi d.
  assert (Hc : (0 < INR cols)%R) by (apply lt_0_INR; lia).
  assert (Hd : (0 <= d)%R).
  { unfold d. apply Rmult_le_pos; [lra |]. apply Rlt_le, Rinv_0_lt_compat, Hc. }
  assert (Hi0 : (0 <= INR i)%R) by apply pos_INR.
  assert (Hi1 : (INR i + 1 <= INR cols)%R).
  { rewrite <- S_INR. apply le_INR. lia. }
  assert (Hcd : (INR cols * d = hi - lo)%R) by (unfold d; field; lra).
  repeat split; nra.
Qed.

Lemma specCell_inside (T : Transform.t R) (field : ScalarField)
    (cols rows j i : nat) :
  (Transform.xmin T <= Transform.xmax T)%R ->
  (Transform.ymin T <= Transform.ymax T)%R ->
  j < rows -> i < cols ->
  endpointsInside T (specCell T field cols rows j i).
Proof.
  intros Hx Hy Hj Hi. unfold endpointsInside, specCell. cbv zeta.
  destruct (grid_node_bounds _ _ cols i Hx Hi) as (Hx0 & Hx01 & Hx1).
  destruct (grid_node_bounds _ _ rows j Hy Hj) as (Hy0 & Hy01 & Hy1).
  apply Forall_map.
  pose proof (table_joins_crossing_edges
                (sampleAt T field cols rows j i)
                (sampleAt T field cols rows j (i + 1))
                (sampleAt T field cols rows (j + 1) (i + 1))
                (sampleAt T field cols rows (j + 1) i)
                (signedEps_exact_nonzero _) (signedEps_exact_nonzero _)
                (signedEps_exact_nonzero _) (signedEps_exact_nonzero _))
    as Hcross.
  eapply Forall_impl; [| exact Hcross].
  intros [e1 e2] [H1 H2]. cbn [fst snd Seg.a Seg.b] in *.
  split; apply edge_point_inside; assumption.
Qed.

(** C10, as worded, fails on the program: in binary64, on the default
    view [[-10, 10]^2] with a 6 by 6 grid, the top of the last row is
    computed as [10.000000000000002], and the contour of [f(x, y) = x]
    ends at a point with that ordinate, above [ymax = 10]. *)
Lemma C10_counterexample_binary64 :
  validRect defaultView
  /\ In (Seg.mk (Vec2.mk (-4.4408920985006262e-16) 6.6666666666666679)
                (Vec2.mk (-4.4408920985006262e-16) 10.000000000000002))%float
        (zeroContourSegments defaultView (fun x _ => x) 6 6)
  /\ insideRect defaultView
       (Vec2.mk (-4.4408920985006262e-16) 10.000000000000002)%float = false
  /\ ~ endpointsInside defaultView
         (zeroContourSegments defaultView (fun x _ => x) 6 6).
Proof.
  assert (Hin : In (Seg.mk (Vec2.mk (-4.4408920985006262e-16) 6.6666666666666679)
                           (Vec2.mk (-4.4408920985006262e-16) 10.000000000000002))%float
                   (zeroContourSegments defaultView (fun x _ => x) 6 6)).
  { vm_compute. do 5 right. left. reflexivity. }
  split; [vm_compute; split; reflexivity |].
  split; [exact Hin |].
  split; [vm_compute; reflexivity |].
  intros Hall. unfold endpointsInside in Hall.
  rewrite Forall_forall in Hall. destruct (Hall _ Hin) as [_ Hb].
  vm_compute in Hb. discriminate Hb.
Qed.

(** C10, amended: in exact real arithmetic, for every rectangle with
    [xmin < xmax] and [ymin < ymax], every field and every grid, the
    corner values of every edge the table joins are of strictly opposite
    sign, so the interpolation parameter [t = v1 / (v1 - v2)] lies
    strictly between 0 and 1, and every endpoint of every segment returned
    by [zeroContourSegments] lies within [[xmin, xmax] x [ymin, ymax]]. *)
Theorem C10_contour_endpoints_inside_exact
    (T : Transform.t R) (field : ScalarField) (cols rows : nat) :
  (Transform.xmin T < Transform.xmax T)%R ->
  (Transform.ymin T < Transform.ymax T)%R ->
  (forall j i,
      let bl := sampleAt T field cols rows j i in
      let br := sampleAt T field cols rows j (i + 1) in
      let tr := sampleAt T field cols rows (j + 1) (i + 1) in
      let tl := sampleAt T field cols rows (j + 1) i in
      Forall (fun e =>
                (0 < specEdgeParam bl br tr tl (fst e) < 1)%R
                /\ (0 < specEdgeParam bl br tr tl (snd e) < 1)%R)
             (specEdgePairs (specCode bl br tr tl)))
  /\ endpointsInside T (zeroContourSegments T field cols rows).
Proof.
  intros Hx Hy. split.
  - intros j i. cbv zeta.
    eapply Forall_impl;
      [| apply table_joins_crossing_edges; apply signedEps_exact_nonzero].
    intros [e1 e2] [H1 H2]. cbn [fst snd] in *.
    unfold edgeCrosses in H1, H2. unfold specEdgeParam.
    split.
    + destruct (specEdgeCorners 0%R 0%R 0%R 0%R _ _ _ _ e1) as [[[? ?] va] [[? ?] vb]].
      apply crossing_param, H1.
    + destruct (specEdgeCorners 0%R 0%R 0%R 0%R _ _ _ _ e2) as [[[? ?] va] [[? ?] vb]].
      apply crossing_param, H2.
  - rewrite zeroContourSegments_by_table. unfold endpointsInside.
    apply Forall_flat_map, Forall_forall. intros j Hj. apply in_seq in Hj.
    apply Forall_flat_map, Forall_forall. intros i Hi. apply in_seq in Hi.
    apply specCell_inside; [lra | lra | lia | lia].
Qed.

Lemma C10_witness :
  (forall j i,
      let T : Transform.t R := (Transform.mk 0 1 0 1)%R in
      let field : ScalarField := fun x y => (x - y)%R in
      let bl := sampleAt T field 2 2 j i in
      let br := sampleAt T field 2 2 j (i + 1) in
      let tr := sampleAt T field 2 2 (j + 1) (i + 1) in
      let tl := sampleAt T field 2 2 (j + 1) i in
      Forall (fun e =>
                (0 < specEdgeParam bl br tr tl (fst e) < 1)%R
                /\ (0 < specEdgeParam bl br tr tl (snd e) < 1)%R)
             (specEdgePairs (specCode bl br tr tl)))
  /\ endpointsInside (Transform.mk 0 1 0 1)%R
       (zeroContourSegments (Transform.mk 0 1 0 1)%R
          (fun x y => (x - y)%R) 2 2).
Proof.
  apply (C10_contour_endpoints_inside_exact
           (Transform.mk 0 1 0 1)%R (fun x y => (x - y)%R) 2 2);
    cbn [Transform.xmin Transform.xmax Transform.ymin Transform.ymax]; lra.
Defined.

(** ** Stitcher *)

Lemma markUsed_length (used : list bool) (idx : nat) :
  length (markUsed used idx) = length used.
Proof.
  revert idx. induction used as [| u used IH]; intros idx; [reflexivity |].
  destruct idx as [| idx]; cbn; [reflexivity |]. rewrite IH. reflexivity.
Qed.

Lemma markUsed_nth (used : list bool) (idx j : nat) :
  idx < length used ->
  nth j (markUsed used idx) false = (j =? idx)%nat || nth j used false.
Proof.
  revert idx j. induction used as [| u used IH]; intros idx j Hidx.
  - cbn in Hidx. lia.
  - destruct idx as [| idx], j as [| j]; cbn; try reflexivity.
    + apply IH. cbn in Hidx. lia.
Qed.

Lemma nth_true_lt (used : list bool) (j : nat) :
  nth j used false = true -> j < length used.
Proof.
  intros Hj. destruct (Nat.lt_ge_cases j (length used)) as [Hlt | Hge];
    [exact Hlt |].
  rewrite nth_overflow in Hj by exact Hge. discriminate Hj.
Qed.

Lemma adjGet_bounded (n : nat) (adj : Adj) (k : Key) (l : list nat) :
  adjBounded n adj -> adjGet adj k = Some l -> Forall (fun idx => idx < n) l.
Proof.
  unfold adjBounded. induction adj as [| [k' l'] adj IH]; cbn; intros Hb Hget.
  - discriminate Hget.
  - inversion Hb as [| ? ? Hl' Hrest]; subst.
    destruct (Key_eqb k' k).
    + injection Hget as <-. exact Hl'.
    + apply IH; assumption.
Qed.

Lemma adjSetEmpty_bounded (n : nat) (adj : Adj) (k : Key) :
  adjBounded n adj -> adjBounded n (adjSetEmpty adj k).
Proof.
  unfold adjBounded, adjSetEmpty. intros Hb.
  apply Forall_app. split; [exact Hb |]. repeat constructor.
Qed.

Lemma adjPush_bounded (n : nat) (adj : Adj) (k : Key) (i : nat) :
  i < n -> adjBounded n adj -> adjBounded n (adjPush adj k i).
Proof.
  unfold adjBounded. intros Hi.
  induction adj as [| [k' l'] adj IH]; cbn; intros Hb; [constructor |].
  inversion Hb as [| ? ? Hl' Hrest]; subst. cbn in Hl'.
  destruct (Key_eqb k' k).
  - constructor; [| exact Hrest]. cbn.
    apply Forall_app. split; [exact Hl' |]. repeat constructor. exact Hi.
  - constructor; [exact Hl' |]. apply IH. exact Hrest.
Qed.

Section StitcherFacts.
Context {N : Type} `{Number N}.

Lemma addSegment_bounded (n : nat) (adj : Adj) (i : nat) (s : Seg.t N) :
  i < n -> adjBounded n adj -> adjBounded n (addSegment adj i s).
Proof.
  intros Hi Hb. unfold addSegment.
  apply adjPush_bounded; [exact Hi |].
  apply adjPush_bounded; [exact Hi |].
  destruct (adjHas _ (key (Seg.b s)));
    destruct (adjHas adj (key (Seg.a s)));
    repeat apply adjSetEmpty_bounded; exact Hb.
Qed.

Lemma buildAdj_bounded (n : nat) (segs : list (Seg.t N)) (adj : Adj) (i : nat) :
  i + length segs <= n -> adjBounded n adj ->
  adjBounded n (buildAdj adj i segs).
Proof.
  revert adj i. induction segs as [| s segs IH]; intros adj i Hlen Hb; cbn.
  - exact Hb.
  - cbn in Hlen. apply IH; [lia |]. apply addSegment_bounded; [lia | exact Hb].
Qed.

(** What a scan that chooses a segment has chosen. *)
Lemma scanIncident_chosen (A B : list (Vec2.t N)) (used : list bool) (k : Key)
    (incident : list nat) (idx : nat) (next : Vec2.t N) :
  scanIncident A B used k incident = Some (Some (idx, next)) ->
  nth idx used false = false
  /\ exists a b, nth_error A idx = Some a /\ nth_error B idx = Some b
                 /\ (next = a \/ next = b).
Proof.
  induction incident as [| i incident IH]; cbn; intros Hscan.
  - discriminate Hscan.
  - destruct (nth i used false) eqn:Hu; [exact (IH Hscan) |].
    destruct (nth_error A i) as [a |] eqn:Ha; [| discriminate Hscan].
    destruct (nth_error B i) as [b |] eqn:Hb; [| discriminate Hscan].
    destruct (Key_eqb (key a) k).
    + injection Hscan as <- <-. split; [exact Hu |]. eauto 6.
    + destruct (Key_eqb (key b) k).
      * injection Hscan as <- <-. split; [exact Hu |]. eauto 6.
      * exact (IH Hscan).
Qed.

(** A scan over indices of segments reads inside the arrays. *)
Lemma scanIncident_defined (A B : list (Vec2.t N)) (used : list bool) (k : Key)
    (incident : list nat) :
  length B = length A ->
  Forall (fun idx => idx < length A) incident ->
  scanIncident A B used k incident <> None.
Proof.
  intros HAB. induction incident as [| i incident IH]; cbn; intros Hb.
  - discriminate.
  - inversion Hb as [| ? ? Hi Hrest]; subst.
    destruct (nth i used false); [exact (IH Hrest) |].
    destruct (nth_error A i) as [a |] eqn:Ha.
    2:{ apply nth_error_None in Ha. lia. }
    destruct (nth_error B i) as [b |] eqn:Hb'.
    2:{ apply nth_error_None in Hb'. lia. }
    destruct (Key_eqb (key a) k); [discriminate |].
    destruct (Key_eqb (key b) k); [discriminate |].
    exact (IH Hrest).
Qed.

Lemma consistent_length (n : nat) (used : list bool) (consumed : list nat) :
  consistent n used consumed -> length consumed <= n.
Proof.
  intros (Hlen & Hnd & Hiff).
  rewrite <- (length_seq n 0). apply NoDup_incl_length; [exact Hnd |].
  intros j Hj. apply in_seq. apply Hiff, nth_true_lt in Hj. lia.
Qed.

Lemma consistent_mark (n : nat) (used : list bool) (consumed : list nat)
    (idx : nat) :
  consistent n used consumed -> idx < n -> nth idx used false = false ->
  consistent n (markUsed used idx) (consumed ++ [idx]).
Proof.
  intros (Hlen & Hnd & Hiff) Hidx Hfree. split; [| split].
  - rewrite markUsed_length. exact Hlen.
  - apply NoDup_app; [exact Hnd | repeat constructor; intros [] |].
    intros j Hj [<- | []]. apply Hiff in Hj. congruence.
  - intros j. rewrite markUsed_nth by lia.
    rewrite in_app_iff, orb_true_iff, Nat.eqb_eq, Hiff. cbn. intuition.
Qed.

Lemma chainFrom_weaken (segs : list (Seg.t N)) (chain : list (Vec2.t N))
    (trace more : list nat) :
  chainFrom segs chain trace -> chainFrom segs chain (trace ++ more).
Proof.
  unfold chainFrom. apply Forall_impl.
  intros p (idx & s & Hin & Hs & Hp). exists idx, s.
  rewrite in_app_iff. auto.
Qed.

Lemma pushRight_grows : growsByOne (@pushRight N).
Proof.
  intros chain next. unfold pushRight. split.
  - rewrite length_app. cbn. lia.
  - intros P Hc Hn. apply Forall_app. split; [exact Hc |]. repeat constructor. exact Hn.
Qed.

Lemma unshiftLeft_grows : growsByOne (@unshiftLeft N).
Proof.
  intros chain next. unfold unshiftLeft. split; [reflexivity |].
  intros P Hc Hn. constructor; assumption.
Qed.

(** A [while] loop ends within its fuel and keeps the bookkeeping. *)
Lemma extendTraced_spec (grow : list (Vec2.t N) -> Vec2.t N -> list (Vec2.t N))
    (segs : list (Seg.t N)) (adj : Adj) (pre : list nat) :
  growsByOne grow ->
  adjBounded (length segs) adj ->
  forall (fuel : nat) (used : list bool) (chain : list (Vec2.t N))
         (endp : Vec2.t N) (trace : list nat),
    consistent (length segs) used (pre ++ trace) ->
    chainFrom segs chain trace ->
    length segs < length (pre ++ trace) + fuel ->
    exists used' chain' trace',
      extendTraced grow fuel (map Seg.a segs) (map Seg.b segs) adj
                   used chain endp trace
      = Some (used', chain', trace')
      /\ consistent (length segs) used' (pre ++ trace')
      /\ chainFrom segs chain' trace'
      /\ length chain' + length trace = length chain + length trace'
      /\ incl trace trace'.
Proof.
  intros Hgrow Hadj.
  induction fuel as [| fuel IH]; intros used chain endp trace Hcons Hchain Hfuel.
  - pose proof (consistent_length _ _ _ Hcons). lia.
  - cbn [extendTraced].
    set (k := key endp).
    set (incident := match adjGet adj k with Some l => l | None => [] end).
    assert (Hinc : Forall (fun idx => idx < length (map Seg.a segs)) incident).
    { rewrite length_map. unfold incident.
      destruct (adjGet adj k) as [l |] eqn:Hget; [| constructor].
      exact (adjGet_bounded _ _ _ _ Hadj Hget). }
    pose proof (scanIncident_defined (map Seg.a segs) (map Seg.b segs) used k
                  incident ltac:(rewrite !length_map; reflexivity) Hinc) as Hdef.
    destruct (scanIncident (map Seg.a segs) (map Seg.b segs) used k incident)
      as [[[idx next] |] |] eqn:Hscan; [| | congruence].
    + destruct (scanIncident_chosen _ _ _ _ _ _ _ Hscan)
        as (Hfree & a & b & Ha & Hb & Hnext).
      assert (Hidx : idx < length segs).
      { rewrite <- (length_map Seg.a). apply nth_error_Some. congruence. }
      destruct (nth_error segs idx) as [s |] eqn:Hs.
      2:{ apply nth_error_None in Hs. lia. }
      rewrite nth_error_map, Hs in Ha. rewrite nth_error_map, Hs in Hb.
      cbn in Ha, Hb. injection Ha as <-. injection Hb as <-.
      destruct (IH (markUsed used idx) (grow chain next) next (trace ++ [idx]))
        as (used' & chain' & trace' & Hrun & Hcons' & Hchain' & Hlen' & Hincl').
      * rewrite app_assoc. apply consistent_mark; assumption.
      * apply (proj2 (Hgrow chain next)).
        -- apply chainFrom_weaken. exact Hchain.
        -- exists idx, s. rewrite in_app_iff. cbn.
           split; [auto |]. split; [exact Hs |]. destruct Hnext; auto.
      * rewrite !length_app in *. cbn. lia.
      * exists used', chain', trace'. split; [exact Hrun |].
        split; [exact Hcons' |]. split; [exact Hchain' |].
        split.
        -- rewrite (proj1 (Hgrow chain next)), length_app in Hlen'.
           cbn in Hlen'. lia.
        -- intros j Hj. apply Hincl', in_app_iff. left. exact Hj.
    + exists used, chain, trace.
      split; [reflexivity |]. split; [exact Hcons |]. split; [exact Hchain |].
      split; [reflexivity | apply incl_refl].
Qed.

(** Erasing the record of consumed segments gives the loops of the
    source. *)
Lemma extendTraced_erase (grow : list (Vec2.t N) -> Vec2.t N -> list (Vec2.t N))
    (fuel : nat) (A B : list (Vec2.t N)) (adj : Adj) :
  forall (used : list bool) (chain : list (Vec2.t N)) (endp : Vec2.t N)
         (trace : list nat),
    extend grow fuel A B adj used chain endp
    = option_map (fun r => (fst (fst r), snd (fst r)))
        (extendTraced grow fuel A B adj used chain endp trace).
Proof.
  induction fuel as [| fuel IH]; intros used chain endp trace; cbn.
  - reflexivity.
  - destruct (scanIncident A B used (key endp) _) as [[[idx next] |] |];
      [apply IH | reflexivity | reflexivity].
Qed.

Lemma stitchLoopTraced_erase (fuel : nat) (A B : list (Vec2.t N)) (adj : Adj)
    (todo : list nat) :
  forall (used : list bool) (polylines : list (list (Vec2.t N) * list nat)),
    stitchLoop fuel A B adj todo used (map fst polylines)
    = option_map (map fst)
        (stitchLoopTraced fuel A B adj todo used polylines).
Proof.
  induction todo as [| i todo IH]; intros used polylines; cbn.
  - reflexivity.
  - destruct (nth i used false); [apply IH |].
    destruct (nth_error A i) as [leftP |]; [| reflexivity].
    destruct (nth_error B i) as [rightP |]; [| reflexivity].
    rewrite (extendTraced_erase pushRight fuel A B adj _ _ _ [i]).
    destruct (extendTraced pushRight fuel A B adj (markUsed used i)
                [leftP; rightP] rightP [i]) as [[[used1 chain1] trace1] |];
      cbn; [| reflexivity].
    rewrite (extendTraced_erase unshiftLeft fuel A B adj _ _ _ trace1).
    destruct (extendTraced unshiftLeft fuel A B adj used1 chain1 leftP trace1)
      as [[[used2 chain2] trace2] |]; cbn; [| reflexivity].
    rewrite <- IH, map_app. reflexivity.
Qed.

Lemma stitchTraced_erase (segs : list (Seg.t N)) :
  stitchSegmentsToPolylines segs = option_map (map fst) (stitchTraced segs).
Proof.
  unfold stitchSegmentsToPolylines, stitchTraced. cbv zeta.
  apply (stitchLoopTraced_erase _ _ _ _ _ _ []).
Qed.

(** The outer loop ends, every chain with one point more than the
    segments recorded for it, and leaves every index marked. *)
Lemma stitchLoopTraced_spec (segs : list (Seg.t N)) (adj : Adj) :
  adjBounded (length segs) adj ->
  forall (todo : list nat) (used : list bool)
         (polylines : list (list (Vec2.t N) * list nat)),
    consistent (length segs) used (concat (map snd polylines)) ->
    Forall (fun i => i < length segs) todo ->
    Forall (chainOk segs) polylines ->
    (forall j, j < length segs -> ~ In j todo -> nth j used false = true) ->
    exists out used',
      stitchLoopTraced (S (length segs)) (map Seg.a segs) (map Seg.b segs)
                       adj todo used polylines = Some out
      /\ consistent (length segs) used' (concat (map snd out))
      /\ (forall j, j < length segs -> nth j used' false = true)
      /\ Forall (chainOk segs) out.
Proof.
  intros Hadj.
  induction todo as [| i todo IH]; intros used polylines Hcons Htodo Hok Hdone.
  - exists polylines, used. cbn [stitchLoopTraced].
    split; [reflexivity |]. split; [exact Hcons |]. split; [| exact Hok].
    intros j Hj. apply Hdone; [exact Hj | intros []].
  - inversion Htodo as [| ? ? Hi Htodo']; subst. cbn [stitchLoopTraced].
    destruct (nth i used false) eqn:Hused.
    + apply IH; try assumption.
      intros j Hj Hnin. destruct (Nat.eq_dec j i) as [-> | Hne]; [exact Hused |].
      apply Hdone; [exact Hj |]. intros [<- | Hin]; [congruence | exact (Hnin Hin)].
    + destruct (nth_error segs i) as [s |] eqn:Hs.
      2:{ apply nth_error_None in Hs. lia. }
      rewrite !nth_error_map, Hs. cbn [option_map].
      set (pre := concat (map snd polylines)) in *.
      destruct (extendTraced_spec pushRight segs adj pre pushRight_grows Hadj
                  (S (length segs)) (markUsed used i) [Seg.a s; Seg.b s]
                  (Seg.b s) [i])
        as (used1 & chain1 & trace1 & Hrun1 & Hcons1 & Hchain1 & Hlen1 & Hincl1).
      * apply consistent_mark; assumption.
      * repeat constructor; exists i, s; cbn; auto.
      * lia.
      * rewrite Hrun1.
        destruct (extendTraced_spec unshiftLeft segs adj pre unshiftLeft_grows Hadj
                    (S (length segs)) used1 chain1 (Seg.a s) trace1)
          as (used2 & chain2 & trace2 & Hrun2 & Hcons2 & Hchain2 & Hlen2 & Hincl2);
          [exact Hcons1 | exact Hchain1 | lia |].
        rewrite Hrun2.
        assert (Hpre : concat (map snd (polylines ++ [(chain2, trace2)]))
                       = pre ++ trace2).
        { rewrite map_app, concat_app. cbn. rewrite app_nil_r. reflexivity. }
        apply IH.
        -- rewrite Hpre. exact Hcons2.
        -- exact Htodo'.
        -- apply Forall_app. split; [exact Hok |]. repeat constructor.
           ++ cbn in *. lia.
           ++ exact Hchain2.
        -- intros j Hj Hnin.
           destruct Hcons2 as (_ & _ & Hiff2). apply Hiff2, in_app_iff.
           destruct (Nat.eq_dec j i) as [-> | Hne].
           ++ right. apply Hincl2, Hincl1. left. reflexivity.
           ++ left. destruct Hcons as (_ & _ & Hiff). apply Hiff.
              apply Hdone; [exact Hj |].
              intros [<- | Hin]; [congruence | exact (Hnin Hin)].
Qed.

End StitcherFacts.

Lemma chains_total_length {N : Type} `{Number N} (segs : list (Seg.t N))
    (traced : list (list (Vec2.t N) * list nat)) :
  Forall (chainOk segs) traced ->
  list_sum (map (fun pl => length pl - 1) (map fst traced))
  = length (concat (map snd traced)).
Proof.
  unfold list_sum.
  induction 1 as [| [chain trace] traced [Hlen _] _ IH];
    cbn [fold_right map concat fst snd] in *.
  - reflexivity.
  - rewrite length_app, IH, Hlen. lia.
Qed.

(** C3: for every list of segments (in either reading of [number]),
    [stitchSegmentsToPolylines] returns polylines; the sum over them of
    (length - 1) is the number of input segments; and the segments marked
    while the polylines were built, taken over all polylines, are the
    input indices [0 .. n-1], each exactly once, every polyline having one
    point more than the segments it consumed and all its points being
    endpoints of those segments. *)
Theorem C3_segment_conservation {N : Type} `{Number N} (segs : list (Seg.t N)) :
  exists traced : list (list (Vec2.t N) * list nat),
    stitchTraced segs = Some traced
    /\ stitchSegmentsToPolylines segs = Some (map fst traced)
    /\ list_sum (map (fun pl => length pl - 1) (map fst traced)) = length segs
    /\ Permutation (concat (map snd traced)) (seq 0 (length segs))
    /\ Forall (chainOk segs) traced.
Proof.
  destruct (stitchLoopTraced_spec segs (buildAdj [] 0 segs)
              (buildAdj_bounded (length segs) segs [] 0 (le_n _)
                 (Forall_nil _))
              (seq 0 (length segs)) (repeat false (length segs)) [])
    as (out & used' & Hrun & Hcons & Hall & Hok).
  - split; [apply repeat_length |]. split; [constructor |].
    intros j. cbn. rewrite nth_repeat. split; [discriminate | intros []].
  - apply Forall_forall. intros i Hi. apply in_seq in Hi. lia.
  - constructor.
  - intros j Hj Hnin. exfalso. apply Hnin, in_seq. lia.
  - assert (Hperm : Permutation (concat (map snd out)) (seq 0 (length segs))).
    { destruct Hcons as (Hlen & Hnd & Hiff).
      apply NoDup_Permutation; [exact Hnd | apply seq_NoDup |].
      intros j. rewrite <- Hiff, in_seq. split.
      - intros Hj. apply nth_true_lt in Hj. lia.
      - intros Hj. apply Hall. lia. }
    exists out. split; [exact Hrun |].
    split.
    { rewrite stitchTraced_erase. unfold stitchTraced. cbv zeta.
      rewrite Hrun. reflexivity. }
    split.
    { rewrite (chains_total_length segs out Hok).
      rewrite (Permutation_length Hperm). apply length_seq. }
    split; [exact Hperm | exact Hok].
Qed.

(** ** Equilibrium solver *)

(** In exact arithmetic, a pass of the loop of [newtonPolish] whose
    Jacobian [[a b; c d]] is not near-singular moves from [(x, y)] to
    [(x + u, y + v)], where [(u, v)] is the solution of the linear system
    [a u + b v = f(x, y)], [c u + d v = g(x, y)]: the Newton correction
    is added with the opposite sign. *)
Lemma newton_pass_adds_inverse_jacobian_exact
    (sys : System.t R) (hx hy x y : R) :
  let fx := System.f sys x y (System.params sys) in
  let gy := System.g sys x y (System.params sys) in
  let '(a, b, c, d) := jacobian sys hx hy x y in
  Exact.ltb (Rabs (a * d - b * c)) (Exact.of_float 1e-20) = false ->
  exists u v : R,
    (a * u + b * v = fx)%R /\ (c * u + d * v = gy)%R
    /\ newtonLoop 1 sys hx hy x y = Vec2.mk (x + u)%R (y + v)%R.
Proof.
  cbv zeta. cbn [newtonLoop].
  destruct (jacobian sys hx hy x y) as [[[a b] c] d].
  intros Hdet. cbn [nltb nabs nmul nsub real_Number].
  change (@lit R _ 1e-20%float) with (Exact.of_float 1e-20). rewrite Hdet.
  apply Exact_ltb_false in Hdet. pose proof Exact_lit_1em20_pos as Hpos.
  assert (Hne : (a * d - b * c <> 0)%R).
  { intros H0. rewrite H0, Rabs_R0 in Hdet. lra. }
  set (fx := System.f sys x y (System.params sys)).
  set (gy := System.g sys x y (System.params sys)).
  exists ((d * fx - b * gy) / (a * d - b * c))%R,
         ((a * gy - c * fx) / (a * d - b * c))%R.
  split; [field; exact Hne |]. split; [field; exact Hne |].
  cbn [nadd nsub nmul ndiv nopp real_Number].
  assert (Ex : (x - (- fx * d + b * gy) / (a * d - b * c)
                = x + (d * fx - b * gy) / (a * d - b * c))%R)
    by (field; exact Hne).
  assert (Ey : (y - (- a * gy + fx * c) / (a * d - b * c)
                = y + (a * gy - c * fx) / (a * d - b * c))%R)
    by (field; exact Hne).
  rewrite Ex, Ey.
  match goal with |- (if ?test then _ else _) = _ => destruct test end;
    reflexivity.
Qed.

(** C2 at its failing inputs, in binary64.  For [f = x], [g = y], whose
    only zero is [(0, 0)], the refinement of [(1, 1)] with step [0.5]
    doubles the distance at each of its three passes and returns
    [(8, 8)].  Through [findEquilibria] on [[-2, 2]^2] with density 8,
    the candidates [(+-0.667, +-0.667)] of the system
    [x^2 + y^2 - 1 = 0], [x - y = 0] are returned as
    [(+-0.341, +-0.341)], farther from the equilibria
    [(+-0.7071, +-0.7071)] than before the refinement. *)
Lemma C2_newtonPolish_moves_away_binary64 :
  newtonPolish radialSystem (Vec2.mk 1 1)%float 0.5%float = (Vec2.mk 8 8)%float
  /\ dedup (F64.min (4 / 8) (4 / 8) * 0.75)%float
           (candidatesOf
              (zeroContourSegments smallView
                 (fun x y => System.f circleLineSystem x y []) 8 8)
              (zeroContourSegments smallView
                 (fun x y => System.g circleLineSystem x y []) 8 8)) []
     = [ (Vec2.mk (-0.66666666666666718) (-0.66666666666666619))%float;
         (Vec2.mk 0.66666666666666607 0.66666666666666718)%float ]
  /\ findEquilibria smallView circleLineSystem (Some 8)
     = [ (Vec2.mk (-0.34113372093023653) (-0.34113372093022853))%float;
         (Vec2.mk 0.34113372093022754 0.34113372093023642)%float ].
Proof. vm_compute. repeat split. Qed.

(** * Further properties of [src/lib.ts] and of the application *)

(** ** BoundsExpander: [Math.min] and [Math.max] on numbers *)

Lemma float_leb_refl (a : float) :
  PrimFloat.is_nan a = false -> PrimFloat.leb a a = true.
Proof.
  intros Ha. apply float_is_nan_false in Ha.
  rewrite FloatAxioms.leb_spec. unfold SFleb. rewrite Ha. reflexivity.
Qed.

Lemma F64_min_spec (a b : float) :
  PrimFloat.is_nan a = false -> PrimFloat.is_nan b = false ->
  PrimFloat.is_nan (F64.min a b) = false
  /\ PrimFloat.leb (F64.min a b) a = true
  /\ PrimFloat.leb (F64.min a b) b = true.
Proof.
  intros Ha Hb. unfold F64.min. rewrite Ha, Hb. cbn [orb].
  destruct (PrimFloat.ltb a b) eqn:Hab.
  { auto using float_leb_refl, float_ltb_leb. }
  destruct (PrimFloat.ltb b a) eqn:Hba.
  { auto using float_leb_refl, float_ltb_leb. }
  destruct (PrimFloat.get_sign a);
    auto using float_leb_refl, float_not_ltb_geb.
Qed.

Lemma F64_max_spec (a b : float) :
  PrimFloat.is_nan a = false -> PrimFloat.is_nan b = false ->
  PrimFloat.is_nan (F64_max a b) = false
  /\ PrimFloat.leb a (F64_max a b) = true
  /\ PrimFloat.leb b (F64_max a b) = true.
Proof.
  intros Ha Hb. unfold F64_max. rewrite Ha, Hb. cbn [orb].
  destruct (PrimFloat.ltb a b) eqn:Hab.
  { auto using float_leb_refl, float_ltb_leb. }
  destruct (PrimFloat.ltb b a) eqn:Hba.
  { auto using float_leb_refl, float_ltb_leb. }
  destruct (PrimFloat.get_sign a);
    auto using float_leb_refl, float_not_ltb_geb.
Qed.

(** X1 (binary64): the integration bounds contain the seed.  Whenever the
    seed's coordinates and the four expanded bounds are numbers, the
    rectangle returned by [integrationBoundsFor] has bounds that are
    numbers and the seed lies inside it (inclusive), wherever the seed is
    with respect to the view. *)
Theorem integrationBounds_contain_seed_binary64
    (T : Transform.t float) (seed : Vec2.t float) (factor : float) :
  boundsNotNaN (expandedBoundsFromView T factor) ->
  PrimFloat.is_nan (Vec2.x seed) = false ->
  PrimFloat.is_nan (Vec2.y seed) = false ->
  boundsNotNaN (integrationBoundsFor T seed factor)
  /\ insideRect (integrationBoundsFor T seed factor) seed = true.
Proof.
  intros (Hx0 & Hx1 & Hy0 & Hy1) Hsx Hsy.
  unfold integrationBoundsFor, boundsNotNaN, insideRect.
  cbn [Transform.xmin Transform.xmax Transform.ymin Transform.ymax
       nmin nmax nleb float_Number float_NumberMax].
  destruct (F64_min_spec _ _ Hx0 Hsx) as (Hn1 & _ & Hle1).
  destruct (F64_max_spec _ _ Hx1 Hsx) as (Hn2 & _ & Hle2).
  destruct (F64_min_spec _ _ Hy0 Hsy) as (Hn3 & _ & Hle3).
  destruct (F64_max_spec _ _ Hy1 Hsy) as (Hn4 & _ & Hle4).
  split; [repeat split; assumption |].
  rewrite Hle1, Hle2, Hle3, Hle4. reflexivity.
Qed.

Lemma integrationBounds_contain_seed_witness :
  boundsNotNaN (integrationBoundsFor defaultView (Vec2.mk 50 (-70))%float 3%float)
  /\ insideRect (integrationBoundsFor defaultView (Vec2.mk 50 (-70))%float 3%float)
       (Vec2.mk 50 (-70))%float = true.
Proof.
  apply (integrationBounds_contain_seed_binary64 defaultView
           (Vec2.mk 50 (-70))%float 3%float);
    vm_compute; repeat split.
Defined.

(** The literals [2], [6] and [0.5] as reals. *)
Lemma Exact_of_float_2 : Exact.of_float 2 = 2%R.
Proof.
  unfold Exact.of_float.
  replace (Prim2SF 2) with (S754_finite false 4503599627370496 (-51))
    by (vm_compute; reflexivity).
  cbn [powerRZ]. rewrite pow_IZR, positive_nat_Z.
  change (2 ^ 51)%Z with 2251799813685248%Z. lra.
Qed.

Lemma Exact_of_float_6 : Exact.of_float 6 = 6%R.
Proof.
  unfold Exact.of_float.
  replace (Prim2SF 6) with (S754_finite false 6755399441055744 (-50))
    by (vm_compute; reflexivity).
  cbn [powerRZ]. rewrite pow_IZR, positive_nat_Z.
  change (2 ^ 50)%Z with 1125899906842624%Z. lra.
Qed.

Lemma Exact_of_float_half : Exact.of_float 0.5 = (1 / 2)%R.
Proof.
  unfold Exact.of_float.
  replace (Prim2SF 0.5) with (S754_finite false 4503599627370496 (-53))
    by (vm_compute; reflexivity).
  cbn [powerRZ]. rewrite pow_IZR, positive_nat_Z.
  change (2 ^ 53)%Z with 9007199254740992%Z. lra.
Qed.

(** X2 (exact arithmetic): the expanded rectangle has the centre of the
    view and its extents multiplied by [factor]; and for a view with
    [xmin < xmax], [ymin < ymax] and [factor >= 1], the integration
    bounds keep [xmin < xmax] and [ymin < ymax], contain the whole view
    and contain the seed. *)
Theorem integrationBounds_exact
    (T : Transform.t R) (seed : Vec2.t R) (factor : R) :
  (Transform.xmin T < Transform.xmax T)%R ->
  (Transform.ymin T < Transform.ymax T)%R ->
  (1 <= factor)%R ->
  let E := expandedBoundsFromView T factor in
  let B := integrationBoundsFor T seed factor in
  (Transform.xmin E + Transform.xmax E = Transform.xmin T + Transform.xmax T)%R
  /\ (Transform.ymin E + Transform.ymax E = Transform.ymin T + Transform.ymax T)%R
  /\ (Transform.xmax E - Transform.xmin E
      = (Transform.xmax T - Transform.xmin T) * factor)%R
  /\ (Transform.ymax E - Transform.ymin E
      = (Transform.ymax T - Transform.ymin T) * factor)%R
  /\ validRect B
  /\ (Transform.xmin B <= Transform.xmin T)%R
  /\ (Transform.xmax T <= Transform.xmax B)%R
  /\ (Transform.ymin B <= Transform.ymin T)%R
  /\ (Transform.ymax T <= Transform.ymax B)%R
  /\ insideRect B seed = true.
Proof.
  intros Hx Hy Hf. destruct T as [x0 x1 y0 y1], seed as [sx sy].
  cbv zeta. unfold integrationBoundsFor, expandedBoundsFromView, validRect.
  change (@lit R _ 2%float) with (Exact.of_float 2). rewrite Exact_of_float_2.
  cbn [Transform.xmin Transform.xmax Transform.ymin Transform.ymax
       Vec2.x Vec2.y nadd nsub nmul ndiv nmin nmax nltb
       real_Number real_NumberMax] in *.
  pose proof (Rmin_l ((x0 + x1) / 2 - (x1 - x0) / 2 * factor) sx).
  pose proof (Rmin_r ((x0 + x1) / 2 - (x1 - x0) / 2 * factor) sx).
  pose proof (Rmax_l ((x0 + x1) / 2 + (x1 - x0) / 2 * factor) sx).
  pose proof (Rmax_r ((x0 + x1) / 2 + (x1 - x0) / 2 * factor) sx).
  pose proof (Rmin_l ((y0 + y1) / 2 - (y1 - y0) / 2 * factor) sy).
  pose proof (Rmin_r ((y0 + y1) / 2 - (y1 - y0) / 2 * factor) sy).
  pose proof (Rmax_l ((y0 + y1) / 2 + (y1 - y0) / 2 * factor) sy).
  pose proof (Rmax_r ((y0 + y1) / 2 + (y1 - y0) / 2 * factor) sy).
  assert (Hwx : (0 <= (x1 - x0) / 2 * (factor - 1))%R) by nra.
  assert (Hwy : (0 <= (y1 - y0) / 2 * (factor - 1))%R) by nra.
  split; [lra |]. split; [lra |]. split; [lra |]. split; [lra |].
  split; [split; apply Exact_ltb_true; lra |].
  split; [lra |]. split; [lra |]. split; [lra |]. split; [lra |].
  apply insideRect_exact; cbn [Transform.xmin Transform.xmax Transform.ymin
                                Transform.ymax Vec2.x Vec2.y]; lra.
Qed.

Lemma integrationBounds_exact_witness :
  let T : Transform.t R := (Transform.mk 0 2 0 2)%R in
  let seed : Vec2.t R := (Vec2.mk 9 (-9))%R in
  let E := expandedBoundsFromView T 3%R in
  let B := integrationBoundsFor T seed 3%R in
  (Transform.xmin E + Transform.xmax E = Transform.xmin T + Transform.xmax T)%R
  /\ (Transform.ymin E + Transform.ymax E = Transform.ymin T + Transform.ymax T)%R
  /\ (Transform.xmax E - Transform.xmin E
      = (Transform.xmax T - Transform.xmin T) * 3)%R
  /\ (Transform.ymax E - Transform.ymin E
      = (Transform.ymax T - Transform.ymin T) * 3)%R
  /\ validRect B
  /\ (Transform.xmin B <= Transform.xmin T)%R
  /\ (Transform.xmax T <= Transform.xmax B)%R
  /\ (Transform.ymin B <= Transform.ymin T)%R
  /\ (Transform.ymax T <= Transform.ymax B)%R
  /\ insideRect B seed = true.
Proof.
  apply (integrationBounds_exact (Transform.mk 0 2 0 2)%R (Vec2.mk 9 (-9))%R 3%R);
    cbn [Transform.xmin Transform.xmax Transform.ymin Transform.ymax]; lra.
Defined.

(** Every point pushed by the loop of [rk4] is finite and inside bounds
    that are numbers. *)
Lemma rk4_tail_acceptable (sys : System.t float) (p0 : Vec2.t float)
    (dt : float) (steps : nat) (wb : Transform.t float) :
  boundsNotNaN wb ->
  Forall (fun p => acceptable wb p = true) (tl (rk4 sys p0 dt steps wb)).
Proof.
  intros Hwb.
  destruct (rk4_chain sys dt wb steps p0) as [Hchain _].
  destruct (rk4_head sys p0 dt steps wb) as [rest Hrest].
  rewrite Hrest in *. cbn [tl].
  apply Forall_forall. intros q Hq.
  destruct (In_nth_error _ _ Hq) as [i Hi].
  assert (Hp : exists p, nth_error (p0 :: rest) i = Some p).
  { destruct (nth_error (p0 :: rest) i) eqn:E; [eauto |].
    apply nth_error_None in E. cbn [length] in E.
    assert (i < length rest) by (apply nth_error_Some; congruence). lia. }
  destruct Hp as [p Hp].
  destruct (Hchain i p q Hp Hi) as [_ Hok].
  rewrite (leavesBounds_not_acceptable wb _ _ Hwb) in Hok.
  destruct q as [qx qy]. cbn [Vec2.x Vec2.y] in Hok.
  apply negb_false_iff in Hok. exact Hok.
Qed.

(** X3 (binary64): the trajectory the application computes stays in its
    bounds from its first point on.  With the bounds
    [integrationBoundsFor(T, seed, factor)], a finite seed and expanded
    bounds that are numbers, every point of both sequences returned by
    [integrateBidirectional], the seed included, is finite and within the
    bounds. *)
Theorem seeded_trajectory_within_bounds_binary64
    (sys : System.t float) (T : Transform.t float) (seed : Vec2.t float)
    (factor dt : float) (steps : nat) :
  boundsNotNaN (expandedBoundsFromView T factor) ->
  PrimFloat.is_finite (Vec2.x seed) = true ->
  PrimFloat.is_finite (Vec2.y seed) = true ->
  let bounds := integrationBoundsFor T seed factor in
  Forall (fun p => acceptable bounds p = true)
         (fst (integrateBidirectional sys seed dt steps bounds))
  /\ Forall (fun p => acceptable bounds p = true)
            (snd (integrateBidirectional sys seed dt steps bounds)).
Proof.
  intros Hexp Hfx Hfy bounds.
  destruct (integrationBounds_contain_seed_binary64 T seed factor Hexp
              (float_is_finite_not_nan _ Hfx) (float_is_finite_not_nan _ Hfy))
    as [Hnum Hin].
  fold bounds in Hnum, Hin.
  assert (Hseed : acceptable bounds seed = true).
  { unfold acceptable. cbn [isFinite float_Number]. rewrite Hfx, Hfy, Hin.
    reflexivity. }
  unfold integrateBidirectional. cbn [fst snd].
  split.
  - pose proof (rk4_tail_acceptable sys seed dt steps bounds Hnum) as Htl.
    destruct (rk4_head sys seed dt steps bounds) as [rest Hrest].
    rewrite Hrest in *. constructor; assumption.
  - pose proof (rk4_tail_acceptable sys seed (nopp dt) steps bounds Hnum) as Htl.
    destruct (rk4_head sys seed (nopp dt) steps bounds) as [rest Hrest].
    rewrite Hrest in *. constructor; assumption.
Qed.

Lemma seeded_trajectory_within_bounds_witness :
  let bounds := integrationBoundsFor defaultView (Vec2.mk 50 (-70))%float 3%float in
  Forall (fun p => acceptable bounds p = true)
         (fst (integrateBidirectional radialSystem (Vec2.mk 50 (-70))%float
                 0.1%float 4 bounds))
  /\ Forall (fun p => acceptable bounds p = true)
            (snd (integrateBidirectional radialSystem (Vec2.mk 50 (-70))%float
                    0.1%float 4 bounds)).
Proof.
  apply (seeded_trajectory_within_bounds_binary64 radialSystem defaultView
           (Vec2.mk 50 (-70))%float 3%float 0.1%float 4);
    vm_compute; repeat split.
Defined.

(** ** Integrator, further properties *)

(** X4: the step cap only truncates.  For every input (in either reading
    of [number]), the result of [rk4] with [n] steps is a prefix of the
    result with [n + m] steps, and when the run with [n] steps stopped
    early (fewer than [n + 1] points) more steps change nothing. *)
Theorem rk4_more_steps_extend {N : Type} `{Number N}
    (sys : System.t N) (dt : N) (wb : Transform.t N) (n m : nat)
    (p0 : Vec2.t N) :
  (exists more, rk4 sys p0 dt (n + m) wb = rk4 sys p0 dt n wb ++ more)
  /\ (length (rk4 sys p0 dt n wb) < S n ->
      rk4 sys p0 dt (n + m) wb = rk4 sys p0 dt n wb).
Proof.
  revert p0. induction n as [| n IH]; intros p0.
  - split.
    + destruct (rk4_head sys p0 dt (0 + m) wb) as [rest ->].
      exists rest. reflexivity.
    + cbn. lia.
  - cbn [Nat.add]. rewrite !rk4_unfold. cbv zeta.
    destruct (leavesBounds wb _ _).
    + split; [exists []; reflexivity | reflexivity].
    + destruct (IH (stepPoint sys dt p0)) as [[more Hmore] Hstop]. split.
      * exists more. rewrite Hmore. reflexivity.
      * intros Hlen. cbn [length] in Hlen. rewrite Hstop by lia. reflexivity.
Qed.

Lemma float_opp_involutive (a : float) : PrimFloat.opp (PrimFloat.opp a) = a.
Proof.
  apply Prim2SF_inj. rewrite !opp_spec.
  destruct (Prim2SF a) as [s | s | | s m e]; cbn;
    rewrite ?negb_involutive; reflexivity.
Qed.

(** X5: reversing time swaps the two sequences.  In binary64, and in
    exact arithmetic, [integrateBidirectional] with [-dt] returns the
    backward sequence of the run with [dt] as its forward sequence and
    the forward one as its backward sequence. *)
Theorem integrateBidirectional_negated_step :
  (forall (sys : System.t float) (seed : Vec2.t float) (dt : float)
          (steps : nat) (bounds : Transform.t float),
      integrateBidirectional sys seed (PrimFloat.opp dt) steps bounds
      = (snd (integrateBidirectional sys seed dt steps bounds),
         fst (integrateBidirectional sys seed dt steps bounds)))
  /\ (forall (sys : System.t R) (seed : Vec2.t R) (dt : R)
             (steps : nat) (bounds : Transform.t R),
        integrateBidirectional sys seed (- dt)%R steps bounds
        = (snd (integrateBidirectional sys seed dt steps bounds),
           fst (integrateBidirectional sys seed dt steps bounds))).
Proof.
  split; intros sys seed dt steps bounds;
    unfold integrateBidirectional; cbn [fst snd nopp float_Number real_Number].
  - rewrite float_opp_involutive. reflexivity.
  - rewrite Ropp_involutive. reflexivity.
Qed.

(** The sample computed from an exact equilibrium is the equilibrium. *)
Lemma stepPoint_equilibrium_exact (sys : System.t R) (dt : R) (p0 : Vec2.t R) :
  System.f sys (Vec2.x p0) (Vec2.y p0) (System.params sys) = 0%R ->
  System.g sys (Vec2.x p0) (Vec2.y p0) (System.params sys) = 0%R ->
  stepPoint sys dt p0 = p0.
Proof.
  destruct p0 as [x y]. cbn [Vec2.x Vec2.y]. intros Hf Hg.
  unfold stepPoint, rk4Step. cbn [Vec2.x Vec2.y].
  cbn [nadd nmul ndiv real_Number].
  rewrite Hf, Hg.
  replace (x + lit 0.5 * dt * 0)%R with x by ring.
  replace (y + lit 0.5 * dt * 0)%R with y by ring.
  rewrite Hf, Hg.
  replace (x + lit 0.5 * dt * 0)%R with x by ring.
  replace (y + lit 0.5 * dt * 0)%R with y by ring.
  rewrite Hf, Hg.
  replace (x + dt * 0)%R with x by ring.
  replace (y + dt * 0)%R with y by ring.
  rewrite Hf, Hg.
  f_equal; ring.
Qed.

(** X6 (exact arithmetic): a trajectory seeded at an equilibrium stays
    there.  If [f] and [g] vanish at [p0], every point returned by [rk4]
    is [p0]; and when [p0] passes the test of the loop, all [steps + 1]
    points are returned. *)
Theorem rk4_at_equilibrium_exact
    (sys : System.t R) (p0 : Vec2.t R) (dt : R) (steps : nat)
    (wb : Transform.t R) :
  System.f sys (Vec2.x p0) (Vec2.y p0) (System.params sys) = 0%R ->
  System.g sys (Vec2.x p0) (Vec2.y p0) (System.params sys) = 0%R ->
  Forall (fun p => p = p0) (rk4 sys p0 dt steps wb)
  /\ (leavesBounds wb (Vec2.x p0) (Vec2.y p0) = false ->
      rk4 sys p0 dt steps wb = repeat p0 (steps + 1)).
Proof.
  intros Hf Hg.
  pose proof (stepPoint_equilibrium_exact sys dt p0 Hf Hg) as Hstep.
  induction steps as [| steps [IHall IHfull]].
  - split; [repeat constructor | reflexivity].
  - rewrite rk4_unfold. cbv zeta. rewrite Hstep.
    destruct (leavesBounds wb (Vec2.x p0) (Vec2.y p0)).
    + split; [repeat constructor | discriminate].
    + split.
      * constructor; [reflexivity | exact IHall].
      * intros _. rewrite IHfull by reflexivity. reflexivity.
Qed.

Lemma rk4_at_equilibrium_witness :
  let sys : System.t R :=
    System.mk (fun x y _ => (x * (1 - y))%R) (fun x y _ => (y * (x - 1))%R) [] in
  let wb : Transform.t R := (Transform.mk 0 2 0 2)%R in
  Forall (fun p => p = (Vec2.mk 1 1)%R) (rk4 sys (Vec2.mk 1 1)%R (1 / 10)%R 5 wb)
  /\ (leavesBounds wb 1%R 1%R = false ->
      rk4 sys (Vec2.mk 1 1)%R (1 / 10)%R 5 wb = repeat (Vec2.mk 1 1)%R (5 + 1)).
Proof.
  apply (rk4_at_equilibrium_exact
           (System.mk (fun x y _ => (x * (1 - y))%R)
                      (fun x y _ => (y * (x - 1))%R) [])
           (Vec2.mk 1 1)%R (1 / 10)%R 5 (Transform.mk 0 2 0 2)%R);
    cbn [System.f System.g System.params Vec2.x Vec2.y]; ring.
Defined.

(** X7 (exact arithmetic): the RK4 stencil is fourth-order on linear
    systems.  For [dx/dt = a x], [dy/dt = b y], one turn of the loop of
    [rk4] multiplies [x] by the degree-4 Taylor polynomial of
    [exp(a dt)] and [y] by that of [exp(b dt)]. *)
Theorem rk4Step_linear_exact (a b dt x y : R) (params : Params R) :
  rk4Step (System.mk (fun x y _ => (a * x)%R) (fun x y _ => (b * y)%R) params)
          dt x y
  = ((x * taylor4 (a * dt))%R, (y * taylor4 (b * dt))%R).
Proof.
  unfold rk4Step, taylor4. cbn [System.f System.g System.params].
  change (@lit R _ 0.5%float) with (Exact.of_float 0.5).
  change (@lit R _ 2%float) with (Exact.of_float 2).
  change (@lit R _ 6%float) with (Exact.of_float 6).
  rewrite Exact_of_float_half, Exact_of_float_2, Exact_of_float_6.
  cbn [nadd nmul ndiv real_Number].
  f_equal; field.
Qed.

(** ** ViewTransform, further properties, and the handlers of the
    application that drive it *)

(** X8 (exact arithmetic): [toScreen] inverts [toWorld].  For [w > 0],
    [h > 0] and a rectangle with [xmin < xmax], [ymin < ymax], mapping a
    device point to the world and back returns the point. *)
Theorem toScreen_inverts_toWorld_exact
    (T : Transform.t R) (w h : R) (s : Vec2.t R) :
  (0 < w)%R -> (0 < h)%R ->
  (Transform.xmin T < Transform.xmax T)%R ->
  (Transform.ymin T < Transform.ymax T)%R ->
  Transform.toScreen T w h (Transform.toWorld T w h s) = s.
Proof.
  intros Hw Hh Hx Hy. destruct T as [x0 x1 y0 y1], s as [sx sy].
  unfold Transform.toWorld, Transform.toScreen. cbn in *.
  f_equal; field; lra.
Qed.

Lemma toScreen_inverts_toWorld_witness :
  Transform.toScreen (Transform.mk 0 4 0 2)%R 8%R 6%R
    (Transform.toWorld (Transform.mk 0 4 0 2)%R 8%R 6%R (Vec2.mk 3 5)%R)
  = (Vec2.mk 3 5)%R.
Proof.
  apply (toScreen_inverts_toWorld_exact (Transform.mk 0 4 0 2) 8 6 (Vec2.mk 3 5))%R;
    cbn; lra.
Defined.

(** X9 (exact arithmetic): [toScreen] maps the view onto the surface with
    the y axis flipped.  For [w > 0], [h > 0] and [xmin < xmax],
    [ymin < ymax]: the corner [(xmin, ymax)] goes to [(0, 0)], the corner
    [(xmax, ymin)] to [(w, h)], and a point inside the rectangle goes to
    a point with [0 <= sx <= w] and [0 <= sy <= h]. *)
Theorem toScreen_maps_view_to_surface_exact
    (T : Transform.t R) (w h : R) (p : Vec2.t R) :
  (0 < w)%R -> (0 < h)%R ->
  (Transform.xmin T < Transform.xmax T)%R ->
  (Transform.ymin T < Transform.ymax T)%R ->
  Transform.toScreen T w h (Vec2.mk (Transform.xmin T) (Transform.ymax T))
  = Vec2.mk 0%R 0%R
  /\ Transform.toScreen T w h (Vec2.mk (Transform.xmax T) (Transform.ymin T))
     = Vec2.mk w h
  /\ (insideRect T p = true ->
      (0 <= Vec2.x (Transform.toScreen T w h p) <= w)%R
      /\ (0 <= Vec2.y (Transform.toScreen T w h p) <= h)%R).
Proof.
  intros Hw Hh Hx Hy. destruct T as [x0 x1 y0 y1], p as [px py].
  unfold Transform.toScreen, insideRect. cbn in *.
  split; [f_equal; field; lra |]. split; [f_equal; field; lra |].
  rewrite !andb_true_iff, !Exact_leb_true. intros [[[H1 H2] H3] H4].
  assert (Hrx : (0 < / (x1 - x0))%R) by (apply Rinv_0_lt_compat; lra).
  assert (Hry : (0 < / (y1 - y0))%R) by (apply Rinv_0_lt_compat; lra).
  assert (Hux : (0 <= (px - x0) / (x1 - x0) <= 1)%R).
  { split.
    - apply Rmult_le_pos; lra.
    - apply (Rmult_le_reg_r (x1 - x0)); [lra |].
      unfold Rdiv. rewrite Rmult_assoc, Rinv_l by lra. lra. }
  assert (Huy : (0 <= (py - y0) / (y1 - y0) <= 1)%R).
  { split.
    - apply Rmult_le_pos; lra.
    - apply (Rmult_le_reg_r (y1 - y0)); [lra |].
      unfold Rdiv. rewrite Rmult_assoc, Rinv_l by lra. lra. }
  split; split; nra.
Qed.

Lemma toScreen_maps_view_to_surface_witness :
  Transform.toScreen (Transform.mk 0 4 0 2)%R 8%R 6%R (Vec2.mk 0 2)%R
  = Vec2.mk 0%R 0%R
  /\ Transform.toScreen (Transform.mk 0 4 0 2)%R 8%R 6%R (Vec2.mk 4 0)%R
     = Vec2.mk 8%R 6%R
  /\ (insideRect (Transform.mk 0 4 0 2)%R (Vec2.mk 1 1)%R = true ->
      (0 <= Vec2.x (Transform.toScreen (Transform.mk 0 4 0 2)%R 8%R 6%R
                      (Vec2.mk 1 1)%R) <= 8)%R
      /\ (0 <= Vec2.y (Transform.toScreen (Transform.mk 0 4 0 2)%R 8%R 6%R
                         (Vec2.mk 1 1)%R) <= 6)%R).
Proof.
  apply (toScreen_maps_view_to_surface_exact
           (Transform.mk 0 4 0 2) 8 6 (Vec2.mk 1 1))%R; cbn; lra.
Defined.

(** X10 (exact arithmetic): [zoom] keeps its centre in place and divides
    the extents by the factor.  For [xmin < xmax], [ymin < ymax],
    [factor > 0], [w > 0], [h > 0]: the device position of [(cx, cy)] is
    the same before and after [zoom(cx, cy, factor)], and the new width
    and height are the old ones divided by [factor]. *)
Theorem zoom_fixes_centre_exact
    (T : Transform.t R) (cx cy factor w h : R) :
  (Transform.xmin T < Transform.xmax T)%R ->
  (Transform.ymin T < Transform.ymax T)%R ->
  (0 < factor)%R ->
  let Z := Transform.zoom T cx cy factor in
  Transform.toScreen Z w h (Vec2.mk cx cy) = Transform.toScreen T w h (Vec2.mk cx cy)
  /\ (Transform.xmax Z - Transform.xmin Z
      = (Transform.xmax T - Transform.xmin T) / factor)%R
  /\ (Transform.ymax Z - Transform.ymin Z
      = (Transform.ymax T - Transform.ymin T) / factor)%R.
Proof.
  intros Hx Hy Hf. destruct T as [x0 x1 y0 y1].
  cbv zeta. unfold Transform.zoom, Transform.toScreen. cbn in *.
  split; [f_equal; field; lra |]. split; field; lra.
Qed.

Lemma zoom_fixes_centre_witness :
  let Z := Transform.zoom (Transform.mk 0 4 0 2)%R 1%R 1%R 2%R in
  Transform.toScreen Z 8%R 6%R (Vec2.mk 1 1)%R
  = Transform.toScreen (Transform.mk 0 4 0 2)%R 8%R 6%R (Vec2.mk 1 1)%R
  /\ (Transform.xmax Z - Transform.xmin Z = (4 - 0) / 2)%R
  /\ (Transform.ymax Z - Transform.ymin Z = (2 - 0) / 2)%R.
Proof.
  apply (zoom_fixes_centre_exact (Transform.mk 0 4 0 2) 1 1 2 8 6)%R; cbn; lra.
Defined.

Lemma Exact_lit_1_1_pos : (0 < Exact.of_float 1.1)%R.
Proof. eapply Exact_of_float_pos. vm_compute. reflexivity. Qed.

(** X11 (exact arithmetic): a wheel zoom keeps the world point under the
    cursor.  When the handler's view is the current state, has
    [xmin < xmax] and [ymin < ymax], and the canvas has positive width and
    height, the world point at the event's client position is the same
    in the view [onWheel] produces as before, whichever way the wheel
    turned. *)
Theorem onWheel_keeps_point_under_cursor_exact
    (T : Transform.t R)
    (rectLeft rectTop rectWidth rectHeight clientX clientY deltaY : R) :
  (Transform.xmin T < Transform.xmax T)%R ->
  (Transform.ymin T < Transform.ymax T)%R ->
  (0 < rectWidth)%R -> (0 < rectHeight)%R ->
  clientToWorld
    (onWheel T T rectLeft rectTop rectWidth rectHeight clientX clientY deltaY)
    rectLeft rectTop rectWidth rectHeight clientX clientY
  = clientToWorld T rectLeft rectTop rectWidth rectHeight clientX clientY.
Proof.
  intros Hx Hy Hw Hh. destruct T as [x0 x1 y0 y1].
  unfold clientToWorld, onWheel. cbv zeta.
  assert (Hfactor : (0 < (if nltb deltaY (lit 0) then lit 1.1
                          else ndiv (lit 1) (lit 1.1)))%R).
  { change (@lit R _ 1.1%float) with (Exact.of_float 1.1).
    change (@lit R _ 1%float) with (Exact.of_float 1).
    rewrite Exact_of_float_1. pose proof Exact_lit_1_1_pos as Hpos.
    destruct (nltb deltaY (lit 0)); [exact Hpos |].
    cbn [ndiv real_Number]. apply Rdiv_lt_0_compat; lra. }
  revert Hfactor.
  generalize (if nltb deltaY (lit 0) then lit 1.1 else ndiv (lit 1) (lit 1.1)).
  intros factor Hfactor.
  unfold Transform.zoom, Transform.toWorld. cbn in *.
  f_equal; field; lra.
Qed.

Lemma onWheel_keeps_point_under_cursor_witness :
  clientToWorld
    (onWheel (Transform.mk 0 4 0 2)%R (Transform.mk 0 4 0 2)%R
             10%R 20%R 8%R 6%R 12%R 23%R (-1)%R)
    10%R 20%R 8%R 6%R 12%R 23%R
  = clientToWorld (Transform.mk 0 4 0 2)%R 10%R 20%R 8%R 6%R 12%R 23%R.
Proof.
  apply (onWheel_keeps_point_under_cursor_exact
           (Transform.mk 0 4 0 2) 10 20 8 6 12 23 (-1))%R; cbn; lra.
Defined.

(** X12 (exact arithmetic): a drag moves the picture with the pointer.
    When the handler's view is the current state, has [xmin < xmax] and
    [ymin < ymax], and the canvas has positive width and height, the
    device position of every world point in the view [onMouseMove]
    produces is its previous position moved by the pointer's
    displacement [(clientX - last.x, clientY - last.y)]. *)
Theorem onMouseMoveDrag_follows_pointer_exact
    (T : Transform.t R) (rectWidth rectHeight clientX clientY lastX lastY : R)
    (p : Vec2.t R) :
  (Transform.xmin T < Transform.xmax T)%R ->
  (Transform.ymin T < Transform.ymax T)%R ->
  (0 < rectWidth)%R -> (0 < rectHeight)%R ->
  Transform.toScreen
    (onMouseMoveDrag T T rectWidth rectHeight clientX clientY lastX lastY)
    rectWidth rectHeight p
  = Vec2.mk
      (Vec2.x (Transform.toScreen T rectWidth rectHeight p) + (clientX - lastX))%R
      (Vec2.y (Transform.toScreen T rectWidth rectHeight p) + (clientY - lastY))%R.
Proof.
  intros Hx Hy Hw Hh. destruct T as [x0 x1 y0 y1], p as [px py].
  unfold onMouseMoveDrag, Transform.pan, Transform.toScreen. cbn in *.
  f_equal; field; repeat split; nra.
Qed.

Lemma onMouseMoveDrag_follows_pointer_witness :
  Transform.toScreen
    (onMouseMoveDrag (Transform.mk 0 4 0 2)%R (Transform.mk 0 4 0 2)%R
                     8%R 6%R 15%R 9%R 12%R 10%R)
    8%R 6%R (Vec2.mk 1 1)%R
  = Vec2.mk
      (Vec2.x (Transform.toScreen (Transform.mk 0 4 0 2)%R 8%R 6%R (Vec2.mk 1 1)%R)
       + (15 - 12))%R
      (Vec2.y (Transform.toScreen (Transform.mk 0 4 0 2)%R 8%R 6%R (Vec2.mk 1 1)%R)
       + (9 - 10))%R.
Proof.
  apply (onMouseMoveDrag_follows_pointer_exact
           (Transform.mk 0 4 0 2) 8 6 15 9 12 10 (Vec2.mk 1 1))%R; cbn; lra.
Defined.



(** ** Contour extraction, further properties *)

Lemma specEdgePairs_length (c : Z) : length (specEdgePairs c) <= 2.
Proof.
  unfold specEdgePairs.
  repeat match goal with
         | |- context [if ?test then _ else _] => destruct test
         end; cbn; lia.
Qed.

Lemma flat_map_length_le {A B : Type} (h : A -> list B) (k : nat) (l : list A) :
  (forall a, length (h a) <= k) -> length (flat_map h l) <= k * length l.
Proof.
  intros Hk. induction l as [| a l IH]; cbn; [lia |].
  rewrite length_app. specialize (Hk a). lia.
Qed.

Lemma flat_map_nil {A B : Type} (h : A -> list B) (l : list A) :
  (forall a, h a = []) -> flat_map h l = [].
Proof.
  intros Hh. induction l as [| a l IH]; cbn; [reflexivity |].
  rewrite Hh, IH. reflexivity.
Qed.

(** X14: a grid of [cols] by [rows] cells yields at most two segments per
    cell.  For every input (in either reading of [number]), the result of
    [zeroContourSegments] has at most [2 * cols * rows] segments; with no
    column or no row it is empty. *)
Theorem zeroContourSegments_size {N : Type} `{Number N}
    (T : Transform.t N) (field : ScalarField) (cols rows : nat) :
  length (zeroContourSegments T field cols rows) <= 2 * cols * rows.
Proof.
  rewrite zeroContourSegments_by_table.
  assert (Hrow : forall j,
             length (flat_map (fun i => specCell T field cols rows j i)
                              (seq 0 cols)) <= 2 * cols).
  { intros j.
    rewrite <- (length_seq cols 0) at 2. apply flat_map_length_le.
    intros i. unfold specCell. cbv zeta. rewrite length_map.
    apply specEdgePairs_length. }
  pose proof (flat_map_length_le
                (fun j => flat_map (fun i => specCell T field cols rows j i)
                                   (seq 0 cols))
                (2 * cols) (seq 0 rows) Hrow) as Hall.
  rewrite length_seq in Hall. exact Hall.
Qed.

Lemma flat_map_nil_in {A B : Type} (h : A -> list B) (l : list A) :
  (forall a, In a l -> h a = []) -> flat_map h l = [].
Proof.
  intros Hh. induction l as [| a l IH]; cbn; [reflexivity |].
  rewrite (Hh a (or_introl eq_refl)), IH; [reflexivity |].
  intros b Hb. apply Hh. right. exact Hb.
Qed.

(** Cells whose four corners answer the test [> 0] alike emit nothing. *)
Lemma zeroContourSegments_uniform_bits {N : Type} `{Number N}
    (T : Transform.t N) (field : ScalarField) (cols rows : nat) (positive : bool) :
  (forall j i, j <= rows -> i <= cols ->
     nltb (lit 0) (signedEps (field (nodeX T cols i) (nodeY T rows j))) = positive) ->
  zeroContourSegments T field cols rows = [].
Proof.
  intros Hsign. rewrite zeroContourSegments_by_table.
  apply flat_map_nil_in. intros j Hj. apply in_seq in Hj.
  apply flat_map_nil_in. intros i Hi. apply in_seq in Hi.
  unfold specCell, specCode. cbv zeta.
  change (sampleAt T field cols rows j i)
    with (signedEps (field (nodeX T cols i) (nodeY T rows j))).
  change (sampleAt T field cols rows j (i + 1))
    with (signedEps (field (nodeX T cols (i + 1)) (nodeY T rows j))).
  change (sampleAt T field cols rows (j + 1) (i + 1))
    with (signedEps (field (nodeX T cols (i + 1)) (nodeY T rows (j + 1)))).
  change (sampleAt T field cols rows (j + 1) i)
    with (signedEps (field (nodeX T cols i) (nodeY T rows (j + 1)))).
  rewrite !Hsign by lia. destruct positive; reflexivity.
Qed.

Lemma signedEps_of_nonnegative_binary64 (v : float) :
  PrimFloat.leb 0 v = true -> PrimFloat.ltb 0 (signedEps v) = true.
Proof.
  intros Hv. unfold signedEps. cbn [nltb nleb nabs nopp lit float_Number].
  destruct (PrimFloat.ltb (PrimFloat.abs v) 1e-15) eqn:Hsmall.
  - rewrite Hv. reflexivity.
  - revert Hv Hsmall.
    rewrite FloatAxioms.leb_spec, !FloatAxioms.ltb_spec, abs_spec.
    replace (Prim2SF 0) with (S754_zero false) by reflexivity.
    replace (Prim2SF 1e-15)
      with (S754_finite false 5070602400912918 (-102))
      by (vm_compute; reflexivity).
    destruct (Prim2SF v) as [s | s | | s m e];
      unfold SFleb, SFltb, SFabs, SFcompare.
    + intros _ Hsmall. discriminate Hsmall.
    + destruct s; intros H1 _; [discriminate H1 | reflexivity].
    + intros H1 _. discriminate H1.
    + destruct s; intros H1 _; [discriminate H1 | reflexivity].
Qed.

Lemma signedEps_of_negative_binary64 (v : float) :
  PrimFloat.ltb v 0 = true -> PrimFloat.ltb 0 (signedEps v) = false.
Proof.
  intros Hv. pose proof (float_ltb_not_geb _ _ Hv) as Hge.
  unfold signedEps. cbn [nltb nleb nabs nopp lit float_Number].
  destruct (PrimFloat.ltb (PrimFloat.abs v) 1e-15).
  - rewrite Hge. reflexivity.
  - destruct (PrimFloat.ltb 0 v) eqn:Hpos; [| reflexivity].
    rewrite (float_ltb_leb _ _ Hpos) in Hge. discriminate Hge.
Qed.

(** X15 (binary64): a field without a sign change has no contour, even
    where it touches zero.  If the field is nowhere negative at the nodes
    of the grid (every sampled value satisfies [0 <= v], zeros included),
    or negative at all of them, [zeroContourSegments] returns no segment:
    a zero sample counts as positive. *)
Theorem zeroContourSegments_no_sign_change_binary64
    (T : Transform.t float) (field : ScalarField) (cols rows : nat) :
  nonNegativeOnGrid T field cols rows \/ negativeOnGrid T field cols rows ->
  zeroContourSegments T field cols rows = [].
Proof.
  intros [Hnonneg | Hneg].
  - apply (zeroContourSegments_uniform_bits T field cols rows true).
    intros j i Hj Hi. apply signedEps_of_nonnegative_binary64, Hnonneg; assumption.
  - apply (zeroContourSegments_uniform_bits T field cols rows false).
    intros j i Hj Hi. apply signedEps_of_negative_binary64, Hneg; assumption.
Qed.

(** The field [x^2 + y^2] is nowhere negative at the nodes of the 8 by 8
    grid of the default view. *)
Lemma squares_nonNegativeOnGrid :
  nonNegativeOnGrid defaultView (fun x y => x * x + y * y)%float 8 8.
Proof.
  intros j i Hj Hi.
  do 9 (destruct j as [| j];
        [do 9 (destruct i as [| i]; [vm_compute; reflexivity |]); lia |]).
  lia.
Qed.

Lemma zeroContourSegments_no_sign_change_witness :
  zeroContourSegments defaultView (fun x y => x * x + y * y)%float 8 8 = [].
Proof.
  apply (zeroContourSegments_no_sign_change_binary64
           defaultView (fun x y => x * x + y * y)%float 8 8).
  left. exact squares_nonNegativeOnGrid.
Defined.

(** X16 (exact arithmetic): [lerpZero] returns the zero of the linear
    interpolant, so it is exact on affine fields.  For a field
    [alpha x + beta y + gamma] with different values [v1], [v2] at the two
    ends of an edge, the field vanishes at the point [lerpZero] returns. *)
Theorem lerpZero_exact_on_affine_fields
    (alpha beta gamma x1 y1 x2 y2 : R) :
  let v1 := (alpha * x1 + beta * y1 + gamma)%R in
  let v2 := (alpha * x2 + beta * y2 + gamma)%R in
  v1 <> v2 ->
  let p := lerpZero x1 y1 v1 x2 y2 v2 in
  (alpha * Vec2.x p + beta * Vec2.y p + gamma = 0)%R.
Proof.
  cbv zeta. intros Hne. unfold lerpZero.
  cbn [Vec2.x Vec2.y nadd nsub nmul ndiv real_Number].
  field. lra.
Qed.

Lemma lerpZero_exact_on_affine_fields_witness :
  let p := lerpZero 0%R 0%R (2 * 0 + 1 * 0 + -1)%R
                    1%R 0%R (2 * 1 + 1 * 0 + -1)%R in
  (2 * Vec2.x p + 1 * Vec2.y p + -1 = 0)%R.
Proof.
  apply (lerpZero_exact_on_affine_fields 2 1 (-1) 0 0 1 0)%R. lra.
Defined.

(** ** Stitcher, further properties *)

Lemma Rounded_eqb_refl (r : Rounded) : Rounded_eqb r r = true.
Proof. destruct r; cbn; [apply Z.eqb_refl | reflexivity ..]. Qed.

Lemma Key_eqb_refl (k : Key) : Key_eqb k k = true.
Proof. unfold Key_eqb. rewrite !Rounded_eqb_refl. reflexivity. Qed.

Section StitcherShape.
Context {N : Type} `{Number N}.

Lemma linkedChain_snoc (segs : list (Seg.t N)) (chain : list (Vec2.t N))
    (d next : Vec2.t N) :
  chain <> [] -> linkedChain segs chain -> linked segs (last chain d) next ->
  linkedChain segs (chain ++ [next]).
Proof.
  induction chain as [| p chain IH]; intros Hne Hchain Hlast; [congruence |].
  destruct chain as [| q chain].
  - cbn in *. auto.
  - destruct Hchain as [Hpq Hrest].
    change ((p :: q :: chain) ++ [next]) with (p :: ((q :: chain) ++ [next])).
    change (linked segs p q /\ linkedChain segs ((q :: chain) ++ [next])).
    split; [exact Hpq |]. apply IH; [discriminate | exact Hrest | exact Hlast].
Qed.

(** The segment a scan chooses touches the key it scanned for. *)
Lemma scanIncident_link (segs : list (Seg.t N)) (used : list bool) (k : Key)
    (incident : list nat) (idx : nat) (next : Vec2.t N) :
  scanIncident (map Seg.a segs) (map Seg.b segs) used k incident
  = Some (Some (idx, next)) ->
  exists s, In s segs
            /\ ((Key_eqb (key (Seg.a s)) k = true /\ next = Seg.b s)
                \/ (Key_eqb (key (Seg.b s)) k = true /\ next = Seg.a s)).
Proof.
  induction incident as [| i incident IH]; cbn; intros Hscan.
  - discriminate Hscan.
  - destruct (nth i used false); [exact (IH Hscan) |].
    rewrite !nth_error_map in Hscan.
    destruct (nth_error segs i) as [s |] eqn:Hs; cbn in Hscan;
      [| discriminate Hscan].
    apply nth_error_In in Hs.
    destruct (Key_eqb (key (Seg.a s)) k) eqn:Ea.
    + injection Hscan as <- <-. exists s. auto.
    + destruct (Key_eqb (key (Seg.b s)) k) eqn:Eb.
      * injection Hscan as <- <-. exists s. auto.
      * exact (IH Hscan).
Qed.

Lemma extend_length (grow : list (Vec2.t N) -> Vec2.t N -> list (Vec2.t N))
    (A B : list (Vec2.t N)) (adj : Adj) :
  growsByOne grow ->
  forall (fuel : nat) (used : list bool) (chain : list (Vec2.t N))
         (endp : Vec2.t N) (used' : list bool) (chain' : list (Vec2.t N)),
    extend grow fuel A B adj used chain endp = Some (used', chain') ->
    length chain <= length chain'.
Proof.
  intros Hgrow. induction fuel as [| fuel IH];
    intros used chain endp used' chain'; cbn; intros Hrun.
  - discriminate Hrun.
  - destruct (scanIncident A B used (key endp) _) as [[[idx next] |] |];
      [| injection Hrun as _ <-; lia | discriminate Hrun].
    apply IH in Hrun. rewrite (proj1 (Hgrow chain next)) in Hrun. lia.
Qed.

(** The right-hand loop keeps the chain linked and its first point. *)
Lemma extend_right_linked (segs : list (Seg.t N)) (adj : Adj) :
  forall (fuel : nat) (used : list bool) (chain : list (Vec2.t N))
         (endp : Vec2.t N) (used' : list bool) (chain' : list (Vec2.t N)),
    extend pushRight fuel (map Seg.a segs) (map Seg.b segs) adj used chain endp
    = Some (used', chain') ->
    chain <> [] -> last chain endp = endp -> linkedChain segs chain ->
    linkedChain segs chain' /\ hd_error chain' = hd_error chain.
Proof.
  induction fuel as [| fuel IH];
    intros used chain endp used' chain'; cbn [extend]; intros Hrun Hne Hlast Hchain.
  - discriminate Hrun.
  - destruct (scanIncident (map Seg.a segs) (map Seg.b segs) used (key endp) _)
      as [[[idx next] |] |] eqn:Hscan;
      [| injection Hrun as _ <-; auto | discriminate Hrun].
    destruct (scanIncident_link _ _ _ _ _ _ Hscan) as (s & Hin & Hs).
    apply IH in Hrun.
    + destruct Hrun as [Hl Hhd]. split; [exact Hl |].
      rewrite Hhd. unfold pushRight. destruct chain; [congruence | reflexivity].
    + unfold pushRight. destruct chain; discriminate.
    + unfold pushRight. apply last_last.
    + unfold pushRight. apply (linkedChain_snoc segs chain endp next Hne Hchain).
      rewrite Hlast. exists s. split; [exact Hin |].
      unfold sameKey. destruct Hs as [[Hk ->] | [Hk ->]]; auto.
Qed.

(** The left-hand loop keeps the chain linked. *)
Lemma extend_left_linked (segs : list (Seg.t N)) (adj : Adj) :
  forall (fuel : nat) (used : list bool) (chain : list (Vec2.t N))
         (endp : Vec2.t N) (used' : list bool) (chain' : list (Vec2.t N)),
    extend unshiftLeft fuel (map Seg.a segs) (map Seg.b segs) adj used chain endp
    = Some (used', chain') ->
    hd_error chain = Some endp -> linkedChain segs chain ->
    linkedChain segs chain'.
Proof.
  induction fuel as [| fuel IH];
    intros used chain endp used' chain'; cbn [extend]; intros Hrun Hhd Hchain.
  - discriminate Hrun.
  - destruct (scanIncident (map Seg.a segs) (map Seg.b segs) used (key endp) _)
      as [[[idx next] |] |] eqn:Hscan;
      [| injection Hrun as _ <-; exact Hchain | discriminate Hrun].
    destruct (scanIncident_link _ _ _ _ _ _ Hscan) as (s & Hin & Hs).
    apply IH in Hrun; [exact Hrun | reflexivity |].
    unfold unshiftLeft. destruct chain as [| q chain]; [discriminate Hhd |].
    injection Hhd as ->. split; [| exact Hchain].
    exists s. split; [exact Hin |].
    unfold sameKey. destruct Hs as [[Hk ->] | [Hk ->]]; auto.
Qed.

(** What the outer loop adds are linked chains of at least two points. *)
Lemma stitchLoop_shape (segs : list (Seg.t N)) (adj : Adj) (fuel : nat) :
  forall (todo : list nat) (used : list bool)
         (polylines out : list (list (Vec2.t N))),
    stitchLoop fuel (map Seg.a segs) (map Seg.b segs) adj todo used polylines
    = Some out ->
    Forall (fun pl => linkedChain segs pl /\ 2 <= length pl) polylines ->
    Forall (fun pl => linkedChain segs pl /\ 2 <= length pl) out.
Proof.
  induction todo as [| i todo IH]; intros used polylines out; cbn [stitchLoop];
    intros Hrun Hok.
  - injection Hrun as <-. exact Hok.
  - destruct (nth i used false); [exact (IH _ _ _ Hrun Hok) |].
    rewrite !nth_error_map in Hrun.
    destruct (nth_error segs i) as [s |] eqn:Hs; cbn [option_map] in Hrun;
      [| discriminate Hrun].
    apply nth_error_In in Hs.
    destruct (extend pushRight fuel _ _ adj (markUsed used i)
                [Seg.a s; Seg.b s] (Seg.b s))
      as [[used1 chain1] |] eqn:Hright; [| discriminate Hrun].
    destruct (extend unshiftLeft fuel _ _ adj used1 chain1 (Seg.a s))
      as [[used2 chain2] |] eqn:Hleft; [| discriminate Hrun].
    apply (IH _ _ _ Hrun). apply Forall_app. split; [exact Hok |].
    repeat constructor.
    + destruct (extend_right_linked segs adj _ _ _ _ _ _ Hright)
        as [Hl1 Hhd1]; [discriminate | reflexivity | |].
      { split; [| exact I]. exists s. split; [exact Hs |]. left.
        split; [apply Key_eqb_refl | reflexivity]. }
      apply (extend_left_linked segs adj _ _ _ _ _ _ Hleft);
        [rewrite Hhd1; reflexivity | exact Hl1].
    + pose proof (extend_length pushRight _ _ adj pushRight_grows
                    _ _ _ _ _ _ Hright) as H1.
      pose proof (extend_length unshiftLeft _ _ adj unshiftLeft_grows
                    _ _ _ _ _ _ Hleft) as H2.
      cbn [length] in H1. lia.
Qed.

End StitcherShape.

(** The stitcher returns, and what it returns is the erasure of the
    traced run. *)
Lemma stitch_returns {N : Type} `{Number N} (segs : list (Seg.t N)) :
  exists traced : list (list (Vec2.t N) * list nat),
    stitchSegmentsToPolylines segs = Some (map fst traced)
    /\ Forall (chainOk segs) traced
    /\ length (concat (map snd traced)) = length segs.
Proof.
  destruct (stitchLoopTraced_spec segs (buildAdj [] 0 segs)
              (buildAdj_bounded (length segs) segs [] 0 (le_n _)
                 (Forall_nil _))
              (seq 0 (length segs)) (repeat false (length segs)) [])
    as (out & used' & Hrun & Hcons & Hall & Hok).
  - split; [apply repeat_length |]. split; [constructor |].
    intros j. cbn. rewrite nth_repeat. split; [discriminate | intros []].
  - apply Forall_forall. intros i Hi. apply in_seq in Hi. lia.
  - constructor.
  - intros j Hj Hnin. exfalso. apply Hnin, in_seq. lia.
  - exists out. split; [| split; [exact Hok |]].
    + rewrite stitchTraced_erase. unfold stitchTraced. cbv zeta.
      rewrite Hrun. reflexivity.
    + destruct Hcons as (Hlen & Hnd & Hiff).
      rewrite <- (length_seq (length segs) 0).
      apply Permutation_length, NoDup_Permutation;
        [exact Hnd | apply seq_NoDup |].
      intros j. rewrite <- Hiff, in_seq. split.
      * intros Hj. apply nth_true_lt in Hj. lia.
      * intros Hj. apply Hall. lia.
Qed.

(** X17: the shape of the stitcher's output.  For every list of segments
    (in either reading of [number]), [stitchSegmentsToPolylines] returns
    polylines of at least two points each, at most as many polylines as
    there are segments, and at least one when there is a segment. *)
Theorem stitch_polylines_shape {N : Type} `{Number N} (segs : list (Seg.t N)) :
  exists polylines,
    stitchSegmentsToPolylines segs = Some polylines
    /\ Forall (fun pl => 2 <= length pl) polylines
    /\ length polylines <= length segs
    /\ (segs <> [] -> polylines <> []).
Proof.
  destruct (stitch_returns segs) as (traced & Hrun & Hok & Hlen).
  exists (map fst traced). split; [exact Hrun |].
  assert (Htwo : Forall (fun pl => linkedChain segs pl /\ 2 <= length pl)
                        (map fst traced)).
  { unfold stitchSegmentsToPolylines in Hrun. cbv zeta in Hrun.
    apply (stitchLoop_shape segs _ _ _ _ _ _ Hrun). constructor. }
  split; [eapply Forall_impl; [| exact Htwo]; intros pl [_ Hpl]; exact Hpl |].
  assert (Hcount : length (map fst traced) <= length (concat (map snd traced))).
  { clear Hrun Hlen. rewrite length_map.
    induction traced as [| [chain trace] traced IH]; cbn; [lia |].
    inversion Hok as [| ? ? [Hc _] Hok']; subst.
    inversion Htwo as [| ? ? [_ H2] Htwo']; subst. cbn in Hc, H2.
    rewrite length_app. specialize (IH Hok' Htwo'). lia. }
  split; [lia |].
  intros Hne Hnil. destruct traced; [| discriminate Hnil].
  cbn in Hlen. destruct segs; [congruence | discriminate Hlen].
Qed.

(** X18: polylines follow the input segments.  For every list of segments
    (in either reading of [number]), every two consecutive points of
    every polyline returned by [stitchSegmentsToPolylines] are joined by
    an input segment: one of the two is an endpoint of that segment and
    the other has the adjacency key of its other endpoint. *)
Theorem stitch_polylines_follow_segments {N : Type} `{Number N}
    (segs : list (Seg.t N)) :
  exists polylines,
    stitchSegmentsToPolylines segs = Some polylines
    /\ Forall (linkedChain segs) polylines.
Proof.
  destruct (stitch_returns segs) as (traced & Hrun & _ & _).
  exists (map fst traced). split; [exact Hrun |].
  unfold stitchSegmentsToPolylines in Hrun. cbv zeta in Hrun.
  pose proof (stitchLoop_shape segs _ _ _ _ _ _ Hrun (Forall_nil _)) as Hshape.
  eapply Forall_impl; [| exact Hshape]. intros pl [Hpl _]. exact Hpl.
Qed.

(** ** Equilibrium solver, further properties *)

Lemma ForallOrdPairs_snoc {A : Type} (P : A -> A -> Prop) (l : list A) (a : A) :
  ForallOrdPairs P l -> Forall (fun b => P b a) l ->
  ForallOrdPairs P (l ++ [a]).
Proof.
  induction 1 as [| b l Hb Hl IH]; cbn; intros Hall.
  - repeat constructor.
  - inversion Hall as [| ? ? Hba Hall']; subst. constructor.
    + apply Forall_app. split; [exact Hb |]. repeat constructor. exact Hba.
    + apply IH. exact Hall'.
Qed.

Section DedupFacts.
Context {N : Type} `{Number N}.

Lemma dedup_spec (tol : N) (candidates : list (Vec2.t N)) :
  forall uniq : list (Vec2.t N),
    ForallOrdPairs (fun q p => within tol p q = false) uniq ->
    exists kept,
      dedup tol candidates uniq = uniq ++ kept
      /\ ForallOrdPairs (fun q p => within tol p q = false) (uniq ++ kept)
      /\ incl kept candidates
      /\ Forall (fun p => exists q, In q (uniq ++ kept)
                                    /\ (q = p \/ within tol p q = true))
                candidates.
Proof.
  induction candidates as [| p candidates IH]; intros uniq Hsep; cbn [dedup].
  - exists []. rewrite app_nil_r. repeat split; auto using incl_nil_l.
  - fold (within tol p).
    destruct (existsb (within tol p) uniq) eqn:Hex.
    + destruct (IH uniq Hsep) as (kept & Hrun & Hsep' & Hincl & Hcov).
      exists kept. split; [exact Hrun |]. split; [exact Hsep' |].
      split; [apply incl_tl; exact Hincl |].
      constructor; [| exact Hcov].
      apply existsb_exists in Hex. destruct Hex as (q & Hq & Hnear).
      exists q. split; [apply in_or_app; auto | auto].
    + destruct (IH (uniq ++ [p])) as (kept & Hrun & Hsep' & Hincl & Hcov).
      { apply ForallOrdPairs_snoc; [exact Hsep |].
        apply Forall_forall. intros q Hq.
        destruct (within tol p q) eqn:Hnear; [| reflexivity].
        rewrite <- Hex. symmetry. apply existsb_exists. eauto. }
      rewrite <- app_assoc in Hrun, Hsep', Hcov. cbn [app] in Hrun, Hsep', Hcov.
      exists (p :: kept). split; [exact Hrun |]. split; [exact Hsep' |].
      split.
      * intros q [<- | Hq]; [left; reflexivity | right; apply Hincl, Hq].
      * constructor; [| exact Hcov].
        exists p. split; [apply in_or_app; right; left; reflexivity | auto].
Qed.

End DedupFacts.

(** X19: the deduplication is greedy and first-seen-wins.  For every
    tolerance and candidate list (in either reading of [number]), the
    points kept are candidates; no kept point is within the tolerance of
    a point kept before it; every candidate is kept or is within the
    tolerance of a kept point; and the first candidate is always kept
    first. *)
Theorem dedup_greedy {N : Type} `{Number N}
    (tol : N) (candidates : list (Vec2.t N)) :
  incl (dedup tol candidates []) candidates
  /\ ForallOrdPairs (fun q p => within tol p q = false) (dedup tol candidates [])
  /\ Forall (fun p => exists q, In q (dedup tol candidates [])
                                /\ (q = p \/ within tol p q = true))
            candidates
  /\ hd_error (dedup tol candidates []) = hd_error candidates.
Proof.
  destruct (dedup_spec tol candidates [] (FOP_nil _))
    as (kept & Hrun & Hsep & Hincl & Hcov).
  cbn [app] in *. rewrite Hrun.
  split; [exact Hincl |]. split; [exact Hsep |]. split; [exact Hcov |].
  destruct candidates as [| p candidates]; cbn [dedup existsb app] in Hrun.
  - rewrite <- Hrun. reflexivity.
  - destruct (dedup_spec tol candidates [p]) as (kept' & Hrun' & _).
    { repeat constructor. }
    rewrite Hrun' in Hrun. rewrite <- Hrun. reflexivity.
Qed.

Lemma Exact_lit_1em12_pos : (0 < Exact.of_float 1e-12)%R.
Proof. eapply Exact_of_float_pos. vm_compute. reflexivity. Qed.

(** X20 (exact arithmetic): the point [segIntersect] returns lies on both
    lines.  When it returns a point [p] for the segments [a b] and [c d],
    there are parameters [t] and [u], both between [-1e-9] and
    [1 + 1e-9], with [p = a + t (b - a)] and [p = c + u (d - c)]. *)
Theorem segIntersect_sound_exact (a b c d p : Vec2.t R) :
  segIntersect a b c d = Some p ->
  exists t u : R,
    (- Exact.of_float 1e-9 <= t <= 1 + Exact.of_float 1e-9)%R
    /\ (- Exact.of_float 1e-9 <= u <= 1 + Exact.of_float 1e-9)%R
    /\ p = Vec2.mk (Vec2.x a + t * (Vec2.x b - Vec2.x a))%R
                   (Vec2.y a + t * (Vec2.y b - Vec2.y a))%R
    /\ p = Vec2.mk (Vec2.x c + u * (Vec2.x d - Vec2.x c))%R
                   (Vec2.y c + u * (Vec2.y d - Vec2.y c))%R.
Proof.
  destruct a as [x1 y1], b as [x2 y2], c as [x3 y3], d as [x4 y4].
  unfold segIntersect. cbn [Vec2.x Vec2.y]. cbv zeta.
  change (@lit R _ 1%float) with (Exact.of_float 1).
  change (@lit R _ 1e-9%float) with (Exact.of_float 1e-9).
  change (@lit R _ 1e-20%float) with (Exact.of_float 1e-20).
  rewrite Exact_of_float_1.
  cbn [nadd nsub nmul ndiv nopp nabs nltb real_Number].
  set (den := ((x1 - x2) * (y3 - y4) - (y1 - y2) * (x3 - x4))%R).
  destruct (Exact.ltb (Rabs den) (Exact.of_float 1e-20)) eqn:Hden;
    [discriminate |].
  apply Exact_ltb_false in Hden. pose proof Exact_lit_1em20_pos as Hpos.
  assert (Hne : den <> 0%R).
  { intros H0. rewrite H0, Rabs_R0 in Hden. lra. }
  set (t := (((x1 - x3) * (y3 - y4) - (y1 - y3) * (x3 - x4)) / den)%R).
  set (u := (((x1 - x3) * (y1 - y2) - (y1 - y3) * (x1 - x2)) / den)%R).
  destruct (Exact.ltb t (- Exact.of_float 1e-9)) eqn:Ht0; [discriminate |].
  destruct (Exact.ltb (1 + Exact.of_float 1e-9) t) eqn:Ht1; [discriminate |].
  destruct (Exact.ltb u (- Exact.of_float 1e-9)) eqn:Hu0; [discriminate |].
  destruct (Exact.ltb (1 + Exact.of_float 1e-9) u) eqn:Hu1; [discriminate |].
  cbn [orb]. intros Hp. injection Hp as <-.
  apply Exact_ltb_false in Ht0, Ht1, Hu0, Hu1.
  exists t, u. split; [lra |]. split; [lra |]. split; [reflexivity |].
  unfold t, u, den in *. f_equal; field; exact Hne.
Qed.

Lemma Exact_lit_1em20_lt_1 : (Exact.of_float 1e-20 < 1)%R.
Proof.
  unfold Exact.of_float.
  replace (Prim2SF 1e-20) with (S754_finite false 6646139978924579 (-119))
    by (vm_compute; reflexivity).
  cbn [powerRZ]. rewrite pow_IZR, positive_nat_Z.
  change (2 ^ 119)%Z with 664613997892457936451903530140172288%Z.
  apply (Rmult_lt_reg_r (IZR 664613997892457936451903530140172288));
    [apply IZR_lt; reflexivity |].
  rewrite Rmult_assoc, Rinv_l, Rmult_1_r, Rmult_1_l;
    [| apply not_0_IZR; discriminate].
  rewrite Rmult_1_l. apply IZR_lt. reflexivity.
Qed.

Lemma segIntersect_sound_witness :
  exists t u : R,
    (- Exact.of_float 1e-9 <= t <= 1 + Exact.of_float 1e-9)%R
    /\ (- Exact.of_float 1e-9 <= u <= 1 + Exact.of_float 1e-9)%R
    /\ (Vec2.mk (0 + 0 * (0 - 0)) (0 + 0 * (2 - 0)))%R
       = Vec2.mk (0 + t * (0 - 0))%R (0 + t * (2 - 0))%R
    /\ (Vec2.mk (0 + 0 * (0 - 0)) (0 + 0 * (2 - 0)))%R
       = Vec2.mk (0 + u * (2 - 0))%R (0 + u * (0 - 0))%R.
Proof.
  apply (segIntersect_sound_exact (Vec2.mk 0 0) (Vec2.mk 0 2)
           (Vec2.mk 0 0) (Vec2.mk 2 0))%R.
  pose proof Exact_lit_1em20_lt_1 as H20. pose proof Exact_lit_1em9_pos as H9.
  unfold segIntersect. cbn [Vec2.x Vec2.y]. cbv zeta.
  change (@lit R _ 1%float) with (Exact.of_float 1).
  change (@lit R _ 1e-9%float) with (Exact.of_float 1e-9).
  change (@lit R _ 1e-20%float) with (Exact.of_float 1e-20).
  rewrite Exact_of_float_1.
  cbn [nadd nsub nmul ndiv nopp nabs nltb real_Number].
  replace ((0 - 0) * (0 - 0) - (0 - 2) * (0 - 2))%R with (-4)%R by ring.
  replace ((0 - 0) * (0 - 0) - (0 - 0) * (0 - 2))%R with 0%R by ring.
  replace ((0 - 0) * (0 - 2) - (0 - 0) * (0 - 0))%R with 0%R by ring.
  replace (0 / -4)%R with 0%R by field.
  replace (Rabs (-4)) with 4%R by (clear; rewrite Rabs_left; lra).
  rewrite (proj2 (Exact_ltb_false 4 (Exact.of_float 1e-20))) by lra.
  rewrite (proj2 (Exact_ltb_false 0 (- Exact.of_float 1e-9))) by lra.
  rewrite (proj2 (Exact_ltb_false (1 + Exact.of_float 1e-9) 0)) by lra.
  reflexivity.
Defined.

Lemma newtonLoop_at_equilibrium_exact
    (n : nat) (sys : System.t R) (hx hy x y : R) :
  System.f sys x y (System.params sys) = 0%R ->
  System.g sys x y (System.params sys) = 0%R ->
  newtonLoop (S n) sys hx hy x y = Vec2.mk x y.
Proof.
  intros Hf Hg. cbn [newtonLoop]. rewrite Hf, Hg.
  destruct (jacobian sys hx hy x y) as [[[a b] c] d].
  destruct (nltb (nabs (nsub (nmul a d) (nmul b c))) (lit 1e-20));
    [reflexivity |].
  cbn [nadd nsub nmul ndiv nopp real_Number].
  replace ((- 0 * d + b * 0) / (a * d - b * c))%R with 0%R
    by (unfold Rdiv; ring).
  replace ((- a * 0 + 0 * c) / (a * d - b * c))%R with 0%R
    by (unfold Rdiv; ring).
  rewrite !Rminus_0_r.
  assert (Hstop : nltb (hypot 0%R 0%R) (lit 1e-12) = true).
  { cbn [nltb hypot real_Number]. unfold Exact.hypot.
    replace (0 * 0 + 0 * 0)%R with 0%R by ring. rewrite sqrt_0.
    apply Exact_ltb_true, Exact_lit_1em12_pos. }
  rewrite Hstop. reflexivity.
Qed.

(** X21 (exact arithmetic): an exact equilibrium is left where it is.  If
    [f] and [g] both vanish at [p], [newtonPolish] returns [p], whatever
    the finite-difference step and whatever the Jacobian there. *)
Theorem newtonPolish_fixes_equilibrium_exact
    (sys : System.t R) (p : Vec2.t R) (step : R) :
  System.f sys (Vec2.x p) (Vec2.y p) (System.params sys) = 0%R ->
  System.g sys (Vec2.x p) (Vec2.y p) (System.params sys) = 0%R ->
  newtonPolish sys p step = p.
Proof.
  intros Hf Hg. unfold newtonPolish. cbv zeta.
  rewrite (newtonLoop_at_equilibrium_exact 2 sys step step _ _ Hf Hg).
  destruct p; reflexivity.
Qed.

Lemma newtonPolish_fixes_equilibrium_witness :
  newtonPolish
    (System.mk (fun x y _ => (x * (1 - y))%R) (fun x y _ => (y * (x - 1))%R) [])
    (Vec2.mk 1 1)%R (1 / 10)%R
  = (Vec2.mk 1 1)%R.
Proof.
  apply (newtonPolish_fixes_equilibrium_exact
           (System.mk (fun x y _ => (x * (1 - y))%R)
                      (fun x y _ => (y * (x - 1))%R) [])
           (Vec2.mk 1 1)%R (1 / 10)%R);
    cbn [System.f System.g System.params Vec2.x Vec2.y]; ring.
Defined.

(** X22 (binary64): the solver only sees equilibria at sign changes.  If
    [f], or [g], is nowhere negative or everywhere negative at the nodes
    of the grid [findEquilibria] uses ([max(8, density)] columns and
    rows), it returns no point: an equilibrium where a field touches zero
    without changing sign is not found. *)
Theorem findEquilibria_needs_sign_change_binary64
    (T : Transform.t float) (sys : System.t float) (density : option nat) :
  let cols := Nat.max 8 (match density with Some d => d | None => 120 end) in
  let f := fun x y => System.f sys x y (System.params sys) in
  let g := fun x y => System.g sys x y (System.params sys) in
  (nonNegativeOnGrid T f cols cols \/ negativeOnGrid T f cols cols)
  \/ (nonNegativeOnGrid T g cols cols \/ negativeOnGrid T g cols cols) ->
  findEquilibria T sys density = [].
Proof.
  cbv zeta. intros Hsign. unfold findEquilibria. cbv zeta.
  set (cols := Nat.max 8 match density with Some d => d | None => 120 end) in *.
  assert (Hcand :
            candidatesOf
              (zeroContourSegments T
                 (fun x y => System.f sys x y (System.params sys)) cols cols)
              (zeroContourSegments T
                 (fun x y => System.g sys x y (System.params sys)) cols cols)
            = []).
  { destruct Hsign as [Hf | Hg].
    - rewrite (zeroContourSegments_no_sign_change_binary64 T
                 (fun x y => System.f sys x y (System.params sys)) cols cols Hf).
      reflexivity.
    - rewrite (zeroContourSegments_no_sign_change_binary64 T
                 (fun x y => System.g sys x y (System.params sys)) cols cols Hg).
      unfold candidatesOf. apply flat_map_nil. intros sf. reflexivity. }
  rewrite Hcand. reflexivity.
Qed.

(** The system [f = x^2 + y^2], [g = x] has the equilibrium [(0, 0)],
    which [findEquilibria] does not report. *)
Lemma findEquilibria_needs_sign_change_witness :
  findEquilibria defaultView
    (System.mk (fun x y _ => x * x + y * y)%float (fun x y _ => x) [])
    (Some 8)
  = [].
Proof.
  apply (findEquilibria_needs_sign_change_binary64 defaultView
           (System.mk (fun x y _ => x * x + y * y)%float (fun x y _ => x) [])
           (Some 8)).
  left. left. exact squares_nonNegativeOnGrid.
Defined.

(** ** Dashed rendering of a polyline, properties *)

Section DashFacts.
Context {N : Type} `{Number N} `{NumberRound N}.

(** [cum] has an entry for every point of the polyline. *)
Lemma cumLoop_length (rest : list (Vec2.t N)) :
  forall prev acc, length (cumLoop prev acc rest) = length rest.
Proof.
  induction rest as [| p rest IH]; intros prev acc; cbn; [reflexivity |].
  rewrite IH. reflexivity.
Qed.

(** The same of the whole array, for a polyline that has a point. *)
Lemma cumOf_length (poly : list (Vec2.t N)) :
  poly <> [] -> length (cumOf poly) = length poly.
Proof.
  destruct poly as [| p0 rest]; [congruence |]. intros _. cbn.
  rewrite cumLoop_length. reflexivity.
Qed.

(** Where the scan of [cum] stops: every entry passed is below [s], and
    the entry it stops at, if there is one, is not. *)
Lemma scanCum_spec (d : N) (rest : list N) (s : N) :
  forall i, exists k,
    scanCum rest s i = i + k
    /\ k <= length rest
    /\ (forall j, j < k -> nltb (nth j rest d) s = true)
    /\ (k < length rest -> nltb (nth k rest d) s = false).
Proof.
  induction rest as [| c rest IH]; intros i; cbn [scanCum].
  - exists 0. cbn. repeat split; lia.
  - destruct (nltb c s) eqn:Hc.
    + destruct (IH (S i)) as (k & Hk & Hle & Hbelow & Hstop).
      exists (S k). cbn [length nth]. split; [lia |]. split; [lia |]. split.
      * intros [| j] Hj; [exact Hc | apply Hbelow; lia].
      * intros Hlt. apply Hstop. lia.
    + exists 0. cbn [length nth]. split; [lia |]. split; [lia |]. split.
      * intros j Hj. lia.
      * intros _. exact Hc.
Qed.


(** The last entry of a list is the one at index [length - 1]. *)
Lemma nth_last (d : N) (l : list N) :
  l <> [] -> nth (length l - 1) l d = last l d.
Proof.
  induction l as [| a l IH]; [congruence |]. intros _.
  destruct l as [| b l]; [reflexivity |].
  change (last (a :: b :: l) d) with (last (b :: l) d).
  rewrite <- IH by discriminate. cbn [length]. 
  replace (S (S (length l)) - 1) with (S (S (length l) - 1)) by lia.
  reflexivity.
Qed.

(** The reads of [pointAt] are in range whenever its argument is not
    beyond the last entry of [cum]. *)
Lemma pointAt_index (d : N) (cum : list N) (s : N) :
  2 <= length cum ->
  nltb (last cum d) s = false ->
  exists k,
    Nat.max 1 (scanCum (skipn 1 cum) s 1) = S k
    /\ S k < length cum
    /\ (forall j, 1 <= j -> j <= k -> nltb (nth j cum d) s = true)
    /\ nltb (nth (S k) cum d) s = false.
Proof.
  intros Hlen Hlast.
  destruct cum as [| c0 rest]; [cbn in Hlen; lia |].
  cbn [skipn]. cbn [length] in Hlen |- *.
  destruct (scanCum_spec d rest s 1) as (k & Hk & Hle & Hbelow & Hstop).
  exists k. rewrite Hk.
  assert (Hlt : k < length rest).
  { destruct (Nat.eq_dec k (length rest)) as [Heq | Hne]; [| lia].
    exfalso. assert (Hrest : rest <> []) by (destruct rest; cbn in Hlen; [lia | discriminate]).
    specialize (Hbelow (length rest - 1)).
    rewrite (nth_last d rest Hrest) in Hbelow.
    replace (last rest d) with (last (c0 :: rest) d) in Hbelow
      by (destruct rest; [congruence | reflexivity]).
    rewrite Hbelow in Hlast by lia. discriminate. }
  split; [lia |]. split; [lia |]. split.
  - intros [| j] H1 Hj; [lia |]. cbn [nth]. apply Hbelow. lia.
  - cbn [nth]. apply Hstop. exact Hlt.
Qed.

(** [pointAt] returns a point whenever its argument is not beyond the
    last entry of [cum]. *)
Lemma pointAt_defined (poly : list (Vec2.t N)) (cum : list N) (s : N) :
  2 <= length poly -> length cum = length poly ->
  nltb (last cum (lit 0)) s = false ->
  exists p, pointAt poly cum s = Some p.
Proof.
  intros Hlen Hcum Hlast.
  destruct (pointAt_index (lit 0) cum s) as (k & Hk & Hlt & _); [lia | exact Hlast |].
  unfold pointAt. rewrite Hk.
  replace (S k - 1) with k by lia.
  destruct (nth_error cum (S k)) as [ci |] eqn:Hci;
    [| apply nth_error_None in Hci; lia].
  destruct (nth_error cum k) as [cp |] eqn:Hcp;
    [| apply nth_error_None in Hcp; lia].
  destruct (nth_error poly k) as [a |] eqn:Ha;
    [| apply nth_error_None in Ha; lia].
  destruct (nth_error poly (S k)) as [b |] eqn:Hb;
    [| apply nth_error_None in Hb; lia].
  eexists. reflexivity.
Qed.

Section Asymmetric.
Hypothesis nltb_asym : forall a b : N, nltb a b = true -> nltb b a = false.

(** The loop of dashes calls [pointAt] only where it returns a point. *)
Lemma dashLoop_never_throws (poly : list (Vec2.t N)) (cum : list N)
    (o : DashOrientation) (dashLen step : N) :
  2 <= length poly -> length cum = length poly ->
  forall fuel s,
    dashLoop fuel poly cum o dashLen step (last cum (lit 0)) s <> Throws.
Proof.
  intros Hlen Hcum. induction fuel as [| fuel IH]; intros s; cbn [dashLoop];
    [discriminate |].
  destruct (nltb s (last cum (lit 0))) eqn:Hs; [| discriminate].
  destruct (pointAt_defined poly cum s Hlen Hcum (nltb_asym _ _ Hs)) as (c & Hc).
  rewrite Hc. specialize (IH (nadd s step)).
  destruct (dashLoop fuel poly cum o dashLen step (last cum (lit 0)) (nadd s step));
    [discriminate | congruence | discriminate].
Qed.

End Asymmetric.

End DashFacts.

(** [<] on binary64 numbers is asymmetric, NaN included. *)
Lemma float_ltb_asym (a b : float) :
  PrimFloat.ltb a b = true -> PrimFloat.ltb b a = false.
Proof.
  intros Hab. apply float_leb_not_gtb. apply float_ltb_leb. exact Hab.
Qed.

(** X23 (binary64): [dashPolylineByArclength] never throws.  Whatever the
    polyline, the orientation and the lengths of dash and gap (NaN and
    infinities included), and however long the loop of dashes is run,
    [pointAt] is only called with [s < total], its scan of [cum] stops at
    an index below [cum.length], and so no property of [undefined] is
    read. *)
Theorem dashPolylineByArclength_never_throws_binary64
    (fuel : nat) (poly : list (Vec2.t float)) (o : DashOrientation)
    (dashLen gapLen : float) :
  dashPolylineByArclength fuel poly o dashLen gapLen <> Throws.
Proof.
  unfold dashPolylineByArclength.
  destruct poly as [| p [| q rest]]; try discriminate.
  destruct (nleb _ _); [discriminate |].
  apply dashLoop_never_throws.
  - exact float_ltb_asym.
  - cbn [length]. lia.
  - apply cumOf_length. discriminate.
Qed.

(** What [pointAt] computes in exact arithmetic, for any [cum] of the
    length of [poly]: the scan stops at the first entry of [cum] that is
    not below [s], and the point divides the segment that ends there in
    the proportion of the arclengths. *)
Lemma pointAt_spec_exact (poly : list (Vec2.t R)) (cum : list R) (s : R) :
  2 <= length poly -> length cum = length poly ->
  (nth 0 cum 0 <= s)%R -> (s <= last cum 0)%R ->
  exists k a b cp ci t,
    nth_error poly k = Some a /\ nth_error poly (S k) = Some b
    /\ nth_error cum k = Some cp /\ nth_error cum (S k) = Some ci
    /\ (forall j, 1 <= j -> j <= k -> (nth j cum 0 < s)%R)
    /\ (cp <= s <= ci)%R /\ (0 <= t <= 1)%R /\ (cp + t * (ci - cp) = s)%R
    /\ pointAt poly cum s
       = Some (Vec2.mk (Vec2.x a + t * (Vec2.x b - Vec2.x a))%R
                       (Vec2.y a + t * (Vec2.y b - Vec2.y a))%R).
Proof.
  intros Hlen Hcum H0 Hs.
  assert (Hlast : nltb (last cum (lit 0)) s = false).
  { apply Exact_ltb_false. exact Hs. }
  destruct (pointAt_index (lit 0) cum s) as (k & Hk & Hlt & Hbelow & Hstop);
    [lia | exact Hlast |].
  unfold pointAt. rewrite Hk. replace (S k - 1) with k by lia.
  destruct (nth_error cum (S k)) as [ci |] eqn:Hci;
    [| apply nth_error_None in Hci; lia].
  destruct (nth_error cum k) as [cp |] eqn:Hcp;
    [| apply nth_error_None in Hcp; lia].
  destruct (nth_error poly k) as [a |] eqn:Ha;
    [| apply nth_error_None in Ha; lia].
  destruct (nth_error poly (S k)) as [b |] eqn:Hb;
    [| apply nth_error_None in Hb; lia].
  assert (Hbelow' : forall j, 1 <= j -> j <= k -> (nth j cum 0 < s)%R).
  { intros j H1 Hj. apply Exact_ltb_true. apply (Hbelow j H1 Hj). }
  apply Exact_ltb_false in Hstop.
  change (lit 0) with (Exact.of_float 0) in Hstop. rewrite Exact_of_float_0 in Hstop.
  rewrite (nth_error_nth cum (S k) 0%R Hci) in Hstop.
  assert (Hcps : (cp <= s)%R).
  { destruct k as [| k'].
    - rewrite (nth_error_nth cum 0 0%R Hcp) in H0. exact H0.
    - apply Rlt_le. rewrite <- (nth_error_nth cum (S k') 0%R Hcp).
      apply Hbelow'; lia. }
  destruct (nltb (lit 0) (nsub ci cp)) eqn:Hseg.
  - apply Exact_ltb_true in Hseg.
    change (lit 0) with (Exact.of_float 0) in Hseg. rewrite Exact_of_float_0 in Hseg.
    change (nsub ci cp) with (ci - cp)%R in Hseg.
    exists k, a, b, cp, ci, ((s - cp) / (ci - cp))%R.
    split; [exact Ha |]. split; [exact Hb |]. split; [exact Hcp |].
    split; [exact Hci |]. split; [exact Hbelow' |].
    split; [lra |]. split; [split |]; [| | split; [| reflexivity]].
    + apply Rmult_le_pos; [lra |]. apply Rlt_le, Rinv_0_lt_compat. exact Hseg.
    + apply (Rmult_le_reg_r (ci - cp)); [exact Hseg |].
      unfold Rdiv. rewrite Rmult_assoc, Rinv_l by lra. lra.
    + field. lra.
  - apply Exact_ltb_false in Hseg.
    change (lit 0) with (Exact.of_float 0) in Hseg. rewrite Exact_of_float_0 in Hseg.
    change (nsub ci cp) with (ci - cp)%R in Hseg.
    exists k, a, b, cp, ci, (1 / 2)%R.
    split; [exact Ha |]. split; [exact Hb |]. split; [exact Hcp |].
    split; [exact Hci |]. split; [exact Hbelow' |].
    split; [lra |]. split; [lra |]. split.
    + assert (ci = cp) by lra. subst ci. lra.
    + change (lit 0.5) with (Exact.of_float 0.5). rewrite Exact_of_float_half.
      reflexivity.
Qed.

(** [cum[0]] is 0. *)
Lemma nth_0_cumOf_exact (poly : list (Vec2.t R)) : nth 0 (cumOf poly) 0%R = 0%R.
Proof. destruct poly; reflexivity. Qed.

(** X24 (exact arithmetic): [pointAt] returns a point of the polyline at
    the requested arclength.  For a polyline of at least two points and
    [0 <= s <= total], [pointAt(s)] is the point [a + t (b - a)] of a
    segment [a = poly[k]], [b = poly[k + 1]] with [0 <= t <= 1], and the
    arclength [cum[k] + t (cum[k + 1] - cum[k])] of that point is [s]. *)
Theorem pointAt_on_polyline_exact (poly : list (Vec2.t R)) (s : R) :
  2 <= length poly ->
  (0 <= s <= last (cumOf poly) 0)%R ->
  exists k a b ck ck1 t,
    nth_error poly k = Some a /\ nth_error poly (S k) = Some b
    /\ nth_error (cumOf poly) k = Some ck
    /\ nth_error (cumOf poly) (S k) = Some ck1
    /\ (0 <= t <= 1)%R /\ (ck + t * (ck1 - ck) = s)%R
    /\ pointAt poly (cumOf poly) s
       = Some (Vec2.mk (Vec2.x a + t * (Vec2.x b - Vec2.x a))%R
                       (Vec2.y a + t * (Vec2.y b - Vec2.y a))%R).
Proof.
  intros Hlen [H0 Hs].
  destruct (pointAt_spec_exact poly (cumOf poly) s Hlen)
    as (k & a & b & cp & ci & t & Ha & Hb & Hcp & Hci & _ & _ & Ht & Heq & Hp).
  - apply cumOf_length. destruct poly; [cbn in Hlen; lia | discriminate].
  - rewrite nth_0_cumOf_exact. exact H0.
  - exact Hs.
  - exists k, a, b, cp, ci, t. auto 10.
Qed.

Lemma pointAt_on_polyline_witness :
  exists k a b ck ck1 t,
    nth_error [Vec2.mk 0 0; Vec2.mk 3 4; Vec2.mk 3 10]%R k = Some a
    /\ nth_error [Vec2.mk 0 0; Vec2.mk 3 4; Vec2.mk 3 10]%R (S k) = Some b
    /\ nth_error (cumOf [Vec2.mk 0 0; Vec2.mk 3 4; Vec2.mk 3 10]%R) k = Some ck
    /\ nth_error (cumOf [Vec2.mk 0 0; Vec2.mk 3 4; Vec2.mk 3 10]%R) (S k) = Some ck1
    /\ (0 <= t <= 1)%R /\ (ck + t * (ck1 - ck) = 0)%R
    /\ pointAt [Vec2.mk 0 0; Vec2.mk 3 4; Vec2.mk 3 10]%R
               (cumOf [Vec2.mk 0 0; Vec2.mk 3 4; Vec2.mk 3 10]%R) 0%R
       = Some (Vec2.mk (Vec2.x a + t * (Vec2.x b - Vec2.x a))%R
                       (Vec2.y a + t * (Vec2.y b - Vec2.y a))%R).
Proof.
  apply (pointAt_on_polyline_exact [Vec2.mk 0 0; Vec2.mk 3 4; Vec2.mk 3 10]%R 0%R).
  - cbn. lia.
  - split; [lra |]. cbn [cumOf cumLoop last].
    change (lit 0) with (Exact.of_float 0). rewrite Exact_of_float_0.
    cbn [hypot real_Number nadd nsub Vec2.x Vec2.y]. unfold Exact.hypot.
    pose proof (sqrt_pos ((3 - 0) * (3 - 0) + (4 - 0) * (4 - 0))).
    pose proof (sqrt_pos ((3 - 3) * (3 - 3) + (10 - 4) * (10 - 4))).
    lra.
Defined.

(** The distance between two distinct points is positive. *)
Lemma hypot_pos_exact (dx dy : R) :
  dx <> 0%R \/ dy <> 0%R -> (0 < Exact.hypot dx dy)%R.
Proof.
  intros Hd. unfold Exact.hypot. apply sqrt_lt_R0.
  destruct Hd as [Hd | Hd]; nra.
Qed.

(** Two distinct points differ in a coordinate. *)
Lemma Vec2_neq_exact (p q : Vec2.t R) :
  p <> q ->
  (Vec2.x q - Vec2.x p <> 0)%R \/ (Vec2.y q - Vec2.y p <> 0)%R.
Proof.
  destruct p as [px py], q as [qx qy]. cbn. intros Hne.
  destruct (Req_dec qx px) as [Hx | Hx]; [| left; lra].
  destruct (Req_dec qy py) as [Hy | Hy]; [| right; lra].
  exfalso. apply Hne. subst. reflexivity.
Qed.

(** Without repeated points, [cum] is strictly increasing. *)
Lemma cumLoop_increasing_exact (rest : list (Vec2.t R)) :
  forall (prev : Vec2.t R) (acc : R),
    noRepeatedPoint (prev :: rest) ->
    forall j, j < length rest ->
      (nth j (acc :: cumLoop prev acc rest) 0 < nth (S j) (acc :: cumLoop prev acc rest) 0)%R.
Proof.
  induction rest as [| p rest IH]; intros prev acc Hno j Hj; [cbn in Hj; lia |].
  destruct Hno as [Hne Hno]. cbn [cumLoop].
  destruct j as [| j].
  - cbn [nth]. pose proof (hypot_pos_exact _ _ (Vec2_neq_exact prev p Hne)) as Hpos.
    change (acc < acc + Exact.hypot (Vec2.x p - Vec2.x prev) (Vec2.y p - Vec2.y prev))%R.
    lra.
  - change (nth (S j) (acc :: ?l) 0%R) with (nth j l 0%R).
    change (nth (S (S j)) (acc :: ?l) 0%R) with (nth (S j) l 0%R).
    apply IH; [exact Hno | cbn in Hj; lia].
Qed.

(** A list that increases from each entry to the next increases from
    each entry to every later one. *)
Lemma increasing_nth (l : list R) :
  (forall j, S j < length l -> (nth j l 0 < nth (S j) l 0)%R) ->
  forall i j, i < j -> j < length l -> (nth i l 0 < nth j l 0)%R.
Proof.
  intros Hstep i j Hij. induction Hij as [| j Hij IH]; intros Hj.
  - apply Hstep. exact Hj.
  - apply Rlt_trans with (nth j l 0%R); [apply IH; lia | apply Hstep; exact Hj].
Qed.

(** The same of the whole array [cum]. *)
Lemma cumOf_increasing_exact (poly : list (Vec2.t R)) :
  noRepeatedPoint poly ->
  forall i j, i < j -> j < length (cumOf poly) ->
    (nth i (cumOf poly) 0 < nth j (cumOf poly) 0)%R.
Proof.
  intros Hno. apply increasing_nth. intros j Hj.
  destruct poly as [| p0 rest]; [cbn in Hj; lia |].
  cbn [cumOf] in *. apply cumLoop_increasing_exact; [exact Hno |].
  cbn [length] in Hj. rewrite cumLoop_length in Hj. lia.
Qed.

(** X25 (exact arithmetic): [pointAt] at the arclength of a vertex is the
    vertex.  For a polyline of at least two points, no two consecutive
    ones equal, [pointAt(cum[j])] is [poly[j]], for every index [j]. *)
Theorem pointAt_at_vertex_exact (poly : list (Vec2.t R)) (j : nat)
    (p : Vec2.t R) (c : R) :
  2 <= length poly -> noRepeatedPoint poly ->
  nth_error poly j = Some p -> nth_error (cumOf poly) j = Some c ->
  pointAt poly (cumOf poly) c = Some p.
Proof.
  intros Hlen Hno Hp Hc.
  assert (Hcum : length (cumOf poly) = length poly).
  { apply cumOf_length. destruct poly; [cbn in Hlen; lia | discriminate]. }
  assert (Hj : j < length poly) by (apply nth_error_Some; congruence).
  pose proof (cumOf_increasing_exact poly Hno) as Hinc.
  pose proof (nth_error_nth _ _ 0%R Hc) as Hcj.
  assert (Hmono : forall i i', i <= i' -> i' < length (cumOf poly) ->
                    (nth i (cumOf poly) 0 <= nth i' (cumOf poly) 0)%R).
  { intros i i' Hii Hi'. destruct (Nat.eq_dec i i') as [-> | Hne]; [lra |].
    apply Rlt_le, Hinc; lia. }
  destruct (pointAt_spec_exact poly (cumOf poly) c Hlen Hcum)
    as (k & a & b & cp & ci & t & Ha & Hb & Hcp & Hci & Hbelow & Hbr & Ht & Heq & Hpt).
  - rewrite <- Hcj. apply Hmono; lia.
  - rewrite <- (nth_last 0%R) by (destruct (cumOf poly); [cbn in Hcum; lia | discriminate]).
    rewrite <- Hcj. apply Hmono; lia.
  - rewrite Hpt. f_equal.
    assert (Hk : S k < length poly) by (apply nth_error_Some; congruence).
    pose proof (nth_error_nth _ _ 0%R Hcp) as Hcpk.
    pose proof (nth_error_nth _ _ 0%R Hci) as Hcik.
    assert (Hlt : (cp < ci)%R) by (rewrite <- Hcpk, <- Hcik; apply Hinc; lia).
    assert (Hjk : j = k \/ j = S k).
    { destruct (Nat.lt_ge_cases j k) as [Hjlt | Hjge].
      - exfalso. assert ((nth j (cumOf poly) 0 < nth k (cumOf poly) 0)%R)
          by (apply Hinc; lia). lra.
      - destruct (Nat.lt_ge_cases (S k) j) as [Hgt | Hle]; [| lia].
        exfalso. assert ((nth (S k) (cumOf poly) 0 < nth j (cumOf poly) 0)%R)
          by (apply Hinc; lia). lra. }
    destruct Hjk as [-> | ->].
    + assert (t = 0%R) by (rewrite Hcpk in Hcj; nra). subst t.
      rewrite Ha in Hp. injection Hp as <-. destruct a; cbn. f_equal; ring.
    + assert (t = 1%R) by (rewrite Hcik in Hcj; nra). subst t.
      rewrite Hb in Hp. injection Hp as <-. destruct b; cbn. f_equal; ring.
Qed.

Lemma pointAt_at_vertex_witness :
  pointAt [Vec2.mk 0 0; Vec2.mk 3 4; Vec2.mk 3 10]%R
          (cumOf [Vec2.mk 0 0; Vec2.mk 3 4; Vec2.mk 3 10]%R)
          (0 + Exact.hypot (3 - 0) (4 - 0))%R
  = Some (Vec2.mk 3 4)%R.
Proof.
  apply (pointAt_at_vertex_exact
           [Vec2.mk 0 0; Vec2.mk 3 4; Vec2.mk 3 10]%R 1).
  - cbn. lia.
  - cbn. split; [intros Heq; inversion Heq; lra |].
    split; [intros Heq; inversion Heq; lra | exact I].
  - reflexivity.
  - reflexivity.
Defined.

(** The loop of dashes, in exact arithmetic: when [m] steps reach the end
    of the polyline, the loop returns within [m + 1] rounds, and it has
    drawn one dash for each of the arclengths [s], [s + step], .. that lie
    before the end. *)
Lemma dashLoop_returns_exact (poly : list (Vec2.t R)) (o : DashOrientation)
    (dashLen step : R) :
  2 <= length poly -> (0 < step)%R ->
  forall (m : nat) (s : R),
    (last (cumOf poly) 0 <= s + INR m * step)%R ->
    exists strokes,
      (forall fuel, m < fuel ->
         dashLoop fuel poly (cumOf poly) o dashLen step (last (cumOf poly) 0%R) s
         = Returns strokes)
      /\ (last (cumOf poly) 0 <= s + INR (length strokes) * step)%R
      /\ (forall k, k < length strokes ->
            (s + INR k * step < last (cumOf poly) 0)%R).
Proof.
  intros Hlen Hstep.
  assert (Hcum : length (cumOf poly) = length poly).
  { apply cumOf_length. destruct poly; [cbn in Hlen; lia | discriminate]. }
  set (total := last (cumOf poly) 0%R).
  induction m as [| m IH]; intros s Hreach.
  - exists []. cbn [length INR] in *. split; [| split; [lra | intros k Hk; lia]].
    intros [| fuel] Hfuel; [lia |]. cbn [dashLoop].
    replace (nltb s total) with false; [reflexivity |].
    symmetry. apply Exact_ltb_false. lra.
  - destruct (Rlt_dec s total) as [Hs | Hs].
    + destruct (IH (s + step)%R) as (strokes & Hrun & Hend & Hbefore).
      { rewrite S_INR in Hreach. lra. }
      destruct (pointAt_defined poly (cumOf poly) s Hlen Hcum) as (c & Hc).
      { apply Exact_ltb_false. change (lit 0) with (Exact.of_float 0).
        rewrite Exact_of_float_0. fold total. lra. }
      exists (dashStroke o dashLen (nadd (nround (Vec2.x c)) (lit 0.5))
                         (nadd (nround (Vec2.y c)) (lit 0.5)) :: strokes).
      split; [| split].
      * intros [| fuel] Hfuel; [lia |]. cbn [dashLoop].
        replace (nltb s total) with true by (symmetry; apply Exact_ltb_true; exact Hs).
        rewrite Hc. change (nadd s step) with (s + step)%R.
        rewrite (Hrun fuel) by lia. reflexivity.
      * cbn [length]. rewrite S_INR. lra.
      * intros [| k] Hk; [cbn [INR]; lra |].
        cbn [length] in Hk. specialize (Hbefore k ltac:(lia)).
        rewrite S_INR. lra.
    + exists []. cbn [length INR]. split; [| split; [lra | intros k Hk; lia]].
      intros [| fuel] Hfuel; [lia |]. cbn [dashLoop].
      replace (nltb s total) with false; [reflexivity |].
      symmetry. apply Exact_ltb_false. lra.
Qed.

(** Finitely many steps of positive length reach any arclength. *)
Lemma steps_reach_exact (total s step : R) :
  (0 < step)%R -> exists m : nat, (total <= s + INR m * step)%R.
Proof.
  intros Hstep. exists (Z.to_nat (up ((total - s) / step))).
  destruct (archimed ((total - s) / step)) as [Hup _].
  assert (Hx : (total - s = (total - s) / step * step)%R) by (field; lra).
  destruct (Z.le_gt_cases (up ((total - s) / step)) 0) as [Hle | Hgt].
  - replace (Z.to_nat (up ((total - s) / step))) with 0 by lia. cbn [INR].
    apply IZR_le in Hle. 
    assert ((total - s) / step < 0)%R by lra.
    assert ((total - s) / step * step < 0)%R by nra. lra.
  - rewrite INR_IZR_INZ, Z2Nat.id by lia.
    assert ((total - s) / step * step < IZR (up ((total - s) / step)) * step)%R by nra.
    lra.
Qed.

(** X26 (exact arithmetic): [dashPolylineByArclength] returns whenever
    [dashLen + gapLen > 0], with the same strokes for every larger fuel.
    On a polyline longer than [1e-3] the number [n] of dashes is the
    number of the arclengths [dashLen / 2 + k (dashLen + gapLen)],
    [k = 0, 1, ..], that lie before the end of the polyline: the first
    [n] of them do, and the next one does not. *)
Theorem dashPolylineByArclength_returns_exact (poly : list (Vec2.t R))
    (o : DashOrientation) (dashLen gapLen : R) :
  (0 < dashLen + gapLen)%R ->
  exists fuel strokes,
    (forall fuel', fuel <= fuel' ->
       dashPolylineByArclength fuel' poly o dashLen gapLen = Returns strokes)
    /\ (2 <= length poly ->
        (Exact.of_float 1e-3 < last (cumOf poly) 0)%R ->
        (last (cumOf poly) 0
         <= dashLen / 2 + INR (length strokes) * (dashLen + gapLen))%R
        /\ forall k, k < length strokes ->
             (dashLen / 2 + INR k * (dashLen + gapLen) < last (cumOf poly) 0)%R).
Proof.
  intros Hstep. unfold dashPolylineByArclength.
  destruct poly as [| p [| q rest]].
  - exists 0, []. split; [reflexivity | cbn; lia].
  - exists 0, []. split; [reflexivity | cbn; lia].
  - set (poly := p :: q :: rest).
    change (lit 0) with (Exact.of_float 0). rewrite Exact_of_float_0.
    change (lit 2) with (Exact.of_float 2). rewrite Exact_of_float_2.
    destruct (nleb (last (cumOf poly) 0%R) (lit 0.001)) eqn:Hshort.
    + exists 0. eexists. split; [reflexivity |].
      intros _ Hlong. apply Exact_leb_true in Hshort.
      change (lit 0.001) with (Exact.of_float 0.001) in Hshort. lra.
    + assert (Hlen : 2 <= length poly) by (cbn; lia).
      destruct (steps_reach_exact (last (cumOf poly) 0%R) (dashLen / 2)
                                  (dashLen + gapLen) Hstep) as (m & Hm).
      destruct (dashLoop_returns_exact poly o dashLen (dashLen + gapLen) Hlen Hstep
                                       m (dashLen / 2)%R Hm)
        as (strokes & Hrun & Hend & Hbefore).
      exists (S m), strokes. split.
      * intros fuel' Hfuel. apply Hrun. lia.
      * intros _ _. split; assumption.
Qed.

Lemma dashPolylineByArclength_returns_witness :
  exists fuel strokes,
    (forall fuel', fuel <= fuel' ->
       dashPolylineByArclength fuel' [Vec2.mk 0 0; Vec2.mk 30 40]%R vertical 15%R 10%R
       = Returns strokes)
    /\ (2 <= length [Vec2.mk 0 0; Vec2.mk 30 40]%R ->
        (Exact.of_float 1e-3 < last (cumOf [Vec2.mk 0 0; Vec2.mk 30 40]%R) 0)%R ->
        (last (cumOf [Vec2.mk 0 0; Vec2.mk 30 40]%R) 0
         <= 15 / 2 + INR (length strokes) * (15 + 10))%R
        /\ forall k, k < length strokes ->
             (15 / 2 + INR k * (15 + 10) < last (cumOf [Vec2.mk 0 0; Vec2.mk 30 40]%R) 0)%R).
Proof.
  apply (dashPolylineByArclength_returns_exact
           [Vec2.mk 0 0; Vec2.mk 30 40]%R vertical 15%R 10%R).
  lra.
Defined.
